(** * ale.cpp: interpolation of positions, velocities and rotations

    A shallow embedding of [src/ale.cpp] (namespace [ale]) together with the
    routines of GSL ([gsl_interp], [gsl_poly]) and Eigen ([normalize]) that it
    calls, followed by the theorems that relate the code to its
    natural-language specification.

    Conventions of the embedding.
    - [double] is an abstract scalar type carrying the operations the code uses
      (class [Double]).  The theorems are stated for the instance over the real
      numbers [R], i.e. for exact arithmetic; the instance over binary64
      ([PrimFloat]) runs the same definitions on concrete inputs.
    - [std::vector<double>] is [list T]; [v[i]] outside the vector is the
      outcome [OutOfRange] (undefined behaviour in C++).
    - [int] is the integer it holds, of type [Z], and [size_t] is [nat].  Where
      the code computes with an [int] ([d + 1] in [evaluatePolynomial], which
      then becomes the [size_t] size of a vector) the 32-bit wrap-around and
      the conversion are written out ([to_int], [to_size_t]); elsewhere an
      [int] is only compared with constants.  A vector larger than
      [max_size ()] is refused by its constructor; the allocation of a vector
      that is not refused succeeds.
    - A C++ function is a computation in the monad [M]: it takes the log of the
      library calls made so far and returns an [outcome] and the extended log.
      [Throw] is a thrown exception, with its message: the
      [std::invalid_argument] of [ale.cpp] or the [std::length_error] of the
      constructor of [std::vector]; [GslError] is a call of
      GSL's error handler, which aborts the process unless a handler has been
      installed ([ale.cpp] installs none).
    - The library routines are written after their C and C++ sources: GSL 2.x
      ([interpolation/interp.c], [accel.c], [bsearch.c], [linear.c],
      [cspline.c], [linalg/tridiag.c], [poly/eval.c]) and Eigen 3.3
      ([Core/Dot.h]).  Two facts of GSL matter below: [gsl_interp_alloc]
      refuses fewer samples than the minimum of the interpolation type (2 for
      linear, 3 for the cubic spline), and [gsl_interp_init] refuses
      timestamps that are not strictly increasing. *)

From Stdlib Require Import String.
From Stdlib Require Import List ZArith Bool Arith Lia.
From Stdlib Require Import Floats.
From Stdlib Require Import Reals Lra.
Import ListNotations.
Open Scope string_scope.
Open Scope list_scope.

(** ** Scalars *)

Declare Scope dbl_scope.
Delimit Scope dbl_scope with D.

Class Double (T : Type) : Type := {
  dlit : Z -> T;           (* an integer-valued literal, or a [size_t] converted to [double] *)
  dadd : T -> T -> T;
  dsub : T -> T -> T;
  dmul : T -> T -> T;
  ddiv : T -> T -> T;
  dsqrt : T -> T;
  dltb : T -> T -> bool;   (* [a < b] *)
  dleb : T -> T -> bool;   (* [a <= b] *)
  deqb : T -> T -> bool    (* [a == b] *)
}.

Infix "+" := dadd : dbl_scope.
Infix "-" := dsub : dbl_scope.
Infix "*" := dmul : dbl_scope.
Infix "/" := ddiv : dbl_scope.
Infix "<?" := dltb : dbl_scope.
Infix "<=?" := dleb : dbl_scope.
Infix "=?" := deqb : dbl_scope.

(** [a > b], [a >= b] and [a != b] as C++ evaluates them. *)
Definition dgtb {T} `{Double T} (a b : T) : bool := dltb b a.
Definition dgeb {T} `{Double T} (a b : T) : bool := dleb b a.
Definition dneb {T} `{Double T} (a b : T) : bool := negb (deqb a b).

Infix ">?" := dgtb : dbl_scope.
Infix ">=?" := dgeb : dbl_scope.

Definition Rltb (a b : R) : bool := if Rlt_dec a b then true else false.
Definition Rleb (a b : R) : bool := if Rle_dec a b then true else false.
Definition Reqb (a b : R) : bool := if Req_dec_T a b then true else false.

#[export] Instance Double_R : Double R := {|
  dlit := IZR;
  dadd := Rplus;
  dsub := Rminus;
  dmul := Rmult;
  ddiv := Rdiv;
  dsqrt := R_sqrt.sqrt;
  dltb := Rltb;
  dleb := Rleb;
  deqb := Reqb
|}.

Definition float_of_Z (z : Z) : float :=
  match z with
  | Zneg _ => PrimFloat.opp (PrimFloat.of_uint63 (Uint63.of_Z (Z.opp z)))
  | _ => PrimFloat.of_uint63 (Uint63.of_Z z)
  end.

#[export] Instance Double_binary64 : Double float := {|
  dlit := float_of_Z;
  dadd := PrimFloat.add;
  dsub := PrimFloat.sub;
  dmul := PrimFloat.mul;
  ddiv := PrimFloat.div;
  dsqrt := PrimFloat.sqrt;
  dltb := PrimFloat.ltb;
  dleb := PrimFloat.leb;
  deqb := PrimFloat.eqb
|}.

(** ** Outcomes, the call log and the monad *)

(** Modelled from the spec: the enum [interpolation] is declared in [ale.h],
    which is not among the sources.  The spec gives it as the closed
    enumeration {linear, cubic-spline}; [ale.cpp] uses its values as indices
    into [{gsl_interp_linear, gsl_interp_cspline}]. *)
Inductive interpolation : Type := linear | cubic_spline.

Inductive outcome (A : Type) : Type :=
| Ret (a : A)
| Throw (what : string)
| GslError (reason : string)
| OutOfRange.

Arguments Ret {A} a.
Arguments Throw {A} what.
Arguments GslError {A} reason.
Arguments OutOfRange {A}.

(** The calls into GSL and Eigen, in the order in which they are made. *)
Inductive event : Type :=
| EvInterpAlloc (m : interpolation) (size : nat)
| EvInterpInit
| EvAccelAlloc
| EvInterpEval (d : nat)
| EvInterpFree
| EvAccelFree
| EvPolyEvalDerivs (lenres : nat)
| EvNormalize.

Definition log : Type := list event.

Definition M (A : Type) : Type := log -> outcome A * log.

Definition ret {A} (a : A) : M A := fun tr => (Ret a, tr).

Definition bind {A B} (m : M A) (k : A -> M B) : M B :=
  fun tr =>
    match m tr with
    | (Ret a, tr') => k a tr'
    | (Throw w, tr') => (Throw w, tr')
    | (GslError r, tr') => (GslError r, tr')
    | (OutOfRange, tr') => (OutOfRange, tr')
    end.

Definition throw {A} (what : string) : M A := fun tr => (Throw what, tr).
Definition gsl_error {A} (reason : string) : M A := fun tr => (GslError reason, tr).
Definition out_of_range {A} : M A := fun tr => (OutOfRange, tr).
Definition call (e : event) : M unit := fun tr => (Ret tt, tr ++ [e]).

Notation "x <- m ;; k" := (bind m (fun x => k))
  (at level 61, m at next level, right associativity).
Notation "m ;;; k" := (bind m (fun _ => k))
  (at level 61, right associativity).

(** The result of a call started with an empty log. *)
Definition result {A} (m : M A) : outcome A := fst (m []).
Definition calls {A} (m : M A) : log := snd (m []).

(** Interpolators and accelerators that were allocated and not freed. *)
Fixpoint live (tr : log) : Z :=
  match tr with
  | [] => 0
  | (EvInterpAlloc _ _ | EvAccelAlloc) :: tr' => live tr' + 1
  | (EvInterpFree | EvAccelFree) :: tr' => live tr' - 1
  | _ :: tr' => live tr'
  end.

(** ** Vectors and loops *)

(** [for (i = lo; i < lo + count; i++) s = body i s]. *)
Fixpoint for_range {S : Type} (lo count : nat) (body : nat -> S -> S) (s : S) : S :=
  match count with
  | O => s
  | Datatypes.S c => for_range (Datatypes.S lo) c body (body lo s)
  end.

(** The same loop with a body that may fail. *)
Fixpoint for_rangeM {S : Type} (lo count : nat) (body : nat -> S -> M S) (s : S) : M S :=
  match count with
  | O => ret s
  | Datatypes.S c => s' <- body lo s ;; for_rangeM (Datatypes.S lo) c body s'
  end.

(** [a[i] = v] on an array known to hold index [i]. *)
Fixpoint upd {A} (a : list A) (i : nat) (v : A) : list A :=
  match a, i with
  | [], _ => []
  | _ :: r, O => v :: r
  | x :: r, Datatypes.S j => x :: upd r j v
  end.

(** [v[i]], [v[i] = x], [v.front()] and [v.back()] of a [std::vector]. *)
Definition at_ {A} (v : list A) (i : nat) : M A :=
  match nth_error v i with
  | Some x => ret x
  | None => out_of_range
  end.

Definition set_at {A} (v : list A) (i : nat) (x : A) : M (list A) :=
  if (i <? length v)%nat then ret (upd v i x) else out_of_range.

Definition front {A} (v : list A) : M A := at_ v 0.
Definition back {A} (v : list A) : M A := at_ v (length v - 1).

(** A read of a C array inside the libraries: [a[i]]. *)
Definition get {T} `{Double T} (a : list T) (i : nat) : T := nth i a (dlit 0).

(** ** GSL: polynomial evaluation ([poly/eval.c]) *)

Section GslPoly.
Context {T : Type} `{Double T}.

(** [gsl_poly_eval_derivs (c, lenc, x, res, lenres)]: the value of the
    polynomial with coefficients [c] and its derivatives up to order
    [lenres - 1], written into [res].  The three loops of the C function are
    kept: the fill with the leading coefficient, the repeated synthetic
    division, and the multiplication by the factorials. *)
Definition gsl_poly_eval_derivs (c : list T) (lenc : nat) (x : T)
    (res : list T) (lenres : nat) : list T :=
  let '(_, nmax, res) :=
    for_range 0 lenres
      (fun i '(n, nmax, res) =>
         if (n <? lenc)%nat
         then (S n, n, upd res i (get c (lenc - 1)))
         else (n, nmax, upd res i (dlit 0)))
      (0%nat, 0%nat, res) in
  let res :=
    for_range 0 (lenc - 1)
      (fun i res =>
         let k := ((lenc - 1) - i)%nat in
         let res := upd res 0 ((x * get res 0) + get c (k - 1))%D in
         let lmax := if (nmax <? k)%nat then nmax else (k - 1)%nat in
         for_range 1 lmax
           (fun l res => upd res l ((x * get res l) + get res (l - 1))%D)
           res)
      res in
  let '(_, res) :=
    for_range 2 (nmax - 1)
      (fun i '(f, res) =>
         let f := (f * dlit (Z.of_nat i))%D in
         (f, upd res i (get res i * f)%D))
      (dlit 1, res) in
  res.

End GslPoly.

(** ** GSL: one-dimensional interpolation ([interpolation/]) *)

Record gsl_interp (T : Type) : Type := {
  interp_type : interpolation;
  xmin : T;
  xmax : T;
  interp_size : nat;
  state_c : list T      (* [cspline_state_t.c]; not used by the linear type *)
}.

Arguments Build_gsl_interp {T}.
Arguments interp_type {T}.
Arguments xmin {T}.
Arguments xmax {T}.
Arguments interp_size {T}.
Arguments state_c {T}.

Record gsl_interp_accel : Type := {
  cache : nat;
  miss_count : nat;
  hit_count : nat
}.

(** [gsl_interp_type.min_size] of [gsl_interp_linear] and [gsl_interp_cspline]. *)
Definition min_size (ty : interpolation) : nat :=
  match ty with
  | linear => 2
  | cubic_spline => 3
  end.

Section GslInterp.
Context {T : Type} `{Double T}.

(** [bsearch.c]: the loop [while (ihi > ilo + 1)] of [gsl_interp_bsearch];
    every iteration brings [ihi] and [ilo] closer, so [ihi - ilo] iterations
    are enough. *)
Fixpoint bsearch_loop (fuel : nat) (x_array : list T) (x : T) (ilo ihi : nat) : nat :=
  match fuel with
  | O => ilo
  | S fuel' =>
      if (ilo + 1 <? ihi)%nat then
        let i := ((ihi + ilo) / 2)%nat in
        if (get x_array i >? x)%D
        then bsearch_loop fuel' x_array x ilo i
        else bsearch_loop fuel' x_array x i ihi
      else ilo
  end.

Definition gsl_interp_bsearch (x_array : list T) (x : T) (index_lo index_hi : nat) : nat :=
  bsearch_loop (index_hi - index_lo) x_array x index_lo index_hi.

Definition gsl_interp_accel_alloc : M gsl_interp_accel :=
  call EvAccelAlloc ;;;
  ret {| cache := 0; miss_count := 0; hit_count := 0 |}.

Definition gsl_interp_accel_free (a : gsl_interp_accel) : M unit :=
  call EvAccelFree.

(** [accel.c]: the index [i] with [xa[i] <= x < xa[i+1]], and the accelerator
    with its cache and counters brought up to date. *)
Definition gsl_interp_accel_find (a : gsl_interp_accel) (xa : list T) (len : nat) (x : T)
    : nat * gsl_interp_accel :=
  let x_index := cache a in
  if (x <? get xa x_index)%D then
    let i := gsl_interp_bsearch xa x 0 x_index in
    (i, {| cache := i; miss_count := S (miss_count a); hit_count := hit_count a |})
  else if (x >=? get xa (x_index + 1))%D then
    let i := gsl_interp_bsearch xa x x_index (len - 1) in
    (i, {| cache := i; miss_count := S (miss_count a); hit_count := hit_count a |})
  else
    (x_index, {| cache := x_index; miss_count := miss_count a; hit_count := S (hit_count a) |}).

(** [linear.c].  Each evaluator returns the value it stores through its
    output pointer; its status is discarded by [gsl_interp_eval]. *)
Definition linear_eval (x_array y_array : list T) (size : nat) (x : T)
    (a : gsl_interp_accel) : T :=
  let index := fst (gsl_interp_accel_find a x_array size x) in
  let x_lo := get x_array index in
  let x_hi := get x_array (index + 1) in
  let y_lo := get y_array index in
  let y_hi := get y_array (index + 1) in
  let dx := (x_hi - x_lo)%D in
  if (dx >? dlit 0)%D
  then (y_lo + (x - x_lo) / dx * (y_hi - y_lo))%D
  else dlit 0.

Definition linear_eval_deriv (x_array y_array : list T) (size : nat) (x : T)
    (a : gsl_interp_accel) : T :=
  let index := fst (gsl_interp_accel_find a x_array size x) in
  let x_lo := get x_array index in
  let x_hi := get x_array (index + 1) in
  let y_lo := get y_array index in
  let y_hi := get y_array (index + 1) in
  let dx := (x_hi - x_lo)%D in
  let dy := (y_hi - y_lo)%D in
  if (dx >? dlit 0)%D then (dy / dx)%D else dlit 0.

Definition linear_eval_deriv2 (x_array y_array : list T) (size : nat) (x : T)
    (a : gsl_interp_accel) : T :=
  dlit 0.

(** [linalg/tridiag.c]: [solve_tridiag] with unit strides, the solver behind
    [gsl_linalg_solve_symm_tridiag].  [status] is [true] when a pivot was
    zero ([GSL_EZERODIV]), which is reported through the error handler. *)
Definition solve_tridiag (diag offdiag b x : list T) (N : nat) : M (list T) :=
  let gamma := repeat (dlit 0) N in
  let alpha := repeat (dlit 0) N in
  let c := repeat (dlit 0) N in
  let z := repeat (dlit 0) N in
  let alpha := upd alpha 0 (get diag 0) in
  let gamma := upd gamma 0 (get offdiag 0 / get alpha 0)%D in
  let status := (get alpha 0 =? dlit 0)%D in
  let '(alpha, gamma, status) :=
    for_range 1 (N - 2)
      (fun i '(alpha, gamma, status) =>
         let alpha := upd alpha i (get diag i - get offdiag (i - 1) * get gamma (i - 1))%D in
         let gamma := upd gamma i (get offdiag i / get alpha i)%D in
         let status := if (get alpha i =? dlit 0)%D then true else status in
         (alpha, gamma, status))
      (alpha, gamma, status) in
  let alpha :=
    if (1 <? N)%nat
    then upd alpha (N - 1) (get diag (N - 1) - get offdiag (N - 2) * get gamma (N - 2))%D
    else alpha in
  let z := upd z 0 (get b 0) in
  let z := for_range 1 (N - 1)
             (fun i z => upd z i (get b i - get gamma (i - 1) * get z (i - 1))%D) z in
  let c := for_range 0 N (fun i c => upd c i (get z i / get alpha i)%D) c in
  let x := upd x (N - 1) (get c (N - 1)) in
  let x :=
    if (2 <=? N)%nat
    then for_range 0 (N - 1)
           (fun j x => let i := (N - 2 - j)%nat in
                       upd x i (get c i - get gamma i * get x (i + 1))%D) x
    else x in
  if status then gsl_error "matrix must be positive definite" else ret x.

(** [cspline.c]: [cspline_init] for the natural spline.  The result is the
    array [state->c]; the solver writes its solution into [c + 1]. *)
Definition cspline_init (xa ya : list T) (size : nat) : M (list T) :=
  let num_points := size in
  let max_index := (num_points - 1)%nat in
  let sys_size := (max_index - 1)%nat in
  let c := repeat (dlit 0) size in
  let c := upd c 0 (dlit 0) in
  let c := upd c max_index (dlit 0) in
  let '(offdiag, diag, g) :=
    for_range 0 sys_size
      (fun i '(offdiag, diag, g) =>
         let h_i := (get xa (i + 1) - get xa i)%D in
         let h_ip1 := (get xa (i + 2) - get xa (i + 1))%D in
         let ydiff_i := (get ya (i + 1) - get ya i)%D in
         let ydiff_ip1 := (get ya (i + 2) - get ya (i + 1))%D in
         let g_i := if dneb h_i (dlit 0) then (dlit 1 / h_i)%D else dlit 0 in
         let g_ip1 := if dneb h_ip1 (dlit 0) then (dlit 1 / h_ip1)%D else dlit 0 in
         (upd offdiag i h_ip1,
          upd diag i (dlit 2 * (h_ip1 + h_i))%D,
          upd g i (dlit 3 * (ydiff_ip1 * g_ip1 - ydiff_i * g_i))%D))
      (repeat (dlit 0) size, repeat (dlit 0) size, repeat (dlit 0) size) in
  if (sys_size =? 1)%nat then
    ret (upd c 1 (get g 0 / get diag 0)%D)
  else
    solution <- solve_tridiag diag offdiag g (firstn sys_size (tl c)) sys_size ;;
    ret (hd (dlit 0) c :: solution ++ skipn (S sys_size) c).

Definition coeff_calc (c_array : list T) (dy dx : T) (index : nat) : T * T * T :=
  let c_i := get c_array index in
  let c_ip1 := get c_array (index + 1) in
  let b := ((dy / dx) - dx * (c_ip1 + dlit 2 * c_i) / dlit 3)%D in
  let c := c_i in
  let d := ((c_ip1 - c_i) / (dlit 3 * dx))%D in
  (b, c, d).

Definition cspline_eval (state : list T) (x_array y_array : list T) (size : nat) (x : T)
    (a : gsl_interp_accel) : T :=
  let index := fst (gsl_interp_accel_find a x_array size x) in
  let x_hi := get x_array (index + 1) in
  let x_lo := get x_array index in
  let dx := (x_hi - x_lo)%D in
  if (dx >? dlit 0)%D then
    let y_lo := get y_array index in
    let y_hi := get y_array (index + 1) in
    let dy := (y_hi - y_lo)%D in
    let delx := (x - x_lo)%D in
    let '(b_i, c_i, d_i) := coeff_calc state dy dx index in
    (y_lo + delx * (b_i + delx * (c_i + delx * d_i)))%D
  else dlit 0.

Definition cspline_eval_deriv (state : list T) (x_array y_array : list T) (size : nat) (x : T)
    (a : gsl_interp_accel) : T :=
  let index := fst (gsl_interp_accel_find a x_array size x) in
  let x_hi := get x_array (index + 1) in
  let x_lo := get x_array index in
  let dx := (x_hi - x_lo)%D in
  if (dx >? dlit 0)%D then
    let y_lo := get y_array index in
    let y_hi := get y_array (index + 1) in
    let dy := (y_hi - y_lo)%D in
    let delx := (x - x_lo)%D in
    let '(b_i, c_i, d_i) := coeff_calc state dy dx index in
    (b_i + delx * (dlit 2 * c_i + dlit 3 * d_i * delx))%D
  else dlit 0.

Definition cspline_eval_deriv2 (state : list T) (x_array y_array : list T) (size : nat) (x : T)
    (a : gsl_interp_accel) : T :=
  let index := fst (gsl_interp_accel_find a x_array size x) in
  let x_hi := get x_array (index + 1) in
  let x_lo := get x_array index in
  let dx := (x_hi - x_lo)%D in
  if (dx >? dlit 0)%D then
    let y_lo := get y_array index in
    let y_hi := get y_array (index + 1) in
    let dy := (y_hi - y_lo)%D in
    let delx := (x - x_lo)%D in
    let '(b_i, c_i, d_i) := coeff_calc state dy dx index in
    (dlit 2 * c_i + dlit 6 * d_i * delx)%D
  else dlit 0.

(** [interp.c]. *)
Definition gsl_interp_alloc (ty : interpolation) (size : nat) : M (gsl_interp T) :=
  if (size <? min_size ty)%nat then
    gsl_error "insufficient number of points for interpolation type"
  else
    call (EvInterpAlloc ty size) ;;;
    ret {| interp_type := ty; xmin := dlit 0; xmax := dlit 0; interp_size := size;
           state_c := repeat (dlit 0) size |}.

Definition gsl_interp_init (interp : gsl_interp T) (x_array y_array : list T) (size : nat)
    : M (gsl_interp T) :=
  if negb (size =? interp_size interp)%nat then
    gsl_error "data must match size of interpolation object"
  else
    for_rangeM 1 (size - 1)
      (fun i _ =>
         if negb (get x_array (i - 1) <? get x_array i)%D
         then gsl_error "x values must be strictly increasing"
         else ret tt)
      tt ;;;
    c <- match interp_type interp with
         | linear => ret (state_c interp)
         | cubic_spline => cspline_init x_array y_array size
         end ;;
    call EvInterpInit ;;;
    ret {| interp_type := interp_type interp;
           xmin := get x_array 0;
           xmax := get x_array (size - 1);
           interp_size := interp_size interp;
           state_c := c |}.

Definition gsl_interp_free (interp : gsl_interp T) : M unit :=
  call EvInterpFree.

Definition gsl_interp_eval (interp : gsl_interp T) (xa ya : list T) (x : T)
    (a : gsl_interp_accel) : M T :=
  if (x <? xmin interp)%D || (x >? xmax interp)%D then
    gsl_error "interpolation error"
  else
    call (EvInterpEval 0) ;;;
    ret match interp_type interp with
        | linear => linear_eval xa ya (interp_size interp) x a
        | cubic_spline => cspline_eval (state_c interp) xa ya (interp_size interp) x a
        end.

Definition gsl_interp_eval_deriv (interp : gsl_interp T) (xa ya : list T) (x : T)
    (a : gsl_interp_accel) : M T :=
  if (x <? xmin interp)%D || (x >? xmax interp)%D then
    gsl_error "interpolation error"
  else
    call (EvInterpEval 1) ;;;
    ret match interp_type interp with
        | linear => linear_eval_deriv xa ya (interp_size interp) x a
        | cubic_spline => cspline_eval_deriv (state_c interp) xa ya (interp_size interp) x a
        end.

Definition gsl_interp_eval_deriv2 (interp : gsl_interp T) (xa ya : list T) (x : T)
    (a : gsl_interp_accel) : M T :=
  if (x <? xmin interp)%D || (x >? xmax interp)%D then
    gsl_error "interpolation error"
  else
    call (EvInterpEval 2) ;;;
    ret match interp_type interp with
        | linear => linear_eval_deriv2 xa ya (interp_size interp) x a
        | cubic_spline => cspline_eval_deriv2 (state_c interp) xa ya (interp_size interp) x a
        end.

End GslInterp.

(** ** Eigen: normalisation ([Core/Dot.h], [Geometry/Quaternion.h]) *)

Section Eigen.
Context {T : Type} `{Double T}.

Definition squaredNorm (v : list T) : T :=
  fold_left (fun s c => (s + c * c)%D) v (dlit 0).

(** [MatrixBase::normalize]: divide by the norm unless the squared norm is
    not positive (Eigen 3.3 and later).  [normalized] is the value left in
    the vector, [normalize] the call. *)
Definition normalized (v : list T) : list T :=
  let z := squaredNorm v in
  if (z >? dlit 0)%D
  then map (fun c => (c / dsqrt z)%D) v
  else v.

Definition normalize (v : list T) : M (list T) :=
  call EvNormalize ;;;
  ret (normalized v).

(** [Eigen::Quaterniond (w, x, y, z)]; the coefficients are stored in the
    order x, y, z, w, and [Quaternion::normalize] normalises that vector. *)
Definition Quaterniond (w x y z : T) : list T := [x; y; z; w].
Definition quat_x (q : list T) : T := get q 0.
Definition quat_y (q : list T) : T := get q 1.
Definition quat_z (q : list T) : T := get q 2.
Definition quat_w (q : list T) : T := get q 3.

End Eigen.

(** ** [int], [size_t] and the size of a vector *)

Definition int_min : Z := (- 2 ^ 31)%Z.
Definition int_max : Z := (2 ^ 31 - 1)%Z.

(** The [int] that the integer [z] becomes: two's complement on 32 bits. *)
Definition to_int (z : Z) : Z := ((z + 2 ^ 31) mod 2 ^ 32 - 2 ^ 31)%Z.

(** The conversion of an [int] to [size_t], on 64 bits. *)
Definition to_size_t (z : Z) : Z := (z mod 2 ^ 64)%Z.

(** [std::vector<double>::max_size ()]: [PTRDIFF_MAX / sizeof (double)].  The
    constructor [vector (n)] throws [std::length_error] above it. *)
Definition vector_max_size : Z := (2 ^ 60 - 1)%Z.

(** ** ale.cpp *)

Section Ale.
Context {T : Type} `{Double T}.

(** [double interpolate (points, times, time, interp, d)], lines 207-249. *)
Definition interpolate (points times : list T) (time : T) (interp : interpolation) (d : Z)
    : M T :=
  let numPoints := length points in
  if (numPoints <? 2)%nat then
    throw "At least two points must be input to interpolate over."
  else if negb (length points =? length times)%nat then
    throw "Invalid gsl_interp_type data, must have the same number of points as times."
  else
    t_front <- front times ;;
    t_back <- back times ;;
    if (time <? t_front)%D || (time >? t_back)%D then
      throw "Invalid gsl_interp_type time, outside of input times."
    else
      interpolator <- gsl_interp_alloc interp numPoints ;;
      interpolator <- gsl_interp_init interpolator times points numPoints ;;
      acc <- gsl_interp_accel_alloc ;;
      result <- match d with
                | 0%Z => gsl_interp_eval interpolator times points time acc
                | 1%Z => gsl_interp_eval_deriv interpolator times points time acc
                | 2%Z => gsl_interp_eval_deriv2 interpolator times points time acc
                | _ => throw "Invalid derivitive option, must be 0, 1 or 2."
                end ;;
      gsl_interp_free interpolator ;;;
      gsl_interp_accel_free acc ;;;
      ret result.

(** [double evaluatePolynomial (coeffs, time, d)], lines 191-205.  The
    parameter [d] is an [int]; [derivatives (d + 1)] adds in [int], where
    [INT_MAX + 1] wraps to [INT_MIN], and converts the sum to the [size_t]
    size of the vector, which the constructor refuses when it exceeds
    [max_size ()]. *)
Definition evaluatePolynomial (coeffs : list T) (time : T) (d : Z) : M T :=
  let d := to_int d in
  if (length coeffs =? 0)%nat then
    throw "Invalid input coeffs, must be non-empty."
  else if (d <? 0)%Z then
    throw "Invalid derivative degree, must be non-negative."
  else
    let n := to_size_t (to_int (d + 1)) in
    if (vector_max_size <? n)%Z then
      throw "cannot create std::vector larger than max_size()"
    else
      let derivatives := repeat (dlit 0) (Z.to_nat n) in
      call (EvPolyEvalDerivs (length derivatives)) ;;;
      let derivatives :=
        gsl_poly_eval_derivs coeffs (length coeffs) time derivatives (length derivatives) in
      back derivatives.

(** [getPosition (coords, times, time, interp)], lines 25-41. *)
Definition getPosition (coords : list (list T)) (times : list T) (time : T)
    (interp : interpolation) : M (list T) :=
  if negb (length coords =? 3)%nat then
    throw "Invalid input positions, expected three vectors."
  else
    c0 <- at_ coords 0 ;;
    x <- interpolate c0 times time interp 0 ;;
    c1 <- at_ coords 1 ;;
    y <- interpolate c1 times time interp 0 ;;
    c2 <- at_ coords 2 ;;
    z <- interpolate c2 times time interp 0 ;;
    ret [x; y; z].

(** [getVelocity (coords, times, time, interp)], lines 43-59. *)
Definition getVelocity (coords : list (list T)) (times : list T) (time : T)
    (interp : interpolation) : M (list T) :=
  if negb (length coords =? 3)%nat then
    throw "Invalid input positions, expected three vectors."
  else
    c0 <- at_ coords 0 ;;
    x <- interpolate c0 times time interp 1 ;;
    c1 <- at_ coords 1 ;;
    y <- interpolate c1 times time interp 1 ;;
    c2 <- at_ coords 2 ;;
    z <- interpolate c2 times time interp 1 ;;
    ret [x; y; z].

(** [getPosition (coeffs, time)], lines 69-81. *)
Definition getPosition_coeffs (coeffs : list (list T)) (time : T) : M (list T) :=
  if negb (length coeffs =? 3)%nat then
    throw "Invalid input coeffs, expected three vectors."
  else
    c0 <- at_ coeffs 0 ;;
    x <- evaluatePolynomial c0 time 0 ;;
    c1 <- at_ coeffs 1 ;;
    y <- evaluatePolynomial c1 time 0 ;;
    c2 <- at_ coeffs 2 ;;
    z <- evaluatePolynomial c2 time 0 ;;
    ret [x; y; z].

(** [getVelocity (coeffs, time)], lines 86-98. *)
Definition getVelocity_coeffs (coeffs : list (list T)) (time : T) : M (list T) :=
  if negb (length coeffs =? 3)%nat then
    throw "Invalid input coeffs, expected three vectors."
  else
    c0 <- at_ coeffs 0 ;;
    x <- evaluatePolynomial c0 time 1 ;;
    c1 <- at_ coeffs 1 ;;
    y <- evaluatePolynomial c1 time 1 ;;
    c2 <- at_ coeffs 2 ;;
    z <- evaluatePolynomial c2 time 1 ;;
    ret [x; y; z].

(** [rotations[c][i]] and [rotations[c][i] = v]. *)
Definition at2 (rotations : list (list T)) (c i : nat) : M T :=
  channel <- at_ rotations c ;;
  at_ channel i.

Definition set_at2 (rotations : list (list T)) (c i : nat) (v : T) : M (list (list T)) :=
  channel <- at_ rotations c ;;
  channel <- set_at channel i v ;;
  set_at rotations c channel.

(** The body of the loop of lines 114-122 (and 147-154) at index [i]. *)
Definition normalize_sample (i : nat) (rotations : list (list T)) : M (list (list T)) :=
  w <- at2 rotations 0 i ;;
  x <- at2 rotations 1 i ;;
  y <- at2 rotations 2 i ;;
  z <- at2 rotations 3 i ;;
  quat <- normalize (Quaterniond w x y z) ;;
  rotations <- set_at2 rotations 0 i (quat_w quat) ;;
  rotations <- set_at2 rotations 1 i (quat_x quat) ;;
  rotations <- set_at2 rotations 2 i (quat_y quat) ;;
  set_at2 rotations 3 i (quat_z quat).

(** [for (size_t i = 0; i < rotations[0].size (); i++)]. *)
Definition normalize_samples (rotations : list (list T)) : M (list (list T)) :=
  r0 <- at_ rotations 0 ;;
  for_rangeM 0 (length r0) normalize_sample rotations.

(** [getRotation (rotations, times, time, interp)], lines 102-136. *)
Definition getRotation (rotations : list (list T)) (times : list T) (time : T)
    (interp : interpolation) : M (list T) :=
  if negb (length rotations =? 4)%nat then
    throw "Invalid input rotations, expected four vectors."
  else
    rotations <- normalize_samples rotations ;;
    r0 <- at_ rotations 0 ;;
    q0 <- interpolate r0 times time interp 0 ;;
    r1 <- at_ rotations 1 ;;
    q1 <- interpolate r1 times time interp 0 ;;
    r2 <- at_ rotations 2 ;;
    q2 <- interpolate r2 times time interp 0 ;;
    r3 <- at_ rotations 3 ;;
    q3 <- interpolate r3 times time interp 0 ;;
    normalize [q0; q1; q2; q3].

(** [getAngularVelocity (rotations, times, time, interp)], lines 138-168. *)
Definition getAngularVelocity (rotations : list (list T)) (times : list T) (time : T)
    (interp : interpolation) : M (list T) :=
  if negb (length rotations =? 4)%nat then
    throw "Invalid input rotations, expected four vectors."
  else
    rotations <- normalize_samples rotations ;;
    r0 <- at_ rotations 0 ;;
    q0 <- interpolate r0 times time interp 1 ;;
    r1 <- at_ rotations 1 ;;
    q1 <- interpolate r1 times time interp 1 ;;
    r2 <- at_ rotations 2 ;;
    q2 <- interpolate r2 times time interp 1 ;;
    r3 <- at_ rotations 3 ;;
    q3 <- interpolate r3 times time interp 1 ;;
    normalize [q0; q1; q2; q3].

(** The two overloads on frame names, lines 171-181. *)
Definition getRotation_frames (from to : string) (coefficients : list T) (time : T)
    : M (list T) :=
  ret [dlit 0; dlit 0; dlit 0].

Definition getAngularVelocity_frames (from to : string) (coefficients : list T) (time : T)
    : M (list T) :=
  ret [dlit 0; dlit 0; dlit 0].

End Ale.

(** * Notions used in the statements *)

(** The accelerator returned by [gsl_interp_accel_alloc]. *)
Definition fresh_accel : gsl_interp_accel :=
  {| cache := 0; miss_count := 0; hit_count := 0 |}.

(** What the evaluator of type [ty] computes for derivative order [d] from
    the spline state [c] (ignored by the linear type). *)
Definition interp_value {T} `{Double T} (ty : interpolation) (d : nat)
    (c xa ya : list T) (n : nat) (x : T) : T :=
  match ty, d with
  | linear, 0%nat => linear_eval xa ya n x fresh_accel
  | linear, 1%nat => linear_eval_deriv xa ya n x fresh_accel
  | linear, _ => linear_eval_deriv2 xa ya n x fresh_accel
  | cubic_spline, 0%nat => cspline_eval c xa ya n x fresh_accel
  | cubic_spline, 1%nat => cspline_eval_deriv c xa ya n x fresh_accel
  | cubic_spline, _ => cspline_eval_deriv2 c xa ya n x fresh_accel
  end.

(** The type-specific part of [gsl_interp_init] on a freshly allocated
    interpolator. *)
Definition type_init {T} `{Double T} (ty : interpolation) (xa ya : list T) (n : nat)
    : M (list T) :=
  match ty with
  | linear => ret (repeat (dlit 0) n)
  | cubic_spline => cspline_init xa ya n
  end.

(** The calls of one successful [interpolate], and those made before the
    derivative order is looked at. *)
Definition interpolate_setup (ty : interpolation) (n : nat) : log :=
  [EvInterpAlloc ty n; EvInterpInit; EvAccelAlloc].

Definition interpolate_calls (ty : interpolation) (n d : nat) : log :=
  interpolate_setup ty n ++ [EvInterpEval d; EvInterpFree; EvAccelFree].

(** The samples after the loop of lines 114-122, in the words of the
    specification: at every sample index the quaternion built from the four
    channel values is normalised and its components are written back. *)
Fixpoint zip4 {A} (r0 r1 r2 r3 : list A) : list (A * A * A * A) :=
  match r0, r1, r2, r3 with
  | w :: r0', x :: r1', y :: r2', z :: r3' => (w, x, y, z) :: zip4 r0' r1' r2' r3'
  | _, _, _, _ => []
  end.

Definition normalized_sample {T} `{Double T} (s : T * T * T * T) : list T :=
  let '(w, x, y, z) := s in normalized (Quaterniond w x y z).

(** The Euclidean norm of a tuple. *)
Definition euclidean_norm (v : list R) : R :=
  R_sqrt.sqrt (fold_right (fun c s => (c * c + s)%R) 0%R v).

(** The preconditions of [interpolate] listed by the specification: at least
    two samples, as many samples as timestamps, a query time between the
    first and the last timestamp, and a derivative order among 0, 1, 2. *)
Definition precondition_violated (points times : list R) (time : R) (d : Z) : Prop :=
  (length points < 2)%nat \/
  length points <> length times \/
  (time < get times 0)%R \/
  (get times (length times - 1) < time)%R \/
  ~ (d = 0 \/ d = 1 \/ d = 2)%Z.

(** A call that returns no value. *)
Definition fails {A} (o : outcome A) : Prop :=
  match o with
  | Ret _ => False
  | _ => True
  end.

(** The polynomial [c0 + c1 t + ... + cn t^n], summed term by term. *)
Fixpoint poly_sum (cs : list R) (t : R) (i : nat) : R :=
  match cs with
  | [] => 0%R
  | c :: q => (c * t ^ i + poly_sum q t (S i))%R
  end.

Definition polynomial (cs : list R) (t : R) : R := poly_sum cs t 0.

(** Its derivative, coefficient by coefficient: [c1 + 2 c2 t + ... ]. *)
Fixpoint pderiv_from (k : nat) (cs : list R) : list R :=
  match cs with
  | [] => []
  | c :: q => (INR k * c)%R :: pderiv_from (S k) q
  end.

Definition pderiv (cs : list R) : list R := pderiv_from 1 (tl cs).

(** [g] is the derivative of order [d] of [f]. *)
Fixpoint derivative_of_order (d : nat) (f g : R -> R) : Prop :=
  match d with
  | O => forall x, g x = f x
  | S d' => exists h, derivative_of_order d' f h /\
                      forall x, derivable_pt_lim h x (g x)
  end.

(** The coefficient of [h^l] in the expansion of the polynomial at [x + h],
    by Horner's rule on the coefficient list. *)
Fixpoint taylor (cs : list R) (x : R) (l : nat) : R :=
  match cs with
  | [] => 0%R
  | c :: q =>
      match l with
      | O => (c + x * taylor q x 0)%R
      | S l' => (x * taylor q x (S l') + taylor q x l')%R
      end
  end.

(** Timestamps as GSL wants them. *)
Definition increasing (x : list R) : Prop :=
  forall i, (S i < length x)%nat -> (get x i < get x (S i))%R.

(** A computation is [balanced] when, if it returns or throws, it leaves as
    many GSL objects allocated as it found; it is a [gsl_step k] when it never
    throws and, if it returns, leaves [k] more objects allocated. *)
Definition balanced {A} (m : M A) : Prop :=
  forall tr,
    match fst (m tr) with
    | Ret _ | Throw _ => live (snd (m tr)) = live tr
    | _ => True
    end.

Definition gsl_step {A} (k : Z) (m : M A) : Prop :=
  forall tr,
    match fst (m tr) with
    | Ret _ => live (snd (m tr)) = (live tr + k)%Z
    | Throw _ => False
    | _ => True
    end.

(** A computation stays [in_bounds] when none of its accesses to an element
    of a [std::vector] ([operator[]], [front], [back]) is outside the
    vector. *)
Definition in_bounds {A} (m : M A) : Prop :=
  forall tr, fst (m tr) <> OutOfRange.


(** The coefficients, in powers of [x - xa[i]], of the piece of the
    interpolant of type [ty] on the interval that starts at sample [i]. *)
Definition piece (ty : interpolation) (c xa ya : list R) (i : nat) : list R :=
  let dx := (get xa (i + 1) - get xa i)%R in
  let dy := (get ya (i + 1) - get ya i)%R in
  match ty with
  | linear => [get ya i; (dy / dx)%R]
  | cubic_spline =>
      let '(b_i, c_i, d_i) := coeff_calc c dy dx i in
      [get ya i; b_i; c_i; d_i]
  end.

(** * Properties *)

(** ** The monad *)

Lemma bind_ret_l {A B} (a : A) (k : A -> M B) (tr : log) :
  bind (ret a) k tr = k a tr.
Proof. reflexivity. Qed.

Lemma bind_call {B} (e : event) (k : unit -> M B) (tr : log) :
  bind (call e) k tr = k tt (tr ++ [e]).
Proof. reflexivity. Qed.

Lemma bind_eq {A B} {m : M A} (k : A -> M B) {tr tr' : log} {a : A} :
  m tr = (Ret a, tr') -> bind m k tr = k a tr'.
Proof. unfold bind; intros ->; reflexivity. Qed.

Lemma bind_assoc {A B C} (m : M A) (f : A -> M B) (g : B -> M C) (tr : log) :
  bind (bind m f) g tr = bind m (fun x => bind (f x) g) tr.
Proof.
  unfold bind. destruct (m tr) as [[a| | |] tr']; reflexivity.
Qed.

Lemma bind_ext {A B} (m : M A) (k1 k2 : A -> M B) (tr : log) :
  (forall a tr', k1 a tr' = k2 a tr') -> bind m k1 tr = bind m k2 tr.
Proof.
  intros Hk. unfold bind. destruct (m tr) as [[a| | |] tr']; auto.
Qed.

(** ** Arrays *)

Lemma length_upd {A} (a : list A) (i : nat) (v : A) : length (upd a i v) = length a.
Proof.
  revert i; induction a as [|x r IH]; intros [|j]; simpl; auto.
Qed.

Lemma nth_upd_same {A} (a : list A) (i : nat) (v d : A) :
  (i < length a)%nat -> nth i (upd a i v) d = v.
Proof.
  revert i; induction a as [|x r IH]; intros [|j]; simpl; intros Hi; try lia; auto.
  apply IH; lia.
Qed.

Lemma nth_upd_other {A} (a : list A) (i j : nat) (v d : A) :
  i <> j -> nth j (upd a i v) d = nth j a d.
Proof.
  revert i j; induction a as [|x r IH]; intros [|i] [|j]; simpl; intros Hij;
    try congruence; auto.
Qed.

Lemma nth_map_seq {A} (f : nat -> A) (n l : nat) (d : A) :
  (l < n)%nat -> nth l (map f (seq 0 n)) d = f l.
Proof.
  intros Hl. rewrite (nth_indep _ d (f 0%nat)) by (rewrite length_map, length_seq; exact Hl).
  rewrite map_nth, seq_nth by exact Hl. reflexivity.
Qed.

(** A loop establishes what each of its iterations preserves. *)
Lemma for_range_inv {S : Type} (P : nat -> S -> Prop) (body : nat -> S -> S) :
  forall count lo s,
    P lo s ->
    (forall i s', (lo <= i < lo + count)%nat -> P i s' -> P (Datatypes.S i) (body i s')) ->
    P (lo + count)%nat (for_range lo count body s).
Proof.
  induction count as [|c IH]; intros lo s H0 Hstep; simpl.
  - now rewrite Nat.add_0_r.
  - replace (lo + Datatypes.S c)%nat with (Datatypes.S lo + c)%nat by lia.
    apply IH.
    + apply Hstep; [lia | assumption].
    + intros i s' Hi; apply Hstep; lia.
Qed.

(** ** Comparisons over the reals *)

Local Open Scope R_scope.

Lemma Rltb_true (a b : R) : a < b -> Rltb a b = true.
Proof. unfold Rltb; destruct (Rlt_dec a b); tauto. Qed.

Lemma Rltb_false (a b : R) : ~ a < b -> Rltb a b = false.
Proof. unfold Rltb; destruct (Rlt_dec a b); tauto. Qed.

Lemma Reqb_false (a b : R) : a <> b -> Reqb a b = false.
Proof. unfold Reqb; destruct (Req_dec_T a b); tauto. Qed.

Lemma Rltb_spec (a b : R) : reflect (a < b) (Rltb a b).
Proof. unfold Rltb; destruct (Rlt_dec a b); constructor; assumption. Qed.

Lemma Rleb_spec (a b : R) : reflect (a <= b) (Rleb a b).
Proof. unfold Rleb; destruct (Rle_dec a b); constructor; assumption. Qed.

Lemma increasing_lt (x : list R) :
  increasing x -> forall i j, (i < j < length x)%nat -> get x i < get x j.
Proof.
  intros Hx i j [Hij Hj]. induction j as [|j IH]; [lia|].
  destruct (Nat.eq_dec i j) as [->|Hne].
  - apply Hx; assumption.
  - apply Rlt_trans with (get x j); [apply IH; lia | apply Hx; assumption].
Qed.

Lemma increasing_le (x : list R) :
  increasing x -> forall i j, (i <= j < length x)%nat -> get x i <= get x j.
Proof.
  intros Hx i j [Hij Hj]. destruct (Nat.eq_dec i j) as [->|Hne]; [lra|].
  left; apply increasing_lt; [assumption | lia].
Qed.

(** ** Vector accesses *)

Lemma at_ok {A} (v : list A) (i : nat) (d : A) (tr : log) :
  (i < length v)%nat -> at_ v i tr = (Ret (nth i v d), tr).
Proof.
  intros Hi. unfold at_.
  destruct (nth_error v i) as [x|] eqn:E.
  - rewrite (nth_error_nth _ _ d E). reflexivity.
  - apply nth_error_None in E. lia.
Qed.

Lemma at_out {A} (v : list A) (i : nat) (tr : log) :
  (length v <= i)%nat -> at_ v i tr = (OutOfRange, tr).
Proof.
  intros Hi. unfold at_.
  destruct (nth_error v i) as [x|] eqn:E; [|reflexivity].
  assert (nth_error v i <> None) as Hn by congruence.
  apply nth_error_Some in Hn. lia.
Qed.

(** ** Bracketing a query time *)

Lemma bsearch_loop_spec (xa : list R) (x : R) :
  forall fuel ilo ihi,
    (ihi - ilo <= fuel)%nat -> (ilo < ihi)%nat -> get xa ilo <= x ->
    let r := bsearch_loop fuel xa x ilo ihi in
    (ilo <= r < ihi)%nat /\ get xa r <= x /\ (x < get xa (r + 1) \/ (r + 1)%nat = ihi).
Proof.
  induction fuel as [|fuel IH]; intros ilo ihi Hfuel Hlt Hlo; [lia|].
  cbn [bsearch_loop]. destruct (Nat.ltb_spec (ilo + 1) ihi) as [Hgap|Hgap].
  - assert (ilo < (ihi + ilo) / 2 < ihi)%nat as Hmid.
    { split.
      - apply Nat.div_le_lower_bound with (b := 2%nat) (q := S ilo); lia.
      - apply Nat.Div0.div_lt_upper_bound; lia. }
    set (m := ((ihi + ilo) / 2)%nat) in *.
    unfold dgtb. cbn [dltb Double_R].
    destruct (Rltb_spec x (get xa m)) as [Hx|Hx].
    + destruct (IH ilo m) as (Hr & Hle & Hhi); [lia | lia | assumption |].
      repeat split; try lia; try assumption.
      left. destruct Hhi as [Hhi|Hhi]; [assumption | rewrite Hhi; assumption].
    + destruct (IH m ihi) as (Hr & Hle & Hhi); [lia | lia | lra |].
      repeat split; try lia; assumption.
  - repeat split; try lia; assumption.
Qed.

Lemma accel_find_spec (xa : list R) (len : nat) (x : R) :
  (2 <= len)%nat -> get xa 0 <= x ->
  let i := fst (gsl_interp_accel_find fresh_accel xa len x) in
  (i + 1 < len)%nat /\ get xa i <= x /\ (x < get xa (i + 1) \/ (i + 2)%nat = len).
Proof.
  intros Hlen Hlo. unfold gsl_interp_accel_find. cbn [cache fresh_accel].
  cbn [dltb Double_R]. rewrite Rltb_false by lra.
  unfold dgeb. cbn [dleb Double_R Nat.add].
  destruct (Rleb_spec (get xa 1) x) as [Hx|Hx]; cbn [fst].
  - unfold gsl_interp_bsearch.
    destruct (bsearch_loop_spec xa x (len - 1 - 0) 0 (len - 1)) as (Hr & Hle & Hhi);
      [lia | lia | assumption |].
    repeat split; try lia; try assumption.
    destruct Hhi as [Hhi|Hhi]; [left; assumption | right; lia].
  - repeat split; try lia; try assumption. left. simpl. lra.
Qed.

(** ** One call of [interpolate] *)

Lemma increasing_check_ok (x : list R) (tr : log) :
  increasing x ->
  forall count lo, (1 <= lo)%nat -> (lo + count <= length x)%nat ->
    for_rangeM lo count
      (fun i _ =>
         if negb (get x (i - 1) <? get x i)%D
         then gsl_error "x values must be strictly increasing"
         else ret tt) tt tr = (Ret tt, tr).
Proof.
  intros Hx. induction count as [|c IH]; intros lo Hlo Hn; [reflexivity|].
  cbn [for_rangeM]. cbn [dltb Double_R].
  rewrite Rltb_true.
  - cbn [negb]. rewrite bind_ret_l. apply IH; lia.
  - destruct lo as [|l]; [lia|]. replace (S l - 1)%nat with l by lia.
    apply Hx. lia.
Qed.

Lemma increasing_check_fails (x : list R) (tr : log) :
  forall count lo, (1 <= lo)%nat ->
    (exists i, (lo <= i < lo + count)%nat /\ ~ get x (i - 1) < get x i) ->
    for_rangeM lo count
      (fun i _ =>
         if negb (get x (i - 1) <? get x i)%D
         then gsl_error "x values must be strictly increasing"
         else ret tt) tt tr = (GslError "x values must be strictly increasing", tr).
Proof.
  induction count as [|c IH]; intros lo Hlo (i & Hi & Hbad); [lia|].
  cbn [for_rangeM]. cbn [dltb Double_R].
  destruct (Rltb_spec (get x (lo - 1)) (get x lo)) as [Hok|Hno]; cbn [negb].
  - rewrite bind_ret_l. apply IH; [lia|].
    exists i. split; [|assumption].
    destruct (Nat.eq_dec i lo) as [->|Hne]; [contradiction | lia].
  - reflexivity.
Qed.

Lemma gsl_interp_alloc_ok {T} `{Double T} (ty : interpolation) (n : nat) (tr : log) :
  (min_size ty <= n)%nat ->
  gsl_interp_alloc (T := T) ty n tr =
    (Ret {| interp_type := ty; xmin := dlit 0; xmax := dlit 0; interp_size := n;
            state_c := repeat (dlit 0) n |},
     tr ++ [EvInterpAlloc ty n]).
Proof.
  intros Hn. unfold gsl_interp_alloc.
  destruct (Nat.ltb_spec n (min_size ty)) as [|_]; [lia | reflexivity].
Qed.

Lemma gsl_interp_alloc_small {T} `{Double T} (ty : interpolation) (n : nat) (tr : log) :
  (n < min_size ty)%nat ->
  gsl_interp_alloc (T := T) ty n tr =
    (GslError "insufficient number of points for interpolation type", tr).
Proof.
  intros Hn. unfold gsl_interp_alloc.
  destruct (Nat.ltb_spec n (min_size ty)) as [_|]; [reflexivity | lia].
Qed.

Lemma gsl_interp_accel_alloc_ok (tr : log) :
  gsl_interp_accel_alloc tr = (Ret fresh_accel, tr ++ [EvAccelAlloc]).
Proof. reflexivity. Qed.

Lemma gsl_interp_init_ok (ty : interpolation) (x y c : list R) (tr : log) :
  increasing x ->
  (1 <= length x)%nat ->
  (forall tr', type_init ty x y (length x) tr' = (Ret c, tr')) ->
  gsl_interp_init
    {| interp_type := ty; xmin := dlit 0; xmax := dlit 0; interp_size := length x;
       state_c := repeat (dlit 0) (length x) |} x y (length x) tr =
    (Ret {| interp_type := ty; xmin := get x 0; xmax := get x (length x - 1);
            interp_size := length x; state_c := c |},
     tr ++ [EvInterpInit]).
Proof.
  intros Hinc Hn Hinit. unfold gsl_interp_init. cbn [interp_size interp_type state_c].
  rewrite Nat.eqb_refl. cbn [negb].
  rewrite (bind_eq _ (increasing_check_ok x _ Hinc (length x - 1) 1
                        ltac:(lia) ltac:(lia))).
  assert (forall tr', match ty with
                      | linear => ret (repeat (dlit 0) (length x))
                      | cubic_spline => cspline_init x y (length x)
                      end tr' = (Ret c, tr')) as Hty.
  { intros tr'. rewrite <- (Hinit tr'). destruct ty; reflexivity. }
  rewrite (bind_eq _ (Hty _)). reflexivity.
Qed.

Lemma gsl_interp_eval_ok (d : nat) (ty : interpolation) (x y c : list R) (n : nat)
    (lo hi time : R) (tr : log) :
  (d <= 2)%nat ->
  lo <= time <= hi ->
  let interp := {| interp_type := ty; xmin := lo; xmax := hi; interp_size := n;
                   state_c := c |} in
  match d with
  | 0%nat => gsl_interp_eval interp x y time fresh_accel tr
  | 1%nat => gsl_interp_eval_deriv interp x y time fresh_accel tr
  | _ => gsl_interp_eval_deriv2 interp x y time fresh_accel tr
  end = (Ret (interp_value ty d c x y n time), tr ++ [EvInterpEval d]).
Proof.
  intros Hd [Hlo Hhi] interp.
  assert (Rltb time lo || Rltb hi time = false) as Hdom
    by (rewrite (Rltb_false time), (Rltb_false _ time) by lra; reflexivity).
  destruct d as [|[|[|d]]]; [| | |lia];
    unfold gsl_interp_eval, gsl_interp_eval_deriv, gsl_interp_eval_deriv2, interp;
    cbn [xmin xmax interp_type interp_size state_c]; unfold dgtb;
    cbn [dltb Double_R]; rewrite Hdom; destruct ty; reflexivity.
Qed.

Lemma interpolate_run (points times : list R) (time : R) (interp : interpolation)
    (d : Z) (c : list R) (tr : log) :
  length points = length times ->
  (2 <= length points)%nat ->
  (min_size interp <= length points)%nat ->
  increasing times ->
  get times 0 <= time <= get times (length times - 1) ->
  (forall tr', type_init interp times points (length points) tr' = (Ret c, tr')) ->
  interpolate points times time interp d tr =
    let n := length points in
    match d with
    | 0%Z => (Ret (interp_value interp 0 c times points n time),
              tr ++ interpolate_calls interp n 0)
    | 1%Z => (Ret (interp_value interp 1 c times points n time),
              tr ++ interpolate_calls interp n 1)
    | 2%Z => (Ret (interp_value interp 2 c times points n time),
              tr ++ interpolate_calls interp n 2)
    | _ => (Throw "Invalid derivitive option, must be 0, 1 or 2.",
            tr ++ interpolate_setup interp n)
    end.
Proof.
  intros Hlen Hn Hmin Hinc Hdom Hinit.
  unfold interpolate.
  destruct (Nat.ltb_spec (length points) 2) as [|_]; [lia|].
  rewrite Hlen in *. rewrite Nat.eqb_refl. cbn [negb].
  unfold front, back.
  rewrite (bind_eq _ (at_ok times 0 (dlit 0) tr ltac:(lia))).
  rewrite (bind_eq _ (at_ok times (length times - 1) (dlit 0) tr ltac:(lia))).
  fold (get times 0). fold (get times (length times - 1)).
  unfold dgtb. cbn [dltb Double_R].
  rewrite (Rltb_false time), (Rltb_false _ time) by lra. cbn [orb].
  rewrite (bind_eq _ (gsl_interp_alloc_ok interp _ _ Hmin)).
  rewrite (bind_eq _ (gsl_interp_init_ok interp times points c _ Hinc ltac:(lia) Hinit)).
  rewrite (bind_eq _ (gsl_interp_accel_alloc_ok _)).
  cbv zeta. unfold interpolate_calls, interpolate_setup.
  rewrite <- !app_assoc. cbn [app].
  pose proof (fun d => gsl_interp_eval_ok d interp times points c (length times)
                         (get times 0) (get times (length times - 1)) time
                         (tr ++ [EvInterpAlloc interp (length times); EvInterpInit;
                                 EvAccelAlloc])) as Hev.
  cbv zeta in Hev.
  destruct d as [|[[|[]|]|[|[]|]|]|]; try reflexivity.
  - rewrite (bind_eq _ (Hev 0%nat ltac:(lia) Hdom)).
    unfold gsl_interp_free, gsl_interp_accel_free.
    rewrite !bind_call, <- !app_assoc. reflexivity.
  - rewrite (bind_eq _ (Hev 2%nat ltac:(lia) Hdom)).
    unfold gsl_interp_free, gsl_interp_accel_free.
    rewrite !bind_call, <- !app_assoc. reflexivity.
  - rewrite (bind_eq _ (Hev 1%nat ltac:(lia) Hdom)).
    unfold gsl_interp_free, gsl_interp_accel_free.
    rewrite !bind_call, <- !app_assoc. reflexivity.
Qed.

(** ** Linear interpolation between two samples *)

Lemma increasing_two (t0 t1 : R) : t0 < t1 -> increasing [t0; t1].
Proof.
  intros Ht [|i] Hi; simpl in Hi; [exact Ht | lia].
Qed.

Lemma accel_find_two (t0 t1 t : R) :
  t0 <= t -> fst (gsl_interp_accel_find fresh_accel [t0; t1] 2 t) = 0%nat.
Proof.
  intros Ht.
  destruct (accel_find_spec [t0; t1] 2 t) as (Hi & _); [lia | exact Ht | lia].
Qed.

Lemma interpolate_two_samples (t0 v0 t1 v1 t : R) (d : Z) (tr : log) :
  t0 < t1 -> t0 <= t <= t1 ->
  interpolate [v0; v1] [t0; t1] t linear d tr =
    match d with
    | 0%Z => (Ret (v0 + (t - t0) / (t1 - t0) * (v1 - v0)),
              tr ++ interpolate_calls linear 2 0)
    | 1%Z => (Ret ((v1 - v0) / (t1 - t0)), tr ++ interpolate_calls linear 2 1)
    | 2%Z => (Ret 0, tr ++ interpolate_calls linear 2 2)
    | _ => (Throw "Invalid derivitive option, must be 0, 1 or 2.",
            tr ++ interpolate_setup linear 2)
    end.
Proof.
  intros Hlt Ht.
  rewrite (interpolate_run [v0; v1] [t0; t1] t linear d (repeat 0 2) tr);
    [| reflexivity | simpl; lia | simpl; lia | apply increasing_two; assumption
     | unfold get; simpl; lra | reflexivity].
  cbv zeta. cbn [length interp_value].
  unfold linear_eval, linear_eval_deriv, linear_eval_deriv2.
  rewrite accel_find_two by lra.
  unfold get, dgtb. cbn [nth Nat.add dsub dadd dmul ddiv dltb dlit Double_R].
  rewrite Rltb_true by lra.
  reflexivity.
Qed.

(** The channels of a three- or four-channel input are read in turn. *)
Lemma getPosition_three {T} `{Double T} (c0 c1 c2 times : list T) (time : T)
    (interp : interpolation) :
  getPosition [c0; c1; c2] times time interp =
    (x <- interpolate c0 times time interp 0 ;;
     y <- interpolate c1 times time interp 0 ;;
     z <- interpolate c2 times time interp 0 ;;
     ret [x; y; z]).
Proof. reflexivity. Qed.

Lemma getVelocity_three {T} `{Double T} (c0 c1 c2 times : list T) (time : T)
    (interp : interpolation) :
  getVelocity [c0; c1; c2] times time interp =
    (x <- interpolate c0 times time interp 1 ;;
     y <- interpolate c1 times time interp 1 ;;
     z <- interpolate c2 times time interp 1 ;;
     ret [x; y; z]).
Proof. reflexivity. Qed.

(** C1: for two samples [(t0, v0)], [(t1, v1)] with distinct timestamps and a
    query time [t0 <= t <= t1], [interpolate] with the linear method and
    derivative order 0 returns [v0 + (v1 - v0) * (t - t0) / (t1 - t0)].  In
    particular [getPosition] on the channels x = [0, 1], y = [0, 0],
    z = [0, 0] with timestamps [0, 10] returns [0.5, 0, 0] at time 5, and
    [getVelocity] returns [0.1, 0, 0] at every time strictly between 0 and
    10. *)
Theorem linear_interpolation_is_affine :
  (forall t0 v0 t1 v1 t : R,
      t0 < t1 -> t0 <= t <= t1 ->
      result (interpolate [v0; v1] [t0; t1] t linear 0) =
        Ret (v0 + (v1 - v0) * (t - t0) / (t1 - t0))) /\
  result (getPosition [[0; 1]; [0; 0]; [0; 0]] [0; 10] 5 linear) = Ret [5 / 10; 0; 0] /\
  (forall t : R,
      0 < t < 10 ->
      result (getVelocity [[0; 1]; [0; 0]; [0; 0]] [0; 10] t linear) = Ret [1 / 10; 0; 0]).
Proof.
  split; [|split].
  - intros t0 v0 t1 v1 t Hlt Ht. unfold result.
    rewrite interpolate_two_samples by assumption. cbn [fst].
    f_equal. field. lra.
  - unfold result. rewrite getPosition_three.
    rewrite (bind_eq _ (interpolate_two_samples 0 0 10 1 5 0 _ ltac:(lra) ltac:(lra))).
    rewrite (bind_eq _ (interpolate_two_samples 0 0 10 0 5 0 _ ltac:(lra) ltac:(lra))).
    rewrite (bind_eq _ (interpolate_two_samples 0 0 10 0 5 0 _ ltac:(lra) ltac:(lra))).
    cbn [ret fst]. f_equal. f_equal; [field | f_equal; [field | f_equal; field]].
  - intros t Ht. unfold result. rewrite getVelocity_three.
    rewrite (bind_eq _ (interpolate_two_samples 0 0 10 1 t 1 _ ltac:(lra) ltac:(lra))).
    rewrite (bind_eq _ (interpolate_two_samples 0 0 10 0 t 1 _ ltac:(lra) ltac:(lra))).
    rewrite (bind_eq _ (interpolate_two_samples 0 0 10 0 t 1 _ ltac:(lra) ltac:(lra))).
    cbn [ret fst]. f_equal. f_equal; [field | f_equal; [field | f_equal; field]].
Qed.

Lemma linear_interpolation_is_affine_witness :
  result (interpolate [1; 4] [0; 2] 1 linear 0) = Ret (1 + (4 - 1) * (1 - 0) / (2 - 0)).
Proof.
  apply (proj1 linear_interpolation_is_affine 0 1 2 4 1); lra.
Defined.

(** ** Shape checks *)

(** C8: every tabulated operation throws its shape-mismatch error when the
    number of channels differs from the count it requires (3 for
    [getPosition] and [getVelocity], 4 for [getRotation] and
    [getAngularVelocity]), and so does each polynomial operation when the
    number of coefficient sequences differs from 3.  The log of library calls
    is returned unchanged: the error is raised before any numerical work.  In
    particular [getPosition] on two channels fails in this way. *)
Theorem shape_mismatch_rejected_before_any_work :
  forall (T : Type) (D : Double T) (chans : list (list T)) (times : list T) (time : T)
         (interp : interpolation) (tr : log),
    (length chans <> 3%nat ->
       getPosition chans times time interp tr =
         (Throw "Invalid input positions, expected three vectors.", tr) /\
       getVelocity chans times time interp tr =
         (Throw "Invalid input positions, expected three vectors.", tr) /\
       getPosition_coeffs chans time tr =
         (Throw "Invalid input coeffs, expected three vectors.", tr) /\
       getVelocity_coeffs chans time tr =
         (Throw "Invalid input coeffs, expected three vectors.", tr)) /\
    (length chans <> 4%nat ->
       getRotation chans times time interp tr =
         (Throw "Invalid input rotations, expected four vectors.", tr) /\
       getAngularVelocity chans times time interp tr =
         (Throw "Invalid input rotations, expected four vectors.", tr)) /\
    (forall c0 c1 : list T,
       getPosition [c0; c1] times time interp tr =
         (Throw "Invalid input positions, expected three vectors.", tr)).
Proof.
  intros T D chans times time interp tr. repeat split.
  - unfold getPosition. destruct (Nat.eqb_spec (length chans) 3); [contradiction | reflexivity].
  - unfold getVelocity. destruct (Nat.eqb_spec (length chans) 3); [contradiction | reflexivity].
  - unfold getPosition_coeffs.
    destruct (Nat.eqb_spec (length chans) 3); [contradiction | reflexivity].
  - unfold getVelocity_coeffs.
    destruct (Nat.eqb_spec (length chans) 3); [contradiction | reflexivity].
  - unfold getRotation. destruct (Nat.eqb_spec (length chans) 4); [contradiction | reflexivity].
  - unfold getAngularVelocity.
    destruct (Nat.eqb_spec (length chans) 4); [contradiction | reflexivity].
Qed.

Lemma shape_mismatch_rejected_witness :
  length [[0; 1]; [0; 0]] <> 3%nat /\
  getPosition [[0; 1]; [0; 0]] [0; 10] 5 linear [] =
    (Throw "Invalid input positions, expected three vectors.", []).
Proof.
  assert (length [[0; 1]; [0; 0]] <> 3%nat) as Hlen by (simpl; lia).
  split; [exact Hlen|].
  exact (proj1 (proj1 (shape_mismatch_rejected_before_any_work
                         R Double_R [[0; 1]; [0; 0]] [0; 10] 5 linear []) Hlen)).
Defined.

(** ** The per-sample normalisation loop *)

Section NormalizeSamples.
Context {T : Type} `{Double T}.

Lemma set_at_ok {A} (v : list A) (i : nat) (x : A) (tr : log) :
  (i < length v)%nat -> set_at v i x tr = (Ret (upd v i x), tr).
Proof.
  intros Hi. unfold set_at. apply Nat.ltb_lt in Hi. rewrite Hi. reflexivity.
Qed.

Lemma at2_ok (rs : list (list T)) (c i : nat) (tr : log) :
  (c < length rs)%nat -> (i < length (nth c rs []))%nat ->
  at2 rs c i tr = (Ret (get (nth c rs []) i), tr).
Proof.
  intros Hc Hi. unfold at2.
  rewrite (bind_eq _ (at_ok rs c [] tr Hc)).
  apply at_ok. exact Hi.
Qed.

Lemma set_at2_ok (rs : list (list T)) (c i : nat) (v : T) (tr : log) :
  (c < length rs)%nat -> (i < length (nth c rs []))%nat ->
  set_at2 rs c i v tr = (Ret (upd rs c (upd (nth c rs []) i v)), tr).
Proof.
  intros Hc Hi. unfold set_at2.
  rewrite (bind_eq _ (at_ok rs c [] tr Hc)).
  rewrite (bind_eq _ (set_at_ok _ i v tr Hi)).
  apply set_at_ok. exact Hc.
Qed.

Lemma normalize_ok (v : list T) (tr : log) :
  normalize v tr = (Ret (normalized v), tr ++ [EvNormalize]).
Proof. reflexivity. Qed.

Lemma normalize_sample_ok (i : nat) (a0 a1 a2 a3 : list T) (tr : log) :
  (i < length a0)%nat -> (i < length a1)%nat -> (i < length a2)%nat ->
  (i < length a3)%nat ->
  normalize_sample i [a0; a1; a2; a3] tr =
    (let q := normalized (Quaterniond (get a0 i) (get a1 i) (get a2 i) (get a3 i)) in
     Ret [upd a0 i (quat_w q); upd a1 i (quat_x q);
          upd a2 i (quat_y q); upd a3 i (quat_z q)],
     tr ++ [EvNormalize]).
Proof.
  intros H0 H1 H2 H3. unfold normalize_sample.
  rewrite (bind_eq _ (at2_ok [a0; a1; a2; a3] 0 i tr ltac:(simpl; lia) H0)).
  rewrite (bind_eq _ (at2_ok [a0; a1; a2; a3] 1 i tr ltac:(simpl; lia) H1)).
  rewrite (bind_eq _ (at2_ok [a0; a1; a2; a3] 2 i tr ltac:(simpl; lia) H2)).
  rewrite (bind_eq _ (at2_ok [a0; a1; a2; a3] 3 i tr ltac:(simpl; lia) H3)).
  cbn [nth]. rewrite (bind_eq _ (normalize_ok _ _)).
  rewrite (bind_eq _ (set_at2_ok [a0; a1; a2; a3] 0 i _ _ ltac:(simpl; lia) H0)).
  cbn [nth upd].
  rewrite (bind_eq _ (set_at2_ok [_; a1; a2; a3] 1 i _ _ ltac:(simpl; lia) H1)).
  cbn [nth upd].
  rewrite (bind_eq _ (set_at2_ok [_; _; a2; a3] 2 i _ _ ltac:(simpl; lia) H2)).
  cbn [nth upd].
  rewrite (set_at2_ok [_; _; _; a3] 3 i _ _ ltac:(simpl; lia) H3).
  reflexivity.
Qed.

(** The loop without its bounds checks. *)
Lemma normalize_samples_from (count : nat) :
  forall (lo : nat) (a0 a1 a2 a3 : list T) (tr : log),
    (lo + count <= length a0)%nat -> (lo + count <= length a1)%nat ->
    (lo + count <= length a2)%nat -> (lo + count <= length a3)%nat ->
    exists b0 b1 b2 b3,
      for_rangeM lo count normalize_sample [a0; a1; a2; a3] tr =
        (Ret [b0; b1; b2; b3], tr ++ repeat EvNormalize count) /\
      length b0 = length a0 /\ length b1 = length a1 /\
      length b2 = length a2 /\ length b3 = length a3 /\
      (forall i, (i < lo \/ lo + count <= i)%nat ->
         get b0 i = get a0 i /\ get b1 i = get a1 i /\
         get b2 i = get a2 i /\ get b3 i = get a3 i) /\
      (forall i, (lo <= i < lo + count)%nat ->
         let q := normalized (Quaterniond (get a0 i) (get a1 i) (get a2 i) (get a3 i)) in
         get b0 i = quat_w q /\ get b1 i = quat_x q /\
         get b2 i = quat_y q /\ get b3 i = quat_z q).
Proof.
  induction count as [|c IH]; intros lo a0 a1 a2 a3 tr H0 H1 H2 H3.
  - exists a0, a1, a2, a3. cbn [for_rangeM repeat]. rewrite app_nil_r.
    do 5 (split; [reflexivity|]).
    split; [intros; tauto | intros; lia].
  - cbn [for_rangeM].
    rewrite (bind_eq _ (normalize_sample_ok lo a0 a1 a2 a3 tr
                          ltac:(lia) ltac:(lia) ltac:(lia) ltac:(lia))).
    cbv zeta.
    set (q := normalized (Quaterniond (get a0 lo) (get a1 lo) (get a2 lo) (get a3 lo))).
    destruct (IH (S lo) (upd a0 lo (quat_w q)) (upd a1 lo (quat_x q))
                 (upd a2 lo (quat_y q)) (upd a3 lo (quat_z q)) (tr ++ [EvNormalize]))
      as (b0 & b1 & b2 & b3 & Hrun & L0 & L1 & L2 & L3 & Hout & Hin);
      rewrite ?length_upd; try lia.
    rewrite !length_upd in *.
    exists b0, b1, b2, b3. rewrite Hrun, <- app_assoc.
    do 5 (split; [first [reflexivity | assumption]|]).
    split.
    + intros i Hi. destruct (Hout i ltac:(lia)) as (E0 & E1 & E2 & E3).
      unfold get in *. rewrite nth_upd_other in E0, E1, E2, E3 by lia. tauto.
    + intros i Hi. cbv zeta.
      destruct (Nat.eq_dec i lo) as [->|Hne].
      * destruct (Hout lo ltac:(lia)) as (E0 & E1 & E2 & E3).
        unfold get in E0, E1, E2, E3.
        rewrite nth_upd_same in E0, E1, E2, E3 by lia. tauto.
      * destruct (Hin i ltac:(lia)) as (E0 & E1 & E2 & E3).
        unfold get in E0, E1, E2, E3.
        rewrite !nth_upd_other in E0, E1, E2, E3 by lia. tauto.
Qed.

Lemma at2_out (rs : list (list T)) (c i : nat) (tr : log) :
  (c < length rs)%nat -> (length (nth c rs []) <= i)%nat ->
  at2 rs c i tr = (OutOfRange, tr).
Proof.
  intros Hc Hi. unfold at2.
  rewrite (bind_eq _ (at_ok rs c [] tr Hc)).
  apply at_out. exact Hi.
Qed.

Lemma normalize_sample_out (i : nat) (a0 a1 a2 a3 : list T) (tr : log) :
  (i < length a0)%nat ->
  (length a1 <= i \/ length a2 <= i \/ length a3 <= i)%nat ->
  normalize_sample i [a0; a1; a2; a3] tr = (OutOfRange, tr).
Proof.
  intros H0 Hshort. unfold normalize_sample.
  rewrite (bind_eq _ (at2_ok [a0; a1; a2; a3] 0 i tr ltac:(simpl; lia) H0)).
  destruct (Nat.lt_ge_cases i (length a1)) as [H1|H1].
  2:{ unfold bind. rewrite (at2_out [a0; a1; a2; a3] 1 i tr ltac:(simpl; lia) H1).
      reflexivity. }
  rewrite (bind_eq _ (at2_ok [a0; a1; a2; a3] 1 i tr ltac:(simpl; lia) H1)).
  destruct (Nat.lt_ge_cases i (length a2)) as [H2|H2].
  2:{ unfold bind. rewrite (at2_out [a0; a1; a2; a3] 2 i tr ltac:(simpl; lia) H2).
      reflexivity. }
  rewrite (bind_eq _ (at2_ok [a0; a1; a2; a3] 2 i tr ltac:(simpl; lia) H2)).
  unfold bind. rewrite (at2_out [a0; a1; a2; a3] 3 i tr ltac:(simpl; lia) ltac:(simpl; lia)).
  reflexivity.
Qed.

Lemma for_rangeM_app {St : Type} (body : nat -> St -> M St) (c2 : nat) :
  forall (c1 lo : nat) (s : St) (tr : log),
    for_rangeM lo (c1 + c2) body s tr =
      (s' <- for_rangeM lo c1 body s ;; for_rangeM (lo + c1) c2 body s') tr.
Proof.
  induction c1 as [|c1 IH]; intros lo s tr.
  - cbn [Nat.add for_rangeM]. rewrite bind_ret_l, Nat.add_0_r. reflexivity.
  - cbn [Nat.add for_rangeM]. rewrite bind_assoc. apply bind_ext.
    intros s' tr'. rewrite IH.
    replace (S lo + c1)%nat with (lo + S c1)%nat by lia. reflexivity.
Qed.

Lemma normalize_samples_ok (r0 r1 r2 r3 : list T) (tr : log) :
  (length r0 <= length r1)%nat -> (length r0 <= length r2)%nat ->
  (length r0 <= length r3)%nat ->
  exists b0 b1 b2 b3,
    normalize_samples [r0; r1; r2; r3] tr =
      (Ret [b0; b1; b2; b3], tr ++ repeat EvNormalize (length r0)) /\
    length b0 = length r0 /\ length b1 = length r1 /\
    length b2 = length r2 /\ length b3 = length r3 /\
    (forall i, (length r0 <= i)%nat ->
       get b0 i = get r0 i /\ get b1 i = get r1 i /\
       get b2 i = get r2 i /\ get b3 i = get r3 i) /\
    (forall i, (i < length r0)%nat ->
       let q := normalized (Quaterniond (get r0 i) (get r1 i) (get r2 i) (get r3 i)) in
       get b0 i = quat_w q /\ get b1 i = quat_x q /\
       get b2 i = quat_y q /\ get b3 i = quat_z q).
Proof.
  intros H1 H2 H3. unfold normalize_samples. cbn [at_ nth_error]. rewrite bind_ret_l.
  destruct (normalize_samples_from (length r0) 0 r0 r1 r2 r3 tr)
    as (b0 & b1 & b2 & b3 & Hrun & L0 & L1 & L2 & L3 & Hout & Hin); try (simpl; lia).
  exists b0, b1, b2, b3.
  do 5 (split; [assumption|]).
  split.
  - intros i Hi. apply Hout. simpl. lia.
  - intros i Hi. apply Hin. simpl. lia.
Qed.

Lemma normalize_samples_out (r0 r1 r2 r3 : list T) (tr : log) :
  ~ ((length r0 <= length r1)%nat /\ (length r0 <= length r2)%nat /\
     (length r0 <= length r3)%nat) ->
  exists tr', normalize_samples [r0; r1; r2; r3] tr = (OutOfRange, tr').
Proof.
  intros Hshort. unfold normalize_samples. cbn [at_ nth_error]. rewrite bind_ret_l.
  set (m := Nat.min (length r1) (Nat.min (length r2) (length r3))).
  assert (m < length r0)%nat as Hm by (unfold m; lia).
  assert (length r0 = m + (1 + (length r0 - m - 1)))%nat as E by lia.
  rewrite E.
  rewrite for_rangeM_app.
  destruct (normalize_samples_from m 0 r0 r1 r2 r3 tr)
    as (b0 & b1 & b2 & b3 & Hrun & L0 & L1 & L2 & L3 & _); try (unfold m; simpl; lia).
  rewrite (bind_eq _ Hrun). cbn [Nat.add for_rangeM].
  unfold bind.
  rewrite normalize_sample_out by (unfold m in *; lia).
  eexists. reflexivity.
Qed.

End NormalizeSamples.

(** C10: in [getRotation] and [getAngularVelocity] the loop over the indices
    of channel 0 reads and writes all four channels at each index.  When
    channels 1, 2 and 3 are at least as long as channel 0, every access is
    inside its vector and the loop runs to its end.  Nothing checks this
    condition before the loop: when it fails, the call reaches an access
    outside a vector instead of throwing. *)
Theorem normalization_loop_accesses :
  forall (T : Type) (D : Double T) (r0 r1 r2 r3 times : list T) (time : T)
         (interp : interpolation) (tr : log),
    ((length r0 <= length r1)%nat /\ (length r0 <= length r2)%nat /\
     (length r0 <= length r3)%nat ->
     exists rotations,
       normalize_samples [r0; r1; r2; r3] tr =
         (Ret rotations, tr ++ repeat EvNormalize (length r0))) /\
    (~ ((length r0 <= length r1)%nat /\ (length r0 <= length r2)%nat /\
        (length r0 <= length r3)%nat) ->
     fst (normalize_samples [r0; r1; r2; r3] tr) = OutOfRange /\
     fst (getRotation [r0; r1; r2; r3] times time interp tr) = OutOfRange /\
     fst (getAngularVelocity [r0; r1; r2; r3] times time interp tr) = OutOfRange).
Proof.
  intros T D r0 r1 r2 r3 times time interp tr. split.
  - intros (H1 & H2 & H3).
    destruct (normalize_samples_ok r0 r1 r2 r3 tr H1 H2 H3)
      as (b0 & b1 & b2 & b3 & Hrun & _).
    exists [b0; b1; b2; b3]. exact Hrun.
  - intros Hshort.
    destruct (normalize_samples_out r0 r1 r2 r3 tr Hshort) as (tr' & Hout).
    unfold getRotation, getAngularVelocity. cbn [length Nat.eqb negb].
    unfold bind. rewrite Hout. auto.
Qed.

Lemma normalization_loop_accesses_witness :
  exists rotations,
    normalize_samples [[2; 0]; [0; 1]; [0; 0]; [0; 0; 5]] [] =
      (Ret rotations, [] ++ repeat EvNormalize 2).
Proof.
  apply (proj1 (normalization_loop_accesses R Double_R
                  [2; 0] [0; 1] [0; 0] [0; 0; 5] [] 0 linear [])).
  simpl. lia.
Defined.

(** C3 (the code departs from the claim): with derivative order 3 the
    three checks of lines 209-217 pass, the interpolator and the
    accelerator are allocated and initialised, and only then does the
    [default] branch throw; the two objects are never freed. *)
Theorem derivative_order_checked_after_construction :
  interpolate [0; 1] [0; 1] 0 linear 3 [] =
    (Throw "Invalid derivitive option, must be 0, 1 or 2.",
     [EvInterpAlloc linear 2; EvInterpInit; EvAccelAlloc]) /\
  live [EvInterpAlloc linear 2; EvInterpInit; EvAccelAlloc] = 2%Z /\
  live (calls (interpolate [0; 1] [0; 1] 0 linear 0)) = 0%Z.
Proof.
  split; [|split].
  - rewrite interpolate_two_samples by lra. reflexivity.
  - reflexivity.
  - unfold calls. rewrite interpolate_two_samples by lra. reflexivity.
Qed.

(** ** Polynomials and their derivatives *)

Lemma derivable_pt_lim_ext (f g : R -> R) (x l : R) :
  (forall u, f u = g u) -> derivable_pt_lim f x l -> derivable_pt_lim g x l.
Proof.
  intros Hfg Hf eps Heps. destruct (Hf eps Heps) as [delta Hd].
  exists delta. intros h Hh Hlt. rewrite <- !Hfg. apply Hd; assumption.
Qed.

Lemma poly_sum_deriv (cs : list R) (x : R) :
  forall k, derivable_pt_lim (fun t => poly_sum cs t (S k)) x
                             (poly_sum (pderiv_from (S k) cs) x k).
Proof.
  induction cs as [|c q IH]; intros k; cbn [poly_sum pderiv_from].
  - apply (derivable_pt_lim_const 0).
  - apply derivable_pt_lim_ext with
      (f := ((mult_real_fct c (fun t => t ^ S k)) + (fun t => poly_sum q t (S (S k))))%F).
    + intros u. reflexivity.
    + replace (INR (S k) * c * x ^ k) with (c * (INR (S k) * x ^ pred (S k)))
        by (cbn [pred]; ring).
      apply derivable_pt_lim_plus.
      * apply derivable_pt_lim_scal. apply derivable_pt_lim_pow.
      * apply IH.
Qed.

Lemma polynomial_deriv (cs : list R) (x : R) :
  derivable_pt_lim (polynomial cs) x (polynomial (pderiv cs) x).
Proof.
  unfold polynomial, pderiv. destruct cs as [|c q]; cbn [poly_sum tl].
  - apply (derivable_pt_lim_const 0).
  - apply derivable_pt_lim_ext with
      (f := ((fct_cte (c * 1)) + (fun t => poly_sum q t 1))%F).
    + intros u. reflexivity.
    + replace (poly_sum (pderiv_from 1 q) x 0) with (0 + poly_sum (pderiv_from 1 q) x 0)
        by ring.
      apply derivable_pt_lim_plus.
      * apply derivable_pt_lim_const.
      * apply poly_sum_deriv.
Qed.

Lemma poly_sum_shift (cs : list R) (t : R) :
  forall k, poly_sum cs t (S k) = t * poly_sum cs t k.
Proof.
  induction cs as [|c q IH]; intros k; cbn [poly_sum].
  - ring.
  - rewrite (IH (S k)). simpl. ring.
Qed.

Lemma polynomial_taylor0 (cs : list R) (t : R) : polynomial cs t = taylor cs t 0.
Proof.
  unfold polynomial. induction cs as [|c q IH]; cbn [poly_sum taylor].
  - reflexivity.
  - rewrite poly_sum_shift, IH. simpl. ring.
Qed.

Lemma taylor_high (x : R) (cs : list R) :
  forall l, (length cs <= l)%nat -> taylor cs x l = 0.
Proof.
  induction cs as [|c q IH]; intros l Hl; cbn [taylor]; [reflexivity|].
  cbn [length] in Hl. destruct l as [|l']; [lia|].
  rewrite (IH (S l')), (IH l') by lia. ring.
Qed.

Lemma taylor_deriv (cs : list R) (x : R) :
  forall l, derivable_pt_lim (fun u => taylor cs u l) x (INR (S l) * taylor cs x (S l)).
Proof.
  induction cs as [|c q IH]; intros l.
  - cbn [taylor]. rewrite Rmult_0_r. apply (derivable_pt_lim_const 0).
  - destruct l as [|l'].
    + apply derivable_pt_lim_ext with
        (f := (fct_cte c + (id * (fun u => taylor q u 0)))%F).
      * intros u. reflexivity.
      * replace (INR 1 * taylor (c :: q) x 1)
          with (0 + (1 * taylor q x 0 + id x * (INR 1 * taylor q x 1))).
        -- apply derivable_pt_lim_plus; [apply derivable_pt_lim_const|].
           apply derivable_pt_lim_mult; [apply derivable_pt_lim_id | apply IH].
        -- cbn [taylor INR]. unfold id. ring.
    + apply derivable_pt_lim_ext with
        (f := ((id * (fun u => taylor q u (S l'))) + (fun u => taylor q u l'))%F).
      * intros u. reflexivity.
      * replace (INR (S (S l')) * taylor (c :: q) x (S (S l')))
          with ((1 * taylor q x (S l') + id x * (INR (S (S l')) * taylor q x (S (S l'))))
                + INR (S l') * taylor q x (S l')).
        -- apply derivable_pt_lim_plus; [|apply IH].
           apply derivable_pt_lim_mult; [apply derivable_pt_lim_id | apply IH].
        -- cbn [taylor]. unfold id. rewrite (S_INR (S l')). ring.
Qed.

Lemma iter_pderiv_taylor (cs : list R) :
  forall d x, polynomial (Nat.iter d pderiv cs) x = INR (fact d) * taylor cs x d.
Proof.
  induction d as [|d IH]; intros x.
  - change (Nat.iter 0 pderiv cs) with cs. change (INR (fact 0)) with 1.
    rewrite polynomial_taylor0. ring.
  - change (Nat.iter (S d) pderiv cs) with (pderiv (Nat.iter d pderiv cs)).
    apply uniqueness_limite with (f := polynomial (Nat.iter d pderiv cs)) (x := x).
    + apply polynomial_deriv.
    + apply derivable_pt_lim_ext with
        (f := mult_real_fct (INR (fact d)) (fun u => taylor cs u d)).
      * intros u. symmetry. apply IH.
      * replace (INR (fact (S d)) * taylor cs x (S d))
          with (INR (fact d) * (INR (S d) * taylor cs x (S d))).
        -- apply derivable_pt_lim_scal. apply taylor_deriv.
        -- change (fact (S d)) with (S d * fact d)%nat. rewrite mult_INR. ring.
Qed.

Lemma derivative_of_order_iter (cs : list R) :
  forall d, derivative_of_order d (polynomial cs) (polynomial (Nat.iter d pderiv cs)).
Proof.
  induction d as [|d IH]; cbn [derivative_of_order].
  - reflexivity.
  - exists (polynomial (Nat.iter d pderiv cs)). split; [exact IH|].
    intros x. change (Nat.iter (S d) pderiv cs) with (pderiv (Nat.iter d pderiv cs)).
    apply polynomial_deriv.
Qed.

(** ** The synthetic division of [gsl_poly_eval_derivs] *)

Lemma skipn_get_cons (cs : list R) (j : nat) :
  (j < length cs)%nat -> skipn j cs = get cs j :: skipn (S j) cs.
Proof.
  revert j. induction cs as [|c q IH]; intros j Hj; cbn [length] in Hj; [lia|].
  destruct j as [|j]; [reflexivity|].
  cbn [skipn]. unfold get. cbn [nth]. apply IH. lia.
Qed.

Lemma taylor_leading (cs : list R) (x : R) :
  forall l, (l < length cs)%nat ->
    taylor (skipn (length cs - 1 - l) cs) x l = get cs (length cs - 1).
Proof.
  induction l as [|l IH]; intros Hl.
  - rewrite (skipn_get_cons cs (length cs - 1 - 0)) by lia. cbn [taylor].
    rewrite (taylor_high x) by (rewrite length_skipn; lia).
    rewrite Nat.sub_0_r. ring.
  - rewrite (skipn_get_cons cs (length cs - 1 - S l)) by lia. cbn [taylor].
    replace (S (length cs - 1 - S l)) with (length cs - 1 - l)%nat by lia.
    rewrite (taylor_high x _ (S l)) by (rewrite length_skipn; lia).
    rewrite IH by lia. ring.
Qed.

Section PolyEvalDerivs.
Variables (c : list R) (x : R) (lenres : nat).
Hypothesis c_nonempty : (1 <= length c)%nat.

Let lenc := length c.
Let m := (lenc - 1)%nat.
Let nmax := (Nat.min lenres lenc - 1)%nat.

(** The first loop: the leading coefficient in the entries that will hold a
    derivative, zero in the others. *)
Lemma poly_fill_loop :
  for_range 0 lenres
    (fun i '(n, nmax, res) =>
       if (n <? lenc)%nat
       then (S n, n, upd res i (get c (lenc - 1)))
       else (n, nmax, upd res i (dlit 0)))
    (0%nat, 0%nat, repeat (dlit 0) lenres) =
  (Nat.min lenres lenc, nmax,
   map (fun l => if (l <? lenc)%nat then get c m else 0) (seq 0 lenres)).
Proof.
  pose (P := fun (i : nat) (s : nat * nat * list R) =>
               let '(n, nm, res) := s in
               n = Nat.min i lenc /\ nm = (Nat.min i lenc - 1)%nat /\
               length res = lenres /\
               (forall l, (l < i)%nat ->
                  get res l = if (l <? lenc)%nat then get c m else 0) /\
               (forall l, (i <= l)%nat -> get res l = 0)).
  assert (P (0 + lenres)%nat
            (for_range 0 lenres
               (fun i '(n, nmax, res) =>
                  if (n <? lenc)%nat
                  then (S n, n, upd res i (get c (lenc - 1)))
                  else (n, nmax, upd res i (dlit 0)))
               (0%nat, 0%nat, repeat (dlit 0) lenres))) as HP.
  { apply for_range_inv.
    - cbn. rewrite repeat_length. repeat split; try lia.
      intros l _. unfold get. cbn [dlit Double_R].
      destruct (Nat.lt_ge_cases l lenres).
      + rewrite nth_repeat_lt by assumption. reflexivity.
      + rewrite nth_overflow by (rewrite repeat_length; assumption). reflexivity.
    - intros i [[n nm] res] Hi (Hn & Hnm & Hlen & Hlo & Hhi). cbn [P].
      subst n nm. cbn [Nat.add] in Hi.
      destruct (Nat.ltb_spec (Nat.min i lenc) lenc) as [Hlt|Hge].
      + unfold P; cbv beta iota. rewrite length_upd. repeat split; try lia.
        * intros l Hl. unfold get in *.
          destruct (Nat.eq_dec l i) as [->|Hne].
          -- rewrite nth_upd_same by lia.
             destruct (Nat.ltb_spec i lenc); [reflexivity | lia].
          -- rewrite nth_upd_other by lia. apply Hlo. lia.
        * intros l Hl. unfold get in *. rewrite nth_upd_other by lia. apply Hhi. lia.
      + unfold P; cbv beta iota. rewrite length_upd. repeat split; try lia.
        * intros l Hl. unfold get in *.
          destruct (Nat.eq_dec l i) as [->|Hne].
          -- rewrite nth_upd_same by lia.
             destruct (Nat.ltb_spec i lenc); [lia | reflexivity].
          -- rewrite nth_upd_other by lia. apply Hlo. lia.
        * intros l Hl. unfold get in *. rewrite nth_upd_other by lia. apply Hhi. lia. }
  destruct (for_range 0 lenres _ _) as [[n nm] res].
  cbn [P Nat.add] in HP. destruct HP as (Hn & Hnm & Hlen & Hlo & _).
  subst n nm. f_equal.
  apply nth_ext with (d := 0) (d' := 0).
  - rewrite length_map, length_seq. exact Hlen.
  - intros l Hl. rewrite Hlen in Hl. change (nth l res 0) with (get res l).
    rewrite (Hlo l Hl).
    rewrite nth_map_seq by exact Hl. reflexivity.
Qed.

Hypothesis lenres_pos : (1 <= lenres)%nat.

(** The entry [l] after [i] rounds of the division holds a Taylor coefficient
    of the polynomial made of the [min (i + l) m + 1] leading coefficients. *)
Let T (i l : nat) : R := taylor (skipn (m - Nat.min (i + l) m) c) x l.

Lemma T_init (l : nat) : (l < lenc)%nat -> T 0 l = get c m.
Proof.
  intros Hl. unfold T. cbn [Nat.add].
  replace (m - Nat.min l m)%nat with (length c - 1 - l)%nat by (unfold m, lenc in *; lia).
  apply taylor_leading. exact Hl.
Qed.

Lemma T_step0 (i : nat) : (i < m)%nat -> T (S i) 0 = x * T i 0 + get c (m - i - 1).
Proof.
  intros Hi. unfold T.
  replace (m - Nat.min (S i + 0) m)%nat with (m - i - 1)%nat by lia.
  replace (m - Nat.min (i + 0) m)%nat with (S (m - i - 1))%nat by lia.
  rewrite (skipn_get_cons c (m - i - 1)) by (unfold m, lenc in *; lia).
  cbn [taylor]. ring.
Qed.

Lemma T_stepS (i l : nat) :
  (i + S l < m)%nat -> T (S i) (S l) = x * T i (S l) + T (S i) l.
Proof.
  intros Hi. unfold T.
  replace (m - Nat.min (S i + S l) m)%nat with (m - i - S l - 1)%nat by lia.
  replace (m - Nat.min (i + S l) m)%nat with (S (m - i - S l - 1))%nat by lia.
  replace (m - Nat.min (S i + l) m)%nat with (S (m - i - S l - 1))%nat by lia.
  rewrite (skipn_get_cons c (m - i - S l - 1)) by (unfold m, lenc in *; lia).
  cbn [taylor]. ring.
Qed.

Lemma T_saturated (i l : nat) : (m <= i + l)%nat -> T (S i) l = T i l.
Proof.
  intros Hi. unfold T.
  replace (Nat.min (S i + l) m) with m by lia.
  replace (Nat.min (i + l) m) with m by lia. reflexivity.
Qed.

Lemma T_final (l : nat) : T m l = taylor c x l.
Proof.
  unfold T. replace (m - Nat.min (m + l) m)%nat with 0%nat by lia. reflexivity.
Qed.

(** One round of the division, the inner loop included. *)
Lemma poly_division_round (i : nat) (res : list R) :
  (i < m)%nat ->
  length res = lenres ->
  (forall l, (l <= nmax)%nat -> get res l = T i l) ->
  (forall l, (nmax < l)%nat -> get res l = 0) ->
  let k := (lenc - 1 - i)%nat in
  let res1 := upd res 0 ((x * get res 0) + get c (k - 1))%D in
  let lmax := if (nmax <? k)%nat then nmax else (k - 1)%nat in
  let res2 := for_range 1 lmax
                (fun l res => upd res l ((x * get res l) + get res (l - 1))%D) res1 in
  length res2 = lenres /\
  (forall l, (l <= nmax)%nat -> get res2 l = T (S i) l) /\
  (forall l, (nmax < l)%nat -> get res2 l = 0).
Proof.
  intros Hi Hlen Hlo Hhi k res1 lmax res2.
  assert (k = m - i)%nat as Hk by (unfold k, m; lia).
  assert (lmax = Nat.min nmax (k - 1)) as Hlmax
    by (unfold lmax; destruct (Nat.ltb_spec nmax k); lia).
  assert (nmax < lenres)%nat as Hnmax by (unfold nmax; lia).
  pose (P := fun (l : nat) (r : list R) =>
               length r = lenres /\
               (forall l', (l' < l)%nat -> (l' <= nmax)%nat -> get r l' = T (S i) l') /\
               (forall l', (l <= l')%nat -> (l' <= nmax)%nat -> get r l' = T i l') /\
               (forall l', (nmax < l')%nat -> get r l' = 0)).
  assert (P (1 + lmax)%nat res2) as HP.
  { unfold res2. apply for_range_inv.
    - unfold P, res1. rewrite length_upd. split; [exact Hlen|]. split; [|split].
      + intros l' Hl' _. assert (l' = 0)%nat as -> by lia.
        unfold get at 1. rewrite nth_upd_same by lia.
        cbn [dadd dmul Double_R]. rewrite (Hlo 0%nat) by lia.
        rewrite T_step0 by exact Hi. rewrite Hk.
        replace (m - i - 1)%nat with (m - i - 1)%nat by lia. reflexivity.
      + intros l' Hl' Hn. unfold get at 1. rewrite nth_upd_other by lia.
        apply Hlo. exact Hn.
      + intros l' Hl'. unfold get at 1. rewrite nth_upd_other by lia.
        apply Hhi. exact Hl'.
    - intros l r Hl (Hrlen & Hnew & Hold & Hzero). unfold P.
      rewrite length_upd. split; [exact Hrlen|]. split; [|split].
      + intros l' Hl' Hn. destruct (Nat.eq_dec l' l) as [->|Hne].
        * unfold get at 1. rewrite nth_upd_same by lia.
          cbn [dadd dmul Double_R].
          rewrite (Hold l) by lia. rewrite (Hnew (l - 1)%nat) by lia.
          destruct l as [|l0]; [lia|].
          replace (S l0 - 1)%nat with l0 by lia.
          rewrite T_stepS by lia. reflexivity.
        * unfold get at 1. rewrite nth_upd_other by lia. apply Hnew; lia.
      + intros l' Hl' Hn. unfold get at 1. rewrite nth_upd_other by lia.
        apply Hold; lia.
      + intros l' Hl'. unfold get at 1. rewrite nth_upd_other by lia.
        apply Hzero. exact Hl'. }
  destruct HP as (Hrlen & Hnew & Hold & Hzero).
  split; [exact Hrlen|]. split; [|exact Hzero].
  intros l Hl. destruct (Nat.lt_ge_cases l (1 + lmax)) as [Hin|Hout].
  - apply Hnew; assumption.
  - rewrite (Hold l Hout Hl). symmetry. apply T_saturated. lia.
Qed.

(** The second loop: all rounds of the division. *)
Lemma poly_division_loop (res0 : list R) :
  length res0 = lenres ->
  (forall l, (l <= nmax)%nat -> get res0 l = get c m) ->
  (forall l, (nmax < l)%nat -> get res0 l = 0) ->
  let res :=
    for_range 0 (lenc - 1)
      (fun i res =>
         let k := ((lenc - 1) - i)%nat in
         let res := upd res 0 ((x * get res 0) + get c (k - 1))%D in
         let lmax := if (nmax <? k)%nat then nmax else (k - 1)%nat in
         for_range 1 lmax
           (fun l res => upd res l ((x * get res l) + get res (l - 1))%D)
           res)
      res0 in
  length res = lenres /\
  (forall l, (l <= nmax)%nat -> get res l = taylor c x l) /\
  (forall l, (nmax < l)%nat -> get res l = 0).
Proof.
  intros Hlen Hlo Hhi res.
  pose (P := fun (i : nat) (r : list R) =>
               length r = lenres /\
               (forall l, (l <= nmax)%nat -> get r l = T i l) /\
               (forall l, (nmax < l)%nat -> get r l = 0)).
  assert (P (0 + (lenc - 1))%nat res) as HP.
  { unfold res. apply for_range_inv.
    - unfold P. split; [exact Hlen|]. split; [|exact Hhi].
      intros l Hl. rewrite (Hlo l Hl). symmetry. apply T_init.
      unfold nmax in Hl. lia.
    - intros i r Hi (Hrlen & Hrlo & Hrhi). unfold P.
      apply (poly_division_round i r); try assumption. unfold m. lia. }
  destruct HP as (Hrlen & Hrlo & Hrhi).
  split; [exact Hrlen|]. split; [|exact Hrhi].
  intros l Hl. rewrite (Hrlo l Hl). cbn [Nat.add]. apply T_final.
Qed.

(** The third loop: the Taylor coefficients become derivatives. *)
Lemma poly_factorial_loop (res0 : list R) :
  length res0 = lenres ->
  let res :=
    snd (for_range 2 (nmax - 1)
           (fun i '(f, res) =>
              let f := (f * dlit (Z.of_nat i))%D in
              (f, upd res i (get res i * f)%D))
           (dlit 1, res0)) in
  length res = lenres /\
  (forall l, (l <= nmax)%nat -> get res l = INR (fact l) * get res0 l) /\
  (forall l, (nmax < l)%nat -> get res l = get res0 l).
Proof.
  intros Hlen res.
  assert (nmax < lenres)%nat as Hnmax by (unfold nmax; lia).
  pose (P := fun (i : nat) (s : R * list R) =>
               fst s = INR (fact (i - 1)) /\
               length (snd s) = lenres /\
               (forall l, (l < i)%nat -> (l <= nmax)%nat ->
                  get (snd s) l = INR (fact l) * get res0 l) /\
               (forall l, (i <= l \/ nmax < l)%nat -> get (snd s) l = get res0 l)).
  assert (P (2 + (nmax - 1))%nat
            (for_range 2 (nmax - 1)
               (fun i '(f, res) =>
                  let f := (f * dlit (Z.of_nat i))%D in
                  (f, upd res i (get res i * f)%D))
               (dlit 1, res0))) as HP.
  { apply for_range_inv.
    - unfold P. cbn [fst snd]. split; [reflexivity|]. split; [exact Hlen|]. split.
      + intros l Hl _. assert (l = 0 \/ l = 1)%nat as [-> | ->] by lia;
          cbn [fact Nat.mul Nat.add INR]; ring.
      + intros l _. reflexivity.
    - intros i [f r] Hi (Hf & Hrlen & Hnew & Hold). unfold P in *. cbn [fst snd] in *.
      assert (INR (fact (i - 1)) * INR i = INR (fact i)) as Hfact.
      { destruct i as [|i0]; [lia|]. replace (S i0 - 1)%nat with i0 by lia.
        change (fact (S i0)) with (S i0 * fact i0)%nat. rewrite mult_INR. ring. }
      cbn [dmul dlit Double_R]. rewrite <- INR_IZR_INZ.
      replace (S i - 1)%nat with i by lia.
      rewrite length_upd. subst f. rewrite Hfact.
      split; [reflexivity|]. split; [exact Hrlen|]. split.
      + intros l Hl Hn. destruct (Nat.eq_dec l i) as [->|Hne].
        * unfold get at 1. rewrite nth_upd_same by lia.
          rewrite (Hold i) by lia. ring.
        * unfold get at 1. rewrite nth_upd_other by lia. apply Hnew; lia.
      + intros l Hl. unfold get at 1. rewrite nth_upd_other by lia.
        apply Hold. lia. }
  destruct HP as (_ & Hrlen & Hnew & Hold).
  split; [exact Hrlen|]. split.
  - intros l Hl. apply Hnew; lia.
  - intros l Hl. apply Hold. lia.
Qed.

(** The entries of the result are the derivatives of the polynomial. *)
Lemma gsl_poly_eval_derivs_spec :
  let res := gsl_poly_eval_derivs c lenc x (repeat (dlit 0) lenres) lenres in
  length res = lenres /\
  forall l, (l < lenres)%nat -> get res l = INR (fact l) * taylor c x l.
Proof.
  unfold gsl_poly_eval_derivs. rewrite poly_fill_loop.
  set (res0 := map (fun l => if (l <? lenc)%nat then get c m else 0) (seq 0 lenres)).
  assert (nmax < lenres)%nat as Hnmax by (unfold nmax; lia).
  assert (length res0 = lenres) as Hlen0
    by (unfold res0; rewrite length_map, length_seq; reflexivity).
  destruct (poly_division_loop res0 Hlen0) as (Hlen1 & Hlo1 & Hhi1).
  - intros l Hl. unfold res0, get. cbn [dlit Double_R].
    rewrite nth_map_seq by lia.
    destruct (Nat.ltb_spec l lenc); [reflexivity | unfold nmax in Hl; lia].
  - intros l Hl. unfold res0, get. cbn [dlit Double_R].
    destruct (Nat.lt_ge_cases l lenres) as [Hin|Hout].
    + rewrite nth_map_seq by lia.
      destruct (Nat.ltb_spec l lenc); [unfold nmax in Hl; lia | reflexivity].
    + apply nth_overflow. rewrite length_map, length_seq. exact Hout.
  - cbv zeta in Hlen1, Hlo1, Hhi1.
    set (res1 := for_range 0 (lenc - 1) _ res0) in *.
    destruct (poly_factorial_loop res1 Hlen1) as (Hlen2 & Hlo2 & Hhi2).
    cbv zeta in Hlen2, Hlo2, Hhi2.
    destruct (for_range 2 (nmax - 1) _ _) as [f res2]. cbn [snd] in *.
    split; [exact Hlen2|].
    intros l Hl. destruct (Nat.le_gt_cases l nmax) as [Hin|Hout].
    + rewrite Hlo2, Hlo1 by exact Hin. reflexivity.
    + rewrite Hhi2, Hhi1 by exact Hout.
      rewrite (taylor_high x c l) by (unfold nmax, lenc in *; lia). ring.
Qed.

End PolyEvalDerivs.

(** ** [evaluatePolynomial] *)

Lemma to_int_id (z : Z) : (int_min <= z <= int_max)%Z -> to_int z = z.
Proof.
  unfold int_min, int_max, to_int.
  change (2 ^ 31)%Z with 2147483648%Z. change (2 ^ 32)%Z with 4294967296%Z.
  intros Hz. rewrite Z.mod_small by lia. lia.
Qed.

Lemma to_int_succ_int_max : to_int (int_max + 1) = int_min.
Proof. reflexivity. Qed.

Lemma to_int_range (z : Z) : (int_min <= to_int z <= int_max)%Z.
Proof.
  unfold int_min, int_max, to_int.
  change (2 ^ 31)%Z with 2147483648%Z. change (2 ^ 32)%Z with 4294967296%Z.
  pose proof (Z.mod_pos_bound (z + 2147483648) 4294967296 ltac:(lia)). lia.
Qed.

Lemma to_size_t_id (z : Z) : (0 <= z <= int_max)%Z -> to_size_t z = z.
Proof.
  unfold int_max, to_size_t.
  change (2 ^ 31)%Z with 2147483648%Z. change (2 ^ 64)%Z with 18446744073709551616%Z.
  intros Hz. apply Z.mod_small. lia.
Qed.

(** The size of [derivatives] for an order that is an [int] below
    [INT_MAX]. *)
Lemma derivatives_size (d : Z) :
  (0 <= d < int_max)%Z ->
  to_int d = d /\
  to_size_t (to_int (d + 1)) = (d + 1)%Z /\
  (vector_max_size <? d + 1)%Z = false.
Proof.
  intros Hd. assert (int_max = 2147483647%Z) as Hmax by reflexivity.
  assert (int_min = (-2147483648)%Z) as Hmin by reflexivity.
  rewrite (to_int_id d) by lia. rewrite (to_int_id (d + 1)) by lia.
  rewrite to_size_t_id by lia. repeat split.
  apply Z.ltb_ge. unfold vector_max_size.
  change (2 ^ 60)%Z with 1152921504606846976%Z. lia.
Qed.

Lemma evaluatePolynomial_run (cs : list R) (t : R) (d : Z) (tr : log) :
  cs <> [] -> (0 <= d < int_max)%Z ->
  evaluatePolynomial cs t d tr =
    (Ret (polynomial (Nat.iter (Z.to_nat d) pderiv cs) t),
     tr ++ [EvPolyEvalDerivs (Z.to_nat d + 1)]).
Proof.
  intros Hcs Hd. unfold evaluatePolynomial.
  destruct (derivatives_size d Hd) as (-> & -> & ->).
  assert (1 <= length cs)%nat as Hlen by (destruct cs; [congruence | simpl; lia]).
  destruct (Nat.eqb_spec (length cs) 0) as [|_]; [lia|].
  destruct (Z.ltb_spec d 0) as [|_]; [lia|].
  rewrite repeat_length.
  replace (Z.to_nat (d + 1)) with (Z.to_nat d + 1)%nat by lia.
  rewrite bind_call.
  destruct (gsl_poly_eval_derivs_spec cs t (Z.to_nat d + 1) Hlen ltac:(lia))
    as (Hrlen & Hres).
  cbv zeta in Hrlen, Hres.
  set (res := gsl_poly_eval_derivs cs (length cs) t _ _) in *.
  unfold back. rewrite (at_ok res (length res - 1) (dlit 0)) by lia.
  f_equal. f_equal. change (nth (length res - 1) res (dlit 0)) with (get res (length res - 1)).
  rewrite Hrlen. replace (Z.to_nat d + 1 - 1)%nat with (Z.to_nat d) by lia.
  rewrite Hres by lia. symmetry. apply iter_pderiv_taylor.
Qed.

Lemma evaluatePolynomial_throws (cs : list R) (t : R) (d : Z) (tr : log) :
  (int_min <= d <= int_max)%Z ->
  cs = [] \/ (d < 0)%Z ->
  exists what, evaluatePolynomial cs t d tr = (Throw what, tr).
Proof.
  intros Hint Hbad. unfold evaluatePolynomial. rewrite (to_int_id d Hint).
  destruct (Nat.eqb_spec (length cs) 0) as [_|Hne]; [eexists; reflexivity|].
  destruct (Z.ltb_spec d 0) as [_|Hge]; [eexists; reflexivity|].
  destruct Hbad as [-> | Hlt]; [simpl in Hne; congruence | lia].
Qed.

(** At [INT_MAX] the sum [d + 1] wraps and the vector is refused. *)
Lemma evaluatePolynomial_int_max (cs : list R) (t : R) (tr : log) :
  cs <> [] ->
  evaluatePolynomial cs t int_max tr =
    (Throw "cannot create std::vector larger than max_size()", tr).
Proof.
  intros Hcs. unfold evaluatePolynomial.
  assert (1 <= length cs)%nat as Hlen by (destruct cs; [congruence | simpl; lia]).
  destruct (Nat.eqb_spec (length cs) 0) as [|_]; [lia|]. reflexivity.
Qed.

(** C4, as it holds: for a non-empty coefficient sequence [c0 .. cn], a time
    [t] and a derivative order [d] that is an [int] with [0 <= d < INT_MAX],
    [evaluatePolynomial] returns the derivative of order [d] of the
    polynomial [c0 + c1 t + ... + cn t^n] at [t]; when [d] exceeds the degree
    [n] the value returned is 0, not an error; and for an [int] [d] other
    than [INT_MAX] the call throws exactly when the sequence is empty or [d]
    is negative. *)
Theorem evaluatePolynomial_computes_derivative :
  forall (cs : list R) (t : R) (d : Z),
    (int_min <= d < int_max)%Z ->
    (cs <> [] -> (0 <= d)%Z ->
       derivative_of_order (Z.to_nat d) (polynomial cs)
                           (polynomial (Nat.iter (Z.to_nat d) pderiv cs)) /\
       result (evaluatePolynomial cs t d) =
         Ret (polynomial (Nat.iter (Z.to_nat d) pderiv cs) t) /\
       ((Z.of_nat (length cs) - 1 < d)%Z ->
          result (evaluatePolynomial cs t d) = Ret 0)) /\
    ((exists what, result (evaluatePolynomial cs t d) = Throw what) <->
       cs = [] \/ (d < 0)%Z).
Proof.
  intros cs t d Hint. split.
  - intros Hcs Hd. split; [apply derivative_of_order_iter|].
    unfold result. rewrite evaluatePolynomial_run by (try assumption; lia). cbn [fst].
    split; [reflexivity|].
    intros Hhigh. f_equal. rewrite iter_pderiv_taylor.
    rewrite taylor_high by lia. ring.
  - split.
    + intros [what Hthrow].
      destruct cs as [|c0 q]; [left; reflexivity|].
      destruct (Z.ltb_spec d 0) as [Hlt|Hge]; [right; exact Hlt|].
      unfold result in Hthrow.
      rewrite evaluatePolynomial_run in Hthrow by (congruence || lia).
      discriminate.
    + intros Hbad. unfold result.
      destruct (evaluatePolynomial_throws cs t d [] ltac:(lia) Hbad) as [what ->].
      exists what. reflexivity.
Qed.

Lemma evaluatePolynomial_computes_derivative_witness :
  result (evaluatePolynomial [1; 2; 3] 2 1) =
    Ret (polynomial (Nat.iter (Z.to_nat 1) pderiv [1; 2; 3]) 2).
Proof.
  apply (proj1 (evaluatePolynomial_computes_derivative [1; 2; 3] 2 1
                  ltac:(unfold int_min, int_max; lia))).
  - discriminate.
  - lia.
Defined.

(** C4 as stated fails at the largest [int]: for the order [INT_MAX], which
    is non-negative and above the degree, the sum [d + 1] wraps to [INT_MIN],
    the constructor of [derivatives] throws [std::length_error], and the
    call returns no 0 although the sequence is not empty and the order is not
    negative. *)
Lemma evaluatePolynomial_throws_at_int_max :
  result (evaluatePolynomial [1; 2] 3 2147483647) =
    Throw "cannot create std::vector larger than max_size()" /\
  result (evaluatePolynomial [1; 2] 3 2147483647) <> Ret 0 /\
  ~ ([1; 2] = @nil R \/ (2147483647 < 0)%Z).
Proof.
  assert (result (evaluatePolynomial [1; 2] 3 2147483647) =
            Throw "cannot create std::vector larger than max_size()") as E.
  { unfold result. change 2147483647%Z with int_max.
    rewrite evaluatePolynomial_int_max by discriminate. reflexivity. }
  split; [exact E|]. split.
  - rewrite E. discriminate.
  - intros [Hnil|Hneg]; [discriminate | lia].
Qed.

Lemma getPosition_coeffs_three {T} `{Double T} (c0 c1 c2 : list T) (time : T) :
  getPosition_coeffs [c0; c1; c2] time =
    (x <- evaluatePolynomial c0 time 0 ;;
     y <- evaluatePolynomial c1 time 0 ;;
     z <- evaluatePolynomial c2 time 0 ;;
     ret [x; y; z]).
Proof. reflexivity. Qed.

Lemma getVelocity_coeffs_three {T} `{Double T} (c0 c1 c2 : list T) (time : T) :
  getVelocity_coeffs [c0; c1; c2] time =
    (x <- evaluatePolynomial c0 time 1 ;;
     y <- evaluatePolynomial c1 time 1 ;;
     z <- evaluatePolynomial c2 time 1 ;;
     ret [x; y; z]).
Proof. reflexivity. Qed.

(** C5: for three non-empty coefficient sequences and a time [t], the
    components of the polynomial [getVelocity] are the first derivatives at
    [t] of the polynomials whose values the polynomial [getPosition] returns.
    With x-coefficients [1, 2], [getPosition] at [t = 3] has x-component 7 and
    [getVelocity] has x-component 2 at every [t]. *)
Theorem polynomial_velocity_is_derivative_of_position :
  forall (cx cy cz : list R) (t : R),
    cx <> [] -> cy <> [] -> cz <> [] ->
    (forall u, result (getPosition_coeffs [cx; cy; cz] u) =
                 Ret [polynomial cx u; polynomial cy u; polynomial cz u]) /\
    (exists vx vy vz,
        result (getVelocity_coeffs [cx; cy; cz] t) = Ret [vx; vy; vz] /\
        derivable_pt_lim (polynomial cx) t vx /\
        derivable_pt_lim (polynomial cy) t vy /\
        derivable_pt_lim (polynomial cz) t vz) /\
    (cx = [1; 2] ->
       (exists y z, result (getPosition_coeffs [cx; cy; cz] 3) = Ret [7; y; z]) /\
       (exists vy vz, result (getVelocity_coeffs [cx; cy; cz] t) = Ret [2; vy; vz])).
Proof.
  intros cx cy cz t Hx Hy Hz.
  assert (forall u, result (getPosition_coeffs [cx; cy; cz] u) =
                      Ret [polynomial cx u; polynomial cy u; polynomial cz u]) as Hpos.
  { intros u. unfold result. rewrite getPosition_coeffs_three.
    rewrite (bind_eq _ (evaluatePolynomial_run cx u 0 _ Hx ltac:(unfold int_max; lia))).
    rewrite (bind_eq _ (evaluatePolynomial_run cy u 0 _ Hy ltac:(unfold int_max; lia))).
    rewrite (bind_eq _ (evaluatePolynomial_run cz u 0 _ Hz ltac:(unfold int_max; lia))).
    reflexivity. }
  assert (result (getVelocity_coeffs [cx; cy; cz] t) =
            Ret [polynomial (pderiv cx) t; polynomial (pderiv cy) t;
                 polynomial (pderiv cz) t]) as Hvel.
  { unfold result. rewrite getVelocity_coeffs_three.
    rewrite (bind_eq _ (evaluatePolynomial_run cx t 1 _ Hx ltac:(unfold int_max; lia))).
    rewrite (bind_eq _ (evaluatePolynomial_run cy t 1 _ Hy ltac:(unfold int_max; lia))).
    rewrite (bind_eq _ (evaluatePolynomial_run cz t 1 _ Hz ltac:(unfold int_max; lia))).
    reflexivity. }
  split; [exact Hpos|]. split.
  - exists (polynomial (pderiv cx) t), (polynomial (pderiv cy) t),
           (polynomial (pderiv cz) t).
    split; [exact Hvel|]. repeat split; apply polynomial_deriv.
  - intros ->. split.
    + exists (polynomial cy 3), (polynomial cz 3). rewrite Hpos.
      f_equal. f_equal. unfold polynomial. simpl. ring.
    + exists (polynomial (pderiv cy) t), (polynomial (pderiv cz) t). rewrite Hvel.
      f_equal. f_equal. unfold polynomial, pderiv. simpl. ring.
Qed.

Lemma polynomial_velocity_is_derivative_witness :
  exists vx vy vz,
    result (getVelocity_coeffs [[1; 2]; [0]; [4; 0; 1]] 3) = Ret [vx; vy; vz] /\
    derivable_pt_lim (polynomial [1; 2]) 3 vx /\
    derivable_pt_lim (polynomial [0]) 3 vy /\
    derivable_pt_lim (polynomial [4; 0; 1]) 3 vz.
Proof.
  apply (polynomial_velocity_is_derivative_of_position [1; 2] [0] [4; 0; 1] 3);
    discriminate.
Defined.

(** ** The tridiagonal solver *)

Lemma pivot_bound (o a : R) : 0 < o < a -> o * (o / a) < o.
Proof.
  intros [Ho Ha].
  assert (o / a < 1) as Hq.
  { apply Rmult_lt_reg_r with a; [lra|].
    unfold Rdiv. rewrite Rmult_assoc, Rinv_l by lra. lra. }
  nra.
Qed.

(** On a diagonally dominant system with positive off-diagonal entries every
    pivot is positive, so the solver does not report a zero pivot. *)
Lemma solve_tridiag_ok (diag offdiag b x0 : list R) (N : nat) :
  (2 <= N)%nat ->
  (forall i, (i + 1 < N)%nat -> 0 < get offdiag i) ->
  get offdiag 0 < get diag 0 ->
  (forall i, (1 <= i)%nat -> (i + 1 < N)%nat ->
     get offdiag (i - 1) + get offdiag i <= get diag i) ->
  exists sol, forall tr, solve_tridiag diag offdiag b x0 N tr = (Ret sol, tr).
Proof.
  intros HN Hoff Hd0 Hdom. unfold solve_tridiag.
  set (alpha0 := upd (repeat (dlit 0) N) 0 (get diag 0)).
  set (gamma0 := upd (repeat (dlit 0) N) 0 (get offdiag 0 / get alpha0 0)%D).
  assert (get alpha0 0 = get diag 0) as Ha0
    by (unfold alpha0, get; rewrite nth_upd_same by (rewrite repeat_length; lia);
        reflexivity).
  pose (P := fun (i : nat) (s : list R * list R * bool) =>
               snd s = false /\
               length (fst (fst s)) = N /\ length (snd (fst s)) = N /\
               get offdiag (i - 1) < get (fst (fst s)) (i - 1) /\
               get (snd (fst s)) (i - 1) =
                 get offdiag (i - 1) / get (fst (fst s)) (i - 1)).
  match goal with
  | |- context [for_range 1 (N - 2) ?body ?init] =>
      assert (P (1 + (N - 2))%nat (for_range 1 (N - 2) body init)) as HP
  end.
  { apply for_range_inv.
    - unfold P. cbn [fst snd Nat.sub]. unfold alpha0 at 2, gamma0 at 1.
      rewrite !length_upd, !repeat_length.
      split; [|split; [reflexivity|split; [reflexivity|split]]].
      + cbn [deqb dlit Double_R]. rewrite Ha0. apply Reqb_false.
        pose proof (Hoff 0%nat ltac:(lia)). lra.
      + rewrite Ha0. exact Hd0.
      + unfold gamma0, get at 1. rewrite nth_upd_same by (rewrite repeat_length; lia).
        reflexivity.
    - intros i [[alpha gamma] status] Hi (Hst & Hla & Hlg & Hpiv & Hgam).
      unfold P in *. cbn [fst snd] in *.
      replace (S i - 1)%nat with i by lia.
      rewrite !length_upd.
      set (a := (get diag i - get offdiag (i - 1) * get gamma (i - 1))%D).
      assert (get (upd alpha i a) i = a) as Hai
        by (unfold get; rewrite nth_upd_same by lia; reflexivity).
      assert (get offdiag i < a) as Hbig.
      { unfold a. cbn [dsub dmul Double_R]. rewrite Hgam.
        pose proof (Hoff (i - 1)%nat ltac:(lia)) as Hpos.
        pose proof (pivot_bound _ _ (conj Hpos Hpiv)) as Hb.
        pose proof (Hdom i ltac:(lia) ltac:(lia)). lra. }
      rewrite Hai.
      split; [|split; [exact Hla|split; [exact Hlg|split]]].
      + cbn [deqb dlit Double_R]. rewrite Reqb_false; [exact Hst|].
        pose proof (Hoff i ltac:(lia)). lra.
      + exact Hbig.
      + unfold get at 1. rewrite nth_upd_same by lia. reflexivity. }
  destruct (for_range 1 (N - 2) _ _) as [[alpha gamma] status].
  unfold P in HP. cbn [fst snd] in HP. destruct HP as (-> & _).
  eexists. intros tr. reflexivity.
Qed.

(** ** The natural cubic spline *)

Section CsplineInit.
Variables (xa ya : list R).
Hypothesis xa_increasing : increasing xa.

Let n := length xa.
Let h (i : nat) : R := get xa (i + 1) - get xa i.

Lemma h_pos (i : nat) : (i + 1 < n)%nat -> 0 < h i.
Proof.
  intros Hi. unfold h.
  assert (get xa i < get xa (i + 1)); [|lra].
  replace (i + 1)%nat with (S i) by lia. apply xa_increasing. unfold n in Hi. lia.
Qed.

(** The tridiagonal system set up by the loop of [cspline_init]. *)
Lemma cspline_system (size : nat) :
  let s :=
    for_range 0 (n - 1 - 1)
      (fun i '(offdiag, diag, g) =>
         let h_i := (get xa (i + 1) - get xa i)%D in
         let h_ip1 := (get xa (i + 2) - get xa (i + 1))%D in
         let ydiff_i := (get ya (i + 1) - get ya i)%D in
         let ydiff_ip1 := (get ya (i + 2) - get ya (i + 1))%D in
         let g_i := if dneb h_i (dlit 0) then (dlit 1 / h_i)%D else dlit 0 in
         let g_ip1 := if dneb h_ip1 (dlit 0) then (dlit 1 / h_ip1)%D else dlit 0 in
         (upd offdiag i h_ip1,
          upd diag i (dlit 2 * (h_ip1 + h_i))%D,
          upd g i (dlit 3 * (ydiff_ip1 * g_ip1 - ydiff_i * g_i))%D))
      (repeat (dlit 0) size, repeat (dlit 0) size, repeat (dlit 0) size) in
  (n <= size)%nat ->
  forall j, (j < n - 2)%nat ->
    get (fst (fst s)) j = h (j + 1) /\ get (snd (fst s)) j = 2 * (h (j + 1) + h j).
Proof.
  intros s.
  pose (P := fun (i : nat) (s : list R * list R * list R) =>
               length (fst (fst s)) = size /\ length (snd (fst s)) = size /\
               forall j, (j < i)%nat -> (n <= size)%nat -> (i <= n - 2)%nat ->
                 get (fst (fst s)) j = h (j + 1) /\
                 get (snd (fst s)) j = 2 * (h (j + 1) + h j)).
  assert (P (0 + (n - 1 - 1))%nat s) as HP.
  { apply for_range_inv.
    - unfold P. cbn [fst snd]. rewrite !repeat_length. repeat split; lia.
    - intros i [[o d] g] Hi (Ho & Hd & Hprev). unfold P in *. cbn [fst snd] in *.
      rewrite !length_upd. split; [exact Ho|]. split; [exact Hd|].
      intros j Hj Hsize Hrange.
      destruct (Nat.eq_dec j i) as [->|Hne].
      + unfold get at 1 4. rewrite !nth_upd_same by lia.
        cbn [dsub dadd dmul dlit Double_R]. unfold h.
        replace (i + 1 + 1)%nat with (i + 2)%nat by lia. split; reflexivity.
      + unfold get at 1 4. rewrite !nth_upd_other by lia.
        apply Hprev; lia. }
  unfold P in HP. destruct HP as (_ & _ & HP).
  intros Hsize j Hj. apply HP; lia.
Qed.

(** On strictly increasing timestamps the initialisation of the spline
    succeeds and leaves the log as it is. *)
Lemma cspline_init_ok :
  (3 <= n)%nat -> exists c, forall tr, cspline_init xa ya n tr = (Ret c, tr).
Proof.
  intros Hn. unfold cspline_init.
  pose proof (cspline_system n) as Hsys. cbv zeta in Hsys.
  destruct (for_range 0 (n - 1 - 1) _ _) as [[offdiag diag] g].
  cbn [fst snd] in Hsys. specialize (Hsys (Nat.le_refl n)).
  destruct (Nat.eqb_spec (n - 1 - 1) 1) as [_|Hne]; [eexists; intros tr; reflexivity|].
  destruct (solve_tridiag_ok diag offdiag g
              (firstn (n - 1 - 1) (tl (upd (upd (repeat (dlit 0) n) 0 (dlit 0))
                                           (n - 1) (dlit 0))))
              (n - 1 - 1)) as [sol Hsol].
  - lia.
  - intros i Hi. destruct (Hsys i ltac:(lia)) as [-> _]. apply h_pos. lia.
  - destruct (Hsys 0%nat ltac:(lia)) as [-> ->].
    pose proof (h_pos 0 ltac:(lia)). pose proof (h_pos 1 ltac:(lia)).
    cbn [Nat.add] in *. lra.
  - intros i Hi1 Hi2.
    destruct (Hsys i ltac:(lia)) as [-> ->].
    destruct (Hsys (i - 1)%nat ltac:(lia)) as [-> _].
    replace (i - 1 + 1)%nat with i by lia.
    pose proof (h_pos i ltac:(lia)). pose proof (h_pos (i + 1) ltac:(lia)). lra.
  - eexists. intros tr. rewrite (bind_eq _ (Hsol tr)). reflexivity.
Qed.

End CsplineInit.

Lemma type_init_ok (interp : interpolation) (xa ya : list R) :
  increasing xa -> (min_size interp <= length xa)%nat ->
  exists c, forall tr, type_init interp xa ya (length xa) tr = (Ret c, tr).
Proof.
  intros Hinc Hmin. destruct interp; cbn [type_init min_size] in *.
  - eexists. intros tr. reflexivity.
  - apply cspline_init_ok; assumption.
Qed.

(** The interval found for a sample time is the one that starts at the
    sample, or the last one when the sample is the last. *)
Lemma accel_find_at_sample (xa : list R) (i : nat) :
  increasing xa -> (2 <= length xa)%nat -> (i < length xa)%nat ->
  let j := fst (gsl_interp_accel_find fresh_accel xa (length xa) (get xa i)) in
  (j + 1 < length xa)%nat /\ (j = i \/ (S j = i /\ i = (length xa - 1)%nat)).
Proof.
  intros Hinc Hn Hi j.
  destruct (accel_find_spec xa (length xa) (get xa i) Hn) as (Hj & Hle & Hhi).
  { apply increasing_le; [assumption | lia]. }
  fold j in Hj, Hle, Hhi. split; [exact Hj|].
  assert (j <= i)%nat as Hji.
  { destruct (Nat.le_gt_cases j i) as [|Hgt]; [assumption|].
    pose proof (increasing_lt xa Hinc i j ltac:(lia)). lra. }
  destruct Hhi as [Hlt|Hlast].
  - left. destruct (Nat.eq_dec j i) as [|Hne]; [assumption|].
    pose proof (increasing_le xa Hinc (j + 1)%nat i ltac:(lia)). lra.
  - destruct (Nat.eq_dec j i) as [|Hne]; [left; assumption | right; lia].
Qed.

(** A cubic with the coefficients of [coeff_calc] takes the sample values at
    both ends of its interval, whatever the array [c] holds. *)
Lemma cspline_eval_at_sample (c xa ya : list R) (i : nat) :
  increasing xa -> (2 <= length xa)%nat -> (i < length xa)%nat ->
  cspline_eval c xa ya (length xa) (get xa i) fresh_accel = get ya i.
Proof.
  intros Hinc Hn Hi. unfold cspline_eval.
  destruct (accel_find_at_sample xa i Hinc Hn Hi) as (Hj & Hcase).
  cbv zeta in Hj, Hcase.
  set (j := fst (gsl_interp_accel_find fresh_accel xa (length xa) (get xa i))) in *.
  assert (get xa j < get xa (j + 1)) as Hdx
    by (apply increasing_lt; [assumption | lia]).
  unfold dgtb, coeff_calc. cbn [dltb dsub dadd dmul ddiv dlit Double_R].
  rewrite Rltb_true by lra.
  destruct Hcase as [-> | [Hji _]].
  - ring.
  - rewrite <- Hji. replace (S j) with (j + 1)%nat by lia. field. lra.
Qed.

Lemma linear_eval_at_sample (xa ya : list R) (i : nat) :
  increasing xa -> (2 <= length xa)%nat -> (i < length xa)%nat ->
  linear_eval xa ya (length xa) (get xa i) fresh_accel = get ya i.
Proof.
  intros Hinc Hn Hi. unfold linear_eval.
  destruct (accel_find_at_sample xa i Hinc Hn Hi) as (Hj & Hcase).
  cbv zeta in Hj, Hcase.
  set (j := fst (gsl_interp_accel_find fresh_accel xa (length xa) (get xa i))) in *.
  assert (get xa j < get xa (j + 1)) as Hdx
    by (apply increasing_lt; [assumption | lia]).
  unfold dgtb. cbn [dltb dsub dadd dmul ddiv dlit Double_R].
  rewrite Rltb_true by lra.
  destruct Hcase as [-> | [Hji _]].
  - field. lra.
  - rewrite <- Hji. replace (S j) with (j + 1)%nat by lia. field. lra.
Qed.

(** ** The checks of [interpolate] *)

Lemma interpolate_too_few (points times : list R) (time : R) (interp : interpolation)
    (d : Z) (tr : log) :
  (length points < 2)%nat ->
  interpolate points times time interp d tr =
    (Throw "At least two points must be input to interpolate over.", tr).
Proof.
  intros Hn. unfold interpolate.
  destruct (Nat.ltb_spec (length points) 2) as [_|]; [reflexivity | lia].
Qed.

Lemma interpolate_length_mismatch (points times : list R) (time : R)
    (interp : interpolation) (d : Z) (tr : log) :
  (2 <= length points)%nat -> length points <> length times ->
  interpolate points times time interp d tr =
    (Throw "Invalid gsl_interp_type data, must have the same number of points as times.",
     tr).
Proof.
  intros Hn Hne. unfold interpolate.
  destruct (Nat.ltb_spec (length points) 2) as [|_]; [lia|].
  destruct (Nat.eqb_spec (length points) (length times)) as [|_]; [contradiction|].
  reflexivity.
Qed.

Lemma interpolate_outside (points times : list R) (time : R) (interp : interpolation)
    (d : Z) (tr : log) :
  (2 <= length points)%nat -> length points = length times ->
  time < get times 0 \/ get times (length times - 1) < time ->
  interpolate points times time interp d tr =
    (Throw "Invalid gsl_interp_type time, outside of input times.", tr).
Proof.
  intros Hn Hlen Hout. unfold interpolate.
  destruct (Nat.ltb_spec (length points) 2) as [|_]; [lia|].
  rewrite Hlen in *. rewrite Nat.eqb_refl. cbn [negb].
  unfold front, back.
  rewrite (bind_eq _ (at_ok times 0 (dlit 0) tr ltac:(lia))).
  rewrite (bind_eq _ (at_ok times (length times - 1) (dlit 0) tr ltac:(lia))).
  change (nth 0 times (dlit 0)) with (get times 0).
  change (nth (length times - 1) times (dlit 0)) with (get times (length times - 1)).
  unfold dgtb. cbn [dltb Double_R].
  destruct (Rltb_spec time (get times 0)) as [|Hlo]; [reflexivity|].
  destruct (Rltb_spec (get times (length times - 1)) time) as [|Hhi]; [reflexivity|].
  lra.
Qed.

Lemma interpolate_alloc_fails (points times : list R) (time : R) (interp : interpolation)
    (d : Z) (tr : log) :
  (2 <= length points)%nat -> length points = length times ->
  get times 0 <= time <= get times (length times - 1) ->
  (length points < min_size interp)%nat ->
  interpolate points times time interp d tr =
    (GslError "insufficient number of points for interpolation type", tr).
Proof.
  intros Hn Hlen Hdom Hmin. unfold interpolate.
  destruct (Nat.ltb_spec (length points) 2) as [|_]; [lia|].
  rewrite Hlen in *. rewrite Nat.eqb_refl. cbn [negb].
  unfold front, back.
  rewrite (bind_eq _ (at_ok times 0 (dlit 0) tr ltac:(lia))).
  rewrite (bind_eq _ (at_ok times (length times - 1) (dlit 0) tr ltac:(lia))).
  change (nth 0 times (dlit 0)) with (get times 0).
  change (nth (length times - 1) times (dlit 0)) with (get times (length times - 1)).
  unfold dgtb. cbn [dltb Double_R].
  rewrite (Rltb_false time), (Rltb_false _ time) by lra. cbn [orb].
  unfold bind. rewrite gsl_interp_alloc_small by exact Hmin. reflexivity.
Qed.

Lemma interpolate_init_fails (points times : list R) (time : R) (interp : interpolation)
    (d : Z) (tr : log) :
  (2 <= length points)%nat -> length points = length times ->
  get times 0 <= time <= get times (length times - 1) ->
  (min_size interp <= length points)%nat ->
  (exists i, (1 <= i < length times)%nat /\ ~ get times (i - 1) < get times i) ->
  interpolate points times time interp d tr =
    (GslError "x values must be strictly increasing",
     tr ++ [EvInterpAlloc interp (length points)]).
Proof.
  intros Hn Hlen Hdom Hmin (i & Hi & Hbad). unfold interpolate.
  destruct (Nat.ltb_spec (length points) 2) as [|_]; [lia|].
  rewrite Hlen in *. rewrite Nat.eqb_refl. cbn [negb].
  unfold front, back.
  rewrite (bind_eq _ (at_ok times 0 (dlit 0) tr ltac:(lia))).
  rewrite (bind_eq _ (at_ok times (length times - 1) (dlit 0) tr ltac:(lia))).
  change (nth 0 times (dlit 0)) with (get times 0).
  change (nth (length times - 1) times (dlit 0)) with (get times (length times - 1)).
  unfold dgtb. cbn [dltb Double_R].
  rewrite (Rltb_false time), (Rltb_false _ time) by lra. cbn [orb].
  rewrite (bind_eq _ (gsl_interp_alloc_ok interp _ _ Hmin)).
  unfold gsl_interp_init. cbn [interp_size]. rewrite Nat.eqb_refl. cbn [negb].
  unfold bind at 1 2.
  rewrite (increasing_check_fails times _ (length times - 1) 1 ltac:(lia)).
  - reflexivity.
  - exists i. split; [lia | exact Hbad].
Qed.

(** Two samples at one timestamp are refused by GSL. *)
Lemma interpolate_equal_timestamps (v0 v1 t0 : R) (d : Z) :
  result (interpolate [v0; v1] [t0; t0] t0 linear d) =
    GslError "x values must be strictly increasing".
Proof.
  unfold result. rewrite interpolate_init_fails; try reflexivity; try (simpl; lia).
  - unfold get; simpl; lra.
  - exists 1%nat. split; [simpl; lia|]. unfold get; simpl; lra.
Qed.

(** An [interpolate] whose data GSL accepts returns a value for the orders
    0, 1 and 2. *)
Lemma interpolate_returns (points times : list R) (time : R) (interp : interpolation)
    (d : Z) (tr : log) :
  length points = length times ->
  (2 <= length points)%nat ->
  (min_size interp <= length points)%nat ->
  increasing times ->
  get times 0 <= time <= get times (length times - 1) ->
  (d = 0 \/ d = 1 \/ d = 2)%Z ->
  exists c,
    (forall tr', type_init interp times points (length points) tr' = (Ret c, tr')) /\
    interpolate points times time interp d tr =
      (Ret (interp_value interp (Z.to_nat d) c times points (length points) time),
       tr ++ interpolate_calls interp (length points) (Z.to_nat d)).
Proof.
  intros Hlen Hn Hmin Hinc Hdom Hd.
  destruct (type_init_ok interp times points Hinc ltac:(lia)) as [c Hc].
  rewrite <- Hlen in Hc. exists c. split; [exact Hc|].
  rewrite (interpolate_run points times time interp d c tr Hlen Hn Hmin Hinc Hdom Hc).
  destruct Hd as [-> | [-> | ->]]; reflexivity.
Qed.

(** C9, as it holds: on at least three samples with strictly increasing
    timestamps, [interpolate] with the cubic-spline method and derivative
    order 0, asked at the timestamp of a sample, returns the value of that
    sample. *)
Theorem cubic_spline_reproduces_samples :
  forall (points times : list R) (i : nat),
    length points = length times ->
    (3 <= length points)%nat ->
    increasing times ->
    (i < length times)%nat ->
    result (interpolate points times (get times i) cubic_spline 0) = Ret (get points i).
Proof.
  intros points times i Hlen Hn Hinc Hi. unfold result.
  destruct (interpolate_returns points times (get times i) cubic_spline 0 [] Hlen
              ltac:(lia) ltac:(simpl; lia) Hinc) as (c & _ & Hrun).
  - split; apply increasing_le; try assumption; lia.
  - left; reflexivity.
  - rewrite Hrun. cbn [fst Z.to_nat interp_value]. f_equal.
    rewrite Hlen. apply cspline_eval_at_sample; [assumption | lia | assumption].
Qed.

Lemma increasing_three (t0 t1 t2 : R) : t0 < t1 -> t1 < t2 -> increasing [t0; t1; t2].
Proof.
  intros H01 H12 [|[|i]] Hi; simpl in Hi; unfold get; simpl; try lra; lia.
Qed.

Lemma cubic_spline_reproduces_samples_witness :
  result (interpolate [5; 7; 4] [0; 1; 3] (get [0; 1; 3] 2) cubic_spline 0) =
    Ret (get [5; 7; 4] 2).
Proof.
  apply (cubic_spline_reproduces_samples [5; 7; 4] [0; 1; 3] 2).
  - reflexivity.
  - simpl; lia.
  - apply increasing_three; lra.
  - simpl; lia.
Defined.

(** C9 as stated fails on two samples: GSL's cubic spline needs three, so
    the call ends in GSL's error handler instead of returning the sample. *)
Lemma cubic_spline_rejects_two_samples :
  result (interpolate [5; 7] [0; 1] (get [0; 1] 0) cubic_spline 0) =
    GslError "insufficient number of points for interpolation type" /\
  result (interpolate [5; 7] [0; 1] (get [0; 1] 0) cubic_spline 0) <> Ret (get [5; 7] 0).
Proof.
  assert (result (interpolate [5; 7] [0; 1] (get [0; 1] 0) cubic_spline 0) =
            GslError "insufficient number of points for interpolation type") as E.
  { unfold result. rewrite interpolate_alloc_fails; try reflexivity; simpl; try lia.
    unfold get; simpl; lra. }
  split; [exact E|]. rewrite E. discriminate.
Qed.

Lemma precondition_violated_dec (points times : list R) (time : R) (d : Z) :
  {precondition_violated points times time d} +
  {~ precondition_violated points times time d}.
Proof.
  unfold precondition_violated.
  destruct (lt_dec (length points) 2); [left; tauto|].
  destruct (Nat.eq_dec (length points) (length times)); [|left; tauto].
  destruct (Rlt_dec time (get times 0)); [left; tauto|].
  destruct (Rlt_dec (get times (length times - 1)) time); [left; tauto|].
  destruct (Z.eq_dec d 0); [right; tauto|].
  destruct (Z.eq_dec d 1); [right; tauto|].
  destruct (Z.eq_dec d 2); [right; tauto|].
  left. tauto.
Qed.

(** C2, as it holds.  The three checks of lines 209-217 throw on every input.
    When they pass, the data reach GSL; if GSL accepts them (timestamps
    strictly increasing, and at least three samples for the cubic spline),
    [interpolate] throws exactly when one of the four listed preconditions is
    violated (fewer than two samples, a channel length different from the
    number of timestamps, a query time outside the closed interval of the
    timestamps, a derivative order other than 0, 1, 2), and it returns a
    value otherwise; in particular a query time equal to the first or to the
    last timestamp is accepted, when the first timestamp is not after the
    last.  Nothing is asked of inputs that one of the three checks
    rejects. *)
Theorem interpolate_throws_iff_precondition_violated :
  forall (points times : list R) (time : R) (interp : interpolation) (d : Z),
    ((2 <= length points)%nat -> length points = length times ->
     get times 0 <= time <= get times (length times - 1) ->
     increasing times /\ (min_size interp <= length points)%nat) ->
    ((exists what, result (interpolate points times time interp d) = Throw what) <->
       precondition_violated points times time d) /\
    (~ precondition_violated points times time d ->
       exists v, result (interpolate points times time interp d) = Ret v) /\
    ((2 <= length points)%nat -> length points = length times ->
     (d = 0 \/ d = 1 \/ d = 2)%Z ->
     get times 0 <= get times (length times - 1) ->
     time = get times 0 \/ time = get times (length times - 1) ->
       exists v, result (interpolate points times time interp d) = Ret v).
Proof.
  intros points times time interp d Haccepted.
  assert (~ precondition_violated points times time d ->
          exists v, result (interpolate points times time interp d) = Ret v) as Hok.
  { intros Hno. unfold precondition_violated in Hno.
    assert (2 <= length points)%nat as Hn by lia.
    assert (length points = length times) as Hlen by lia.
    assert (get times 0 <= time <= get times (length times - 1)) as Hdom by lra.
    assert (d = 0 \/ d = 1 \/ d = 2)%Z as Hd by lia.
    destruct (Haccepted Hn Hlen Hdom) as [Hinc Hmin].
    destruct (interpolate_returns points times time interp d [] Hlen Hn Hmin Hinc Hdom Hd)
      as (c & _ & Hrun).
    eexists. unfold result. rewrite Hrun. reflexivity. }
  split; [|split; [exact Hok|]].
  - split.
    + intros [what Hthrow].
      destruct (precondition_violated_dec points times time d) as [|Hno];
        [assumption|].
      destruct (Hok Hno) as [v Hv]. congruence.
    + intros Hbad. unfold result.
      destruct (Nat.lt_ge_cases (length points) 2) as [Hfew|Hn].
      { rewrite interpolate_too_few by exact Hfew. eexists; reflexivity. }
      destruct (Nat.eq_dec (length points) (length times)) as [Hlen|Hne].
      2:{ rewrite interpolate_length_mismatch by assumption. eexists; reflexivity. }
      destruct (Rlt_dec time (get times 0)) as [Hlo|Hlo].
      { rewrite interpolate_outside by (try assumption; left; exact Hlo).
        eexists; reflexivity. }
      destruct (Rlt_dec (get times (length times - 1)) time) as [Hhi|Hhi].
      { rewrite interpolate_outside by (try assumption; right; exact Hhi).
        eexists; reflexivity. }
      assert (~ (d = 0 \/ d = 1 \/ d = 2)%Z) as Hd.
      { unfold precondition_violated in Hbad.
        destruct Hbad as [|[|[|[|]]]]; try assumption; try lia; try contradiction. }
      destruct (Haccepted Hn Hlen ltac:(lra)) as [Hinc Hmin].
      destruct (type_init_ok interp times points Hinc ltac:(lia)) as [c Hc].
      rewrite <- Hlen in Hc.
      rewrite (interpolate_run points times time interp d c [] Hlen Hn Hmin Hinc
                 ltac:(lra) Hc).
      cbv zeta. destruct d as [|[[|[]|]|[|[]|]|]|]; try (exfalso; lia);
        eexists; reflexivity.
  - intros Hn Hlen Hd Hends Hedge. apply Hok. unfold precondition_violated.
    intros [|[|[|[|]]]]; try lia; try contradiction;
      destruct Hedge; subst time; lra.
Qed.

Lemma interpolate_throws_iff_witness :
  exists v, result (interpolate [5; 7; 4] [0; 1; 3] 3 cubic_spline 1) = Ret v.
Proof.
  apply (interpolate_throws_iff_precondition_violated [5; 7; 4] [0; 1; 3] 3
           cubic_spline 1).
  - intros _ _ _. split; [apply increasing_three; lra | simpl; lia].
  - simpl. lia.
  - reflexivity.
  - right; left; reflexivity.
  - unfold get; simpl; lra.
  - right. reflexivity.
Defined.

(** Timestamps are strictly increasing, or two neighbours are not. *)
Lemma increasing_dec (x : list R) :
  {increasing x} +
  {exists i, (1 <= i < length x)%nat /\ ~ get x (i - 1) < get x i}.
Proof.
  assert (forall k, (k <= length x)%nat ->
            {forall i, (S i < k)%nat -> get x i < get x (S i)} +
            {exists i, (1 <= i < length x)%nat /\ ~ get x (i - 1) < get x i}) as Hk.
  { induction k as [|k IH]; intros Hle.
    - left. intros i Hi. lia.
    - destruct (IH ltac:(lia)) as [Hall|Hbad]; [|right; exact Hbad].
      destruct k as [|k]; [left; intros i Hi; lia|].
      destruct (Rlt_dec (get x k) (get x (S k))) as [Hlt|Hge].
      + left. intros i Hi. destruct (Nat.eq_dec i k) as [->|Hne];
          [exact Hlt | apply Hall; lia].
      + right. exists (S k). split; [lia|].
        replace (S k - 1)%nat with k by lia. exact Hge. }
  destruct (Hk (length x) (Nat.le_refl _)) as [Hall|Hbad]; [left | right; exact Hbad].
  intros i Hi. apply Hall. exact Hi.
Qed.

(** The hypothesis of C2 cannot be dropped: when the three checks pass and
    GSL refuses the data, the call ends in GSL's error handler whatever the
    derivative order is, and the equivalence of C2 fails. *)
Lemma interpolate_refused_data (points times : list R) (time : R)
    (interp : interpolation) (d : Z) :
  (2 <= length points)%nat -> length points = length times ->
  get times 0 <= time <= get times (length times - 1) ->
  ~ (increasing times /\ (min_size interp <= length points)%nat) ->
  (exists reason, result (interpolate points times time interp d) = GslError reason) /\
  ~ (((exists what, result (interpolate points times time interp d) = Throw what) <->
        precondition_violated points times time d) /\
     (~ precondition_violated points times time d ->
        exists v, result (interpolate points times time interp d) = Ret v)).
Proof.
  intros Hn Hlen Hdom Hrefused.
  assert (exists reason,
            result (interpolate points times time interp d) = GslError reason) as Herr.
  { unfold result.
    destruct (Nat.lt_ge_cases (length points) (min_size interp)) as [Hsmall|Hmin].
    - rewrite interpolate_alloc_fails by assumption. eexists; reflexivity.
    - destruct (increasing_dec times) as [Hinc|Hbad]; [exfalso; apply Hrefused; tauto|].
      rewrite interpolate_init_fails by assumption. eexists; reflexivity. }
  split; [exact Herr|]. destruct Herr as [reason Herr]. intros [Hiff Hret].
  destruct (precondition_violated_dec points times time d) as [Hbad|Hno].
  - destruct (proj2 Hiff Hbad) as [what Hthrow]. congruence.
  - destruct (Hret Hno) as [v Hv]. congruence.
Qed.

(** C2 as stated fails on data GSL refuses.  With the cubic-spline method on
    two samples, a call that violates none of the four preconditions returns
    no value (it ends in GSL's error handler), and a call with derivative
    order 3 does not throw (it ends there too, before the order is looked
    at).  The same happens with timestamps that are not strictly
    increasing.  And a query time equal to the first timestamp is rejected
    when the first timestamp is after the last. *)
Lemma interpolate_failure_not_iff_violation :
  (fails (result (interpolate [5; 7] [0; 1] 0 cubic_spline 0)) /\
   ~ precondition_violated [5; 7] [0; 1] 0 0) /\
  (precondition_violated [5; 7] [0; 1] 0 3 /\
   ~ exists what, result (interpolate [5; 7] [0; 1] 0 cubic_spline 3) = Throw what) /\
  (fails (result (interpolate [5; 7; 4] [0; 2; 1] 1 linear 0)) /\
   ~ precondition_violated [5; 7; 4] [0; 2; 1] 1 0) /\
  result (interpolate [5; 7] [3; 1] (get [3; 1] 0) linear 0) =
    Throw "Invalid gsl_interp_type time, outside of input times.".
Proof.
  assert (forall d, result (interpolate [5; 7] [0; 1] 0 cubic_spline d) =
                      GslError "insufficient number of points for interpolation type") as E.
  { intros d. unfold result. rewrite interpolate_alloc_fails; try reflexivity; simpl; try lia.
    unfold get; simpl; lra. }
  assert (result (interpolate [5; 7; 4] [0; 2; 1] 1 linear 0) =
            GslError "x values must be strictly increasing") as E'.
  { unfold result. rewrite interpolate_init_fails; try reflexivity; try (simpl; lia).
    - unfold get; simpl; lra.
    - exists 2%nat. split; [simpl; lia|]. unfold get; simpl; lra. }
  split; [split | split; [split | split; [split|]]].
  - rewrite E. exact I.
  - unfold precondition_violated, get. simpl. intros [|[|[|[|]]]]; try lia; try lra.
  - unfold precondition_violated. right; right; right; right. lia.
  - intros [what Hthrow]. rewrite E in Hthrow. discriminate.
  - rewrite E'. exact I.
  - unfold precondition_violated, get. simpl. intros [|[|[|[|]]]]; try lia; try lra.
  - unfold result. rewrite interpolate_outside.
    + reflexivity.
    + simpl; lia.
    + reflexivity.
    + right. unfold get; simpl; lra.
Qed.

(** ** The rotation pipeline *)

Section RotationPipeline.
Context {T : Type} `{Double T}.

Lemma zip4_length (r0 : list T) :
  forall r1 r2 r3,
    length r1 = length r0 -> length r2 = length r0 -> length r3 = length r0 ->
    length (zip4 r0 r1 r2 r3) = length r0.
Proof.
  induction r0 as [|w r0 IH]; intros [|x r1] [|y r2] [|z r3] H1 H2 H3;
    simpl in *; try lia.
  rewrite IH; lia.
Qed.

Lemma zip4_nth (d : T) (r0 : list T) :
  forall r1 r2 r3 i,
    length r1 = length r0 -> length r2 = length r0 -> length r3 = length r0 ->
    (i < length r0)%nat ->
    nth i (zip4 r0 r1 r2 r3) (d, d, d, d) = (nth i r0 d, nth i r1 d, nth i r2 d, nth i r3 d).
Proof.
  induction r0 as [|w r0 IH]; intros [|x r1] [|y r2] [|z r3] i H1 H2 H3 Hi;
    simpl in *; try lia.
  destruct i as [|i]; [reflexivity|]. apply IH; lia.
Qed.

Lemma nth_normalized_samples (f : list T -> T) (r0 r1 r2 r3 : list T) (i : nat) :
  length r1 = length r0 -> length r2 = length r0 -> length r3 = length r0 ->
  (i < length r0)%nat ->
  nth i (map f (map normalized_sample (zip4 r0 r1 r2 r3))) (dlit 0) =
    f (normalized (Quaterniond (get r0 i) (get r1 i) (get r2 i) (get r3 i))).
Proof.
  intros H1 H2 H3 Hi.
  rewrite (nth_indep _ (dlit 0)
             (f (normalized_sample (dlit 0, dlit 0, dlit 0, dlit 0))))
    by (rewrite !length_map, zip4_length; assumption).
  rewrite (map_nth f), (map_nth normalized_sample).
  rewrite zip4_nth by assumption. reflexivity.
Qed.

(** The loop leaves in the channels what the specification describes. *)
Lemma normalize_samples_spec (r0 r1 r2 r3 : list T) (tr : log) :
  length r1 = length r0 -> length r2 = length r0 -> length r3 = length r0 ->
  normalize_samples [r0; r1; r2; r3] tr =
    (Ret (let qs := map normalized_sample (zip4 r0 r1 r2 r3) in
          [map quat_w qs; map quat_x qs; map quat_y qs; map quat_z qs]),
     tr ++ repeat EvNormalize (length r0)).
Proof.
  intros H1 H2 H3.
  destruct (normalize_samples_ok r0 r1 r2 r3 tr ltac:(lia) ltac:(lia) ltac:(lia))
    as (b0 & b1 & b2 & b3 & Hrun & L0 & L1 & L2 & L3 & _ & Hin).
  rewrite Hrun. cbv zeta. f_equal. f_equal.
  assert (forall (f : list T -> T) (b : list T),
             length b = length r0 ->
             (forall i, (i < length r0)%nat ->
                get b i = f (normalized (Quaterniond (get r0 i) (get r1 i)
                                                     (get r2 i) (get r3 i)))) ->
             b = map f (map normalized_sample (zip4 r0 r1 r2 r3))) as Heq.
  { intros f b Hb Hget. apply nth_ext with (d := dlit 0) (d' := dlit 0).
    - rewrite !length_map, zip4_length; assumption.
    - intros i Hi. rewrite Hb in Hi.
      rewrite nth_normalized_samples by assumption. apply Hget. exact Hi. }
  f_equal; [|f_equal; [|f_equal; [|f_equal]]]; apply Heq; try lia;
    intros i Hi; apply (Hin i Hi).
Qed.

End RotationPipeline.

(** ** Normalisation over the reals *)

Lemma squaredNorm_four (a b c d : R) :
  squaredNorm [a; b; c; d] = 0 + a * a + b * b + c * c + d * d.
Proof. reflexivity. Qed.

Lemma normalized_unit (a b c d : R) :
  a * a + b * b + c * c + d * d = 1 -> normalized [a; b; c; d] = [a; b; c; d].
Proof.
  intros Hunit. unfold normalized. rewrite squaredNorm_four.
  replace (0 + a * a + b * b + c * c + d * d) with 1 by lra.
  unfold dgtb. cbn [dltb dlit ddiv dsqrt Double_R map].
  rewrite Rltb_true by lra. rewrite sqrt_1.
  repeat f_equal; field.
Qed.

Lemma normalized_zero : normalized [0; 0; 0; 0] = [0; 0; 0; 0].
Proof.
  unfold normalized. rewrite squaredNorm_four.
  unfold dgtb. cbn [dltb dlit Double_R]. rewrite Rltb_false by lra. reflexivity.
Qed.



(** ** [getRotation] and [getAngularVelocity] *)

Lemma getRotation_pipeline {T} `{Double T} (r0 r1 r2 r3 times : list T) (time : T)
    (interp : interpolation) (tr : log) :
  length r1 = length r0 -> length r2 = length r0 -> length r3 = length r0 ->
  let qs := map normalized_sample (zip4 r0 r1 r2 r3) in
  getRotation [r0; r1; r2; r3] times time interp tr =
    (q0 <- interpolate (map quat_w qs) times time interp 0 ;;
     q1 <- interpolate (map quat_x qs) times time interp 0 ;;
     q2 <- interpolate (map quat_y qs) times time interp 0 ;;
     q3 <- interpolate (map quat_z qs) times time interp 0 ;;
     normalize [q0; q1; q2; q3]) (tr ++ repeat EvNormalize (length r0)).
Proof.
  intros H1 H2 H3 qs. unfold getRotation. cbn [length Nat.eqb negb].
  rewrite (bind_eq _ (normalize_samples_spec r0 r1 r2 r3 tr H1 H2 H3)).
  reflexivity.
Qed.

Lemma getAngularVelocity_pipeline {T} `{Double T} (r0 r1 r2 r3 times : list T) (time : T)
    (interp : interpolation) (tr : log) :
  length r1 = length r0 -> length r2 = length r0 -> length r3 = length r0 ->
  let qs := map normalized_sample (zip4 r0 r1 r2 r3) in
  getAngularVelocity [r0; r1; r2; r3] times time interp tr =
    (q0 <- interpolate (map quat_w qs) times time interp 1 ;;
     q1 <- interpolate (map quat_x qs) times time interp 1 ;;
     q2 <- interpolate (map quat_y qs) times time interp 1 ;;
     q3 <- interpolate (map quat_z qs) times time interp 1 ;;
     normalize [q0; q1; q2; q3]) (tr ++ repeat EvNormalize (length r0)).
Proof.
  intros H1 H2 H3 qs. unfold getAngularVelocity. cbn [length Nat.eqb negb].
  rewrite (bind_eq _ (normalize_samples_spec r0 r1 r2 r3 tr H1 H2 H3)).
  reflexivity.
Qed.

(** A rotation that stays at one unit quaternion, linear method. *)
Lemma constant_rotation_linear (w x y z t0 t1 t : R) :
  w * w + x * x + y * y + z * z = 1 -> t0 < t < t1 ->
  result (getRotation [[w; w]; [x; x]; [y; y]; [z; z]] [t0; t1] t linear) =
    Ret [w; x; y; z] /\
  result (getAngularVelocity [[w; w]; [x; x]; [y; y]; [z; z]] [t0; t1] t linear) =
    Ret [0; 0; 0; 0].
Proof.
  intros Hunit Ht.
  assert (normalized (Quaterniond w x y z) = [x; y; z; w]) as Hq
    by (apply normalized_unit; lra).
  split; unfold result.
  - rewrite getRotation_pipeline by reflexivity.
    cbv zeta. cbn [zip4 map normalized_sample]. rewrite Hq.
    unfold quat_w, quat_x, quat_y, quat_z, get. cbn [nth].
    rewrite (bind_eq _ (interpolate_two_samples t0 w t1 w t 0 _ ltac:(lra) ltac:(lra))).
    rewrite (bind_eq _ (interpolate_two_samples t0 x t1 x t 0 _ ltac:(lra) ltac:(lra))).
    rewrite (bind_eq _ (interpolate_two_samples t0 y t1 y t 0 _ ltac:(lra) ltac:(lra))).
    rewrite (bind_eq _ (interpolate_two_samples t0 z t1 z t 0 _ ltac:(lra) ltac:(lra))).
    rewrite normalize_ok. cbn [fst]. f_equal.
    replace (w + (t - t0) / (t1 - t0) * (w - w)) with w by (field; lra).
    replace (x + (t - t0) / (t1 - t0) * (x - x)) with x by (field; lra).
    replace (y + (t - t0) / (t1 - t0) * (y - y)) with y by (field; lra).
    replace (z + (t - t0) / (t1 - t0) * (z - z)) with z by (field; lra).
    apply normalized_unit. exact Hunit.
  - rewrite getAngularVelocity_pipeline by reflexivity.
    cbv zeta. cbn [zip4 map normalized_sample]. rewrite Hq.
    unfold quat_w, quat_x, quat_y, quat_z, get. cbn [nth].
    rewrite (bind_eq _ (interpolate_two_samples t0 w t1 w t 1 _ ltac:(lra) ltac:(lra))).
    rewrite (bind_eq _ (interpolate_two_samples t0 x t1 x t 1 _ ltac:(lra) ltac:(lra))).
    rewrite (bind_eq _ (interpolate_two_samples t0 y t1 y t 1 _ ltac:(lra) ltac:(lra))).
    rewrite (bind_eq _ (interpolate_two_samples t0 z t1 z t 1 _ ltac:(lra) ltac:(lra))).
    rewrite normalize_ok. cbn [fst]. f_equal.
    replace ((w - w) / (t1 - t0)) with 0 by (field; lra).
    replace ((x - x) / (t1 - t0)) with 0 by (field; lra).
    replace ((y - y) / (t1 - t0)) with 0 by (field; lra).
    replace ((z - z) / (t1 - t0)) with 0 by (field; lra).
    apply normalized_zero.
Qed.


(** C6, as it holds.  On four channels of equal length [getRotation]
    normalises the quaternion of every sample index and writes it back, then
    interpolates the four channels one after the other, then normalises the
    four interpolated values; [getAngularVelocity] does the same with
    derivative order 1.  With the linear method, when both samples are one
    unit quaternion, [getRotation] returns that quaternion at every time
    strictly between the two timestamps and [getAngularVelocity] returns the
    zero 4-tuple. *)
Theorem rotation_normalize_interpolate_normalize :
  (forall (T : Type) (D : Double T) (r0 r1 r2 r3 times : list T) (time : T)
          (interp : interpolation) (tr : log),
      length r1 = length r0 -> length r2 = length r0 -> length r3 = length r0 ->
      let qs := map normalized_sample (zip4 r0 r1 r2 r3) in
      getRotation [r0; r1; r2; r3] times time interp tr =
        (q0 <- interpolate (map quat_w qs) times time interp 0 ;;
         q1 <- interpolate (map quat_x qs) times time interp 0 ;;
         q2 <- interpolate (map quat_y qs) times time interp 0 ;;
         q3 <- interpolate (map quat_z qs) times time interp 0 ;;
         normalize [q0; q1; q2; q3]) (tr ++ repeat EvNormalize (length r0)) /\
      getAngularVelocity [r0; r1; r2; r3] times time interp tr =
        (q0 <- interpolate (map quat_w qs) times time interp 1 ;;
         q1 <- interpolate (map quat_x qs) times time interp 1 ;;
         q2 <- interpolate (map quat_y qs) times time interp 1 ;;
         q3 <- interpolate (map quat_z qs) times time interp 1 ;;
         normalize [q0; q1; q2; q3]) (tr ++ repeat EvNormalize (length r0))) /\
  (forall w x y z t0 t1 t : R,
      w * w + x * x + y * y + z * z = 1 -> t0 < t < t1 ->
      result (getRotation [[w; w]; [x; x]; [y; y]; [z; z]] [t0; t1] t linear) =
        Ret [w; x; y; z] /\
      result (getAngularVelocity [[w; w]; [x; x]; [y; y]; [z; z]] [t0; t1] t linear) =
        Ret [0; 0; 0; 0]).
Proof.
  split.
  - intros T D r0 r1 r2 r3 times time interp tr H1 H2 H3 qs. split.
    + apply getRotation_pipeline; assumption.
    + apply getAngularVelocity_pipeline; assumption.
  - intros w x y z t0 t1 t Hunit Ht. apply constant_rotation_linear; assumption.
Qed.

Lemma rotation_normalize_interpolate_normalize_witness :
  result (getRotation [[3 / 5; 3 / 5]; [0; 0]; [4 / 5; 4 / 5]; [0; 0]] [0; 2] 1 linear) =
    Ret [3 / 5; 0; 4 / 5; 0] /\
  result (getAngularVelocity [[3 / 5; 3 / 5]; [0; 0]; [4 / 5; 4 / 5]; [0; 0]] [0; 2] 1
                             linear) = Ret [0; 0; 0; 0].
Proof.
  apply (proj2 rotation_normalize_interpolate_normalize (3 / 5) 0 (4 / 5) 0 0 2 1).
  - field.
  - lra.
Defined.

(** C6 as stated fails for the cubic-spline method: on two timestamps GSL
    refuses to build the spline, and the constant unit quaternion is not
    returned. *)
Lemma constant_rotation_spline_two_timestamps :
  result (getRotation [[1; 1]; [0; 0]; [0; 0]; [0; 0]] [0; 1] (1 / 2) cubic_spline) =
    GslError "insufficient number of points for interpolation type" /\
  result (getRotation [[1; 1]; [0; 0]; [0; 0]; [0; 0]] [0; 1] (1 / 2) cubic_spline) <>
    Ret [1; 0; 0; 0].
Proof.
  assert (result (getRotation [[1; 1]; [0; 0]; [0; 0]; [0; 0]] [0; 1] (1 / 2)
                              cubic_spline) =
            GslError "insufficient number of points for interpolation type") as E.
  { unfold result. rewrite getRotation_pipeline by reflexivity.
    cbv zeta. unfold bind.
    rewrite interpolate_alloc_fails; try reflexivity; simpl; try lia.
    unfold get; simpl; lra. }
  split; [exact E|]. rewrite E. discriminate.
Qed.




(** * The same definitions run in binary64

    The examples of the specification, evaluated with IEEE 754 double
    precision arithmetic instead of real arithmetic. *)

Section Binary64.
Local Open Scope float_scope.

Example getPosition_binary64 :
  getPosition [[0; 1]; [0; 0]; [0; 0]] [0; 10] 5 linear [] =
    (Ret [0.5; 0; 0],
     interpolate_calls linear 2 0 ++ interpolate_calls linear 2 0
       ++ interpolate_calls linear 2 0).
Proof. vm_compute. reflexivity. Qed.

Example getVelocity_binary64 :
  result (getVelocity [[0; 1]; [0; 0]; [0; 0]] [0; 10] 2.5 linear) = Ret [1 / 10; 0; 0].
Proof. vm_compute. reflexivity. Qed.

Example polynomial_binary64 :
  result (getPosition_coeffs [[1; 2]; [0]; [1; 2; 3]] 3) = Ret [7; 0; 34] /\
  result (getVelocity_coeffs [[1; 2]; [0]; [1; 2; 3]] 3) = Ret [2; 0; 20] /\
  result (evaluatePolynomial [1; 2] 3 2) = Ret 0 /\
  result (evaluatePolynomial [] 3 0) = Throw "Invalid input coeffs, must be non-empty." /\
  result (evaluatePolynomial [1; 2] 3 (-1)) =
    Throw "Invalid derivative degree, must be non-negative.".
Proof. vm_compute. repeat split. Qed.

Example polynomial_order_int_max_binary64 :
  result (evaluatePolynomial [1; 2] 3 2147483647) =
    Throw "cannot create std::vector larger than max_size()" /\
  result (evaluatePolynomial [1; 2] 3 5) = Ret 0.
Proof. vm_compute. repeat split. Qed.

Example constant_rotation_binary64 :
  result (getRotation [[1; 1]; [0; 0]; [0; 0]; [0; 0]] [0; 1] 0.5 linear) =
    Ret [1; 0; 0; 0] /\
  result (getAngularVelocity [[1; 1]; [0; 0]; [0; 0]; [0; 0]] [0; 1] 0.5 linear) =
    Ret [0; 0; 0; 0] /\
  result (getRotation [[1; 1]; [0; 0]; [0; 0]; [0; 0]] [0; 1] 0.5 cubic_spline) =
    GslError "insufficient number of points for interpolation type".
Proof. vm_compute. repeat split. Qed.

Example spline_binary64 :
  result (interpolate [0; 1; 4; 9; 16] [0; 1; 2; 3; 4] 2 cubic_spline 0) = Ret 4 /\
  result (interpolate [0; 1; 4; 9; 16] [0; 1; 2; 3; 4] 4 cubic_spline 0) = Ret 16 /\
  result (interpolate [5; 7] [0; 1] 0 cubic_spline 0) =
    GslError "insufficient number of points for interpolation type".
Proof. vm_compute. repeat split. Qed.

Example unordered_timestamps_binary64 :
  result (interpolate [1; 2; 3] [0; 2; 1] 0.5 linear 0) =
    GslError "x values must be strictly increasing".
Proof. vm_compute. reflexivity. Qed.

Example invalid_order_binary64 :
  interpolate [0; 1] [0; 1] 0 linear 3 [] =
    (Throw "Invalid derivitive option, must be 0, 1 or 2.",
     [EvInterpAlloc linear 2; EvInterpInit; EvAccelAlloc]).
Proof. vm_compute. reflexivity. Qed.

Example short_channel_binary64 :
  getRotation [[1; 1]; [0]; [0; 0]; [0; 0]] [0; 1] 0.5 linear [] =
    (OutOfRange, [EvNormalize]).
Proof. vm_compute. reflexivity. Qed.

End Binary64.

(** * Further properties of the code *)

(** ** GSL objects are freed *)

Lemma live_app (a b : log) : live (a ++ b) = (live a + live b)%Z.
Proof.
  induction a as [|e a IH]; cbn [app live]; [lia|].
  destruct e; rewrite IH; lia.
Qed.

Lemma gsl_step_ret {A} (a : A) : gsl_step 0 (ret a).
Proof. intros tr. cbn. lia. Qed.

Lemma gsl_step_gsl_error {A} (k : Z) (r : string) : gsl_step k (@gsl_error A r).
Proof. intros tr. exact I. Qed.

Lemma gsl_step_call (e : event) :
  gsl_step (live [e]) (call e).
Proof. intros tr. cbn [call fst snd]. apply live_app. Qed.

Lemma gsl_step_bind {A B} (j k : Z) (m : M A) (f : A -> M B) :
  gsl_step j m -> (forall a, gsl_step k (f a)) -> gsl_step (j + k) (bind m f).
Proof.
  intros Hm Hf tr. specialize (Hm tr). unfold bind.
  destruct (m tr) as [[a| | |] tr']; cbn [fst snd] in *; try exact I; try contradiction.
  specialize (Hf a tr'). destruct (fst (f a tr')); try exact I; try contradiction. lia.
Qed.

Lemma gsl_step_eq {A} (j k : Z) (m : M A) : j = k -> gsl_step j m -> gsl_step k m.
Proof. intros ->. trivial. Qed.

Lemma gsl_step_for_rangeM {St : Type} (body : nat -> St -> M St) :
  (forall i s, gsl_step 0 (body i s)) ->
  forall count lo s, gsl_step 0 (for_rangeM lo count body s).
Proof.
  intros Hbody. induction count as [|c IH]; intros lo s; cbn [for_rangeM].
  - apply gsl_step_ret.
  - apply (gsl_step_bind 0 0); [apply Hbody | intros s'; apply IH].
Qed.

Lemma balanced_of_step {A} (m : M A) : gsl_step 0 m -> balanced m.
Proof.
  intros Hm tr. specialize (Hm tr).
  destruct (fst (m tr)); try exact I; try contradiction. lia.
Qed.

Lemma balanced_throw {A} (w : string) : balanced (@throw A w).
Proof. intros tr. reflexivity. Qed.

Lemma balanced_bind {A B} (m : M A) (f : A -> M B) :
  balanced m -> (forall a, balanced (f a)) -> balanced (bind m f).
Proof.
  intros Hm Hf tr. specialize (Hm tr). unfold bind.
  destruct (m tr) as [[a| | |] tr']; cbn [fst snd] in *; try exact I; try assumption.
  specialize (Hf a tr'). destruct (fst (f a tr')); try exact I; lia.
Qed.

Lemma gsl_step_at {A} (v : list A) (i : nat) : gsl_step 0 (at_ v i).
Proof.
  unfold at_. destruct (nth_error v i); [apply gsl_step_ret | intros tr; exact I].
Qed.

Lemma gsl_step_set_at {A} (v : list A) (i : nat) (x : A) : gsl_step 0 (set_at v i x).
Proof.
  unfold set_at. destruct (i <? length v)%nat; [apply gsl_step_ret | intros tr; exact I].
Qed.

Section Freed.
Context {T : Type} `{Double T}.

Lemma gsl_step_solve_tridiag (diag offdiag b x : list T) (N : nat) :
  gsl_step 0 (solve_tridiag diag offdiag b x N).
Proof.
  unfold solve_tridiag.
  destruct (for_range 1 (N - 2) _ _) as [[alpha gamma] status].
  destruct status; [apply gsl_step_gsl_error | apply gsl_step_ret].
Qed.

Lemma gsl_step_cspline_init (xa ya : list T) (size : nat) :
  gsl_step 0 (cspline_init xa ya size).
Proof.
  unfold cspline_init.
  destruct (for_range 0 (size - 1 - 1) _ _) as [[offdiag diag] g].
  destruct (size - 1 - 1 =? 1)%nat; [apply gsl_step_ret|].
  apply (gsl_step_bind 0 0);
    [apply gsl_step_solve_tridiag | intros sol; apply gsl_step_ret].
Qed.

Lemma gsl_step_alloc (ty : interpolation) (size : nat) :
  gsl_step 1 (gsl_interp_alloc (T := T) ty size).
Proof.
  unfold gsl_interp_alloc. destruct (size <? min_size ty)%nat;
    [apply gsl_step_gsl_error|].
  apply (gsl_step_bind 1 0);
    [apply (gsl_step_call (EvInterpAlloc ty size)) | intros _; apply gsl_step_ret].
Qed.

Lemma gsl_step_init (interp : gsl_interp T) (x_array y_array : list T) (size : nat) :
  gsl_step 0 (gsl_interp_init interp x_array y_array size).
Proof.
  unfold gsl_interp_init.
  destruct (negb (size =? interp_size interp)%nat); [apply gsl_step_gsl_error|].
  apply (gsl_step_bind 0 0).
  - apply gsl_step_for_rangeM. intros i s.
    destruct (negb (get x_array (i - 1) <? get x_array i)%D);
      [apply gsl_step_gsl_error | apply gsl_step_ret].
  - intros _. apply (gsl_step_bind 0 0).
    + destruct (interp_type interp); [apply gsl_step_ret | apply gsl_step_cspline_init].
    + intros c. apply (gsl_step_bind 0 0);
        [apply (gsl_step_call EvInterpInit) | intros _; apply gsl_step_ret].
Qed.

Lemma gsl_step_eval (d : Z) (interp : gsl_interp T) (xa ya : list T) (x : T)
    (a : gsl_interp_accel) :
  (d = 0 \/ d = 1 \/ d = 2)%Z ->
  gsl_step 0
    match d with
    | 0%Z => gsl_interp_eval interp xa ya x a
    | 1%Z => gsl_interp_eval_deriv interp xa ya x a
    | 2%Z => gsl_interp_eval_deriv2 interp xa ya x a
    | _ => throw "Invalid derivitive option, must be 0, 1 or 2."
    end.
Proof.
  intros [-> | [-> | ->]];
    unfold gsl_interp_eval, gsl_interp_eval_deriv, gsl_interp_eval_deriv2;
    (destruct ((x <? xmin interp)%D || (x >? xmax interp)%D);
     [apply gsl_step_gsl_error|]);
    apply (gsl_step_bind 0 0);
    try (intros _; apply gsl_step_ret).
  - apply (gsl_step_call (EvInterpEval 0)).
  - apply (gsl_step_call (EvInterpEval 1)).
  - apply (gsl_step_call (EvInterpEval 2)).
Qed.

Lemma balanced_interpolate (points times : list T) (time : T) (interp : interpolation)
    (d : Z) :
  (d = 0 \/ d = 1 \/ d = 2)%Z ->
  balanced (interpolate points times time interp d).
Proof.
  intros Hd. unfold interpolate.
  destruct (length points <? 2)%nat; [apply balanced_throw|].
  destruct (negb (length points =? length times)%nat); [apply balanced_throw|].
  apply balanced_bind; [apply balanced_of_step, gsl_step_at|]. intros t_front.
  apply balanced_bind; [apply balanced_of_step, gsl_step_at|]. intros t_back.
  destruct ((time <? t_front)%D || (time >? t_back)%D); [apply balanced_throw|].
  apply balanced_of_step.
  apply (gsl_step_eq (1 + (0 + (1 + (0 + (-1 + (-1 + 0))))))); [reflexivity|].
  apply gsl_step_bind; [apply gsl_step_alloc|]. intros it.
  apply gsl_step_bind; [apply gsl_step_init|]. intros it'.
  apply gsl_step_bind;
    [apply (gsl_step_bind 1 0);
       [apply (gsl_step_call EvAccelAlloc) | intros _; apply gsl_step_ret]|].
  intros acc.
  apply gsl_step_bind; [apply gsl_step_eval; exact Hd|]. intros v.
  apply gsl_step_bind; [apply (gsl_step_call EvInterpFree)|]. intros _.
  apply gsl_step_bind; [apply (gsl_step_call EvAccelFree)|]. intros _.
  apply gsl_step_ret.
Qed.

End Freed.

(** X1: for every scalar type and every input, a call of [interpolate] with
    derivative order 0, 1 or 2 that returns or throws has freed the
    interpolator and the accelerator it allocated. *)
Theorem interpolate_frees_what_it_allocates :
  forall (T : Type) (D : Double T) (points times : list T) (time : T)
         (interp : interpolation) (d : Z),
    (d = 0 \/ d = 1 \/ d = 2)%Z ->
    balanced (interpolate points times time interp d).
Proof.
  intros T D points times time interp d Hd. apply balanced_interpolate. exact Hd.
Qed.

Lemma interpolate_frees_what_it_allocates_witness :
  balanced (interpolate [5; 7; 4] [0; 1; 3] 2 cubic_spline 1).
Proof.
  apply (interpolate_frees_what_it_allocates R Double_R [5; 7; 4] [0; 1; 3] 2
           cubic_spline 1).
  right; left; reflexivity.
Defined.

Section FreedOperations.
Context {T : Type} `{Double T}.

Lemma gsl_step_at2 (rotations : list (list T)) (c i : nat) : gsl_step 0 (at2 rotations c i).
Proof.
  unfold at2. apply (gsl_step_bind 0 0); [apply gsl_step_at | intros ch; apply gsl_step_at].
Qed.

Lemma gsl_step_set_at2 (rotations : list (list T)) (c i : nat) (v : T) :
  gsl_step 0 (set_at2 rotations c i v).
Proof.
  unfold set_at2. apply (gsl_step_bind 0 0); [apply gsl_step_at|]. intros ch.
  apply (gsl_step_bind 0 0); [apply gsl_step_set_at | intros ch'; apply gsl_step_set_at].
Qed.

Lemma gsl_step_normalize (v : list T) : gsl_step 0 (normalize v).
Proof.
  unfold normalize. apply (gsl_step_bind 0 0);
    [apply (gsl_step_call EvNormalize) | intros _; apply gsl_step_ret].
Qed.

Lemma gsl_step_normalize_sample (i : nat) (rotations : list (list T)) :
  gsl_step 0 (normalize_sample i rotations).
Proof.
  unfold normalize_sample.
  repeat (apply (gsl_step_bind 0 0); [apply gsl_step_at2 | intros ?]).
  apply (gsl_step_bind 0 0); [apply gsl_step_normalize | intros ?].
  repeat (apply (gsl_step_bind 0 0); [apply gsl_step_set_at2 | intros ?]).
  apply gsl_step_set_at2.
Qed.

Lemma balanced_normalize_samples (rotations : list (list T)) :
  balanced (normalize_samples rotations).
Proof.
  apply balanced_of_step. unfold normalize_samples.
  apply (gsl_step_bind 0 0); [apply gsl_step_at|]. intros r0.
  apply gsl_step_for_rangeM. intros i s. apply gsl_step_normalize_sample.
Qed.

Lemma balanced_three (chans : list (list T)) (times : list T) (time : T)
    (interp : interpolation) (d : Z) :
  (d = 0 \/ d = 1 \/ d = 2)%Z ->
  balanced (c0 <- at_ chans 0 ;;
            x <- interpolate c0 times time interp d ;;
            c1 <- at_ chans 1 ;;
            y <- interpolate c1 times time interp d ;;
            c2 <- at_ chans 2 ;;
            z <- interpolate c2 times time interp d ;;
            ret [x; y; z]).
Proof.
  intros Hd.
  repeat (apply balanced_bind; [apply balanced_of_step, gsl_step_at | intros ?];
          apply balanced_bind; [apply balanced_interpolate; exact Hd | intros ?]).
  apply balanced_of_step, gsl_step_ret.
Qed.

Lemma balanced_four (rotations : list (list T)) (times : list T) (time : T)
    (interp : interpolation) (d : Z) :
  (d = 0 \/ d = 1 \/ d = 2)%Z ->
  balanced (rotations <- normalize_samples rotations ;;
            r0 <- at_ rotations 0 ;;
            q0 <- interpolate r0 times time interp d ;;
            r1 <- at_ rotations 1 ;;
            q1 <- interpolate r1 times time interp d ;;
            r2 <- at_ rotations 2 ;;
            q2 <- interpolate r2 times time interp d ;;
            r3 <- at_ rotations 3 ;;
            q3 <- interpolate r3 times time interp d ;;
            normalize [q0; q1; q2; q3]).
Proof.
  intros Hd.
  apply balanced_bind; [apply balanced_normalize_samples | intros ?].
  repeat (apply balanced_bind; [apply balanced_of_step, gsl_step_at | intros ?];
          apply balanced_bind; [apply balanced_interpolate; exact Hd | intros ?]).
  apply balanced_of_step, gsl_step_normalize.
Qed.

End FreedOperations.

(** X2: for every scalar type and every input, each of the four tabulated
    operations that returns or throws has freed every interpolator and
    accelerator it allocated: the operations only ask for the derivative
    orders 0 and 1. *)
Theorem operations_free_what_they_allocate :
  forall (T : Type) (D : Double T) (chans : list (list T)) (times : list T) (time : T)
         (interp : interpolation),
    balanced (getPosition chans times time interp) /\
    balanced (getVelocity chans times time interp) /\
    balanced (getRotation chans times time interp) /\
    balanced (getAngularVelocity chans times time interp).
Proof.
  intros T D chans times time interp.
  unfold getPosition, getVelocity, getRotation, getAngularVelocity.
  repeat split.
  - destruct (negb (length chans =? 3)%nat); [apply balanced_throw|].
    apply balanced_three. left; reflexivity.
  - destruct (negb (length chans =? 3)%nat); [apply balanced_throw|].
    apply balanced_three. right; left; reflexivity.
  - destruct (negb (length chans =? 4)%nat); [apply balanced_throw|].
    apply balanced_four. left; reflexivity.
  - destruct (negb (length chans =? 4)%nat); [apply balanced_throw|].
    apply balanced_four. right; left; reflexivity.
Qed.

(** ** Between two consecutive samples *)

Lemma accel_find_bracket (xa : list R) (i : nat) (x : R) :
  increasing xa -> (i + 1 < length xa)%nat ->
  get xa i <= x <= get xa (i + 1) ->
  let j := fst (gsl_interp_accel_find fresh_accel xa (length xa) x) in
  (j + 1 < length xa)%nat /\ (j = i \/ (j = S i /\ x = get xa (S i))).
Proof.
  intros Hinc Hi [Hlo Hhi] j.
  destruct (accel_find_spec xa (length xa) x ltac:(lia)) as (Hj & Hle & Hcase).
  { apply Rle_trans with (get xa i); [|exact Hlo].
    apply increasing_le; [assumption | lia]. }
  fold j in Hj, Hle, Hcase. split; [exact Hj|].
  replace (i + 1)%nat with (S i) in * by lia.
  assert (j <= S i)%nat as Hju.
  { destruct (Nat.le_gt_cases j (S i)) as [|Hgt]; [assumption|].
    pose proof (increasing_lt xa Hinc (S i) j ltac:(lia)). lra. }
  assert (i <= j)%nat as Hjl.
  { destruct (Nat.le_gt_cases i j) as [|Hgt]; [assumption|].
    destruct Hcase as [Hlt|Hlast]; [|lia].
    pose proof (increasing_le xa Hinc (j + 1)%nat i ltac:(lia)). lra. }
  destruct (Nat.eq_dec j i) as [|Hne]; [left; assumption|].
  right. assert (j = S i) as -> by lia. split; [reflexivity | lra].
Qed.

Lemma accel_find_interior (xa : list R) (i : nat) (x : R) :
  increasing xa -> (i + 1 < length xa)%nat ->
  get xa i < x < get xa (i + 1) ->
  fst (gsl_interp_accel_find fresh_accel xa (length xa) x) = i.
Proof.
  intros Hinc Hi [Hlo Hhi].
  destruct (accel_find_bracket xa i x Hinc Hi ltac:(lra)) as (_ & [Hj | [_ Hx]]).
  - exact Hj.
  - replace (i + 1)%nat with (S i) in Hhi by lia. lra.
Qed.

Lemma linear_eval_bracket (xa ya : list R) (i : nat) (x : R) :
  increasing xa -> (i + 1 < length xa)%nat ->
  get xa i <= x <= get xa (i + 1) ->
  linear_eval xa ya (length xa) x fresh_accel =
    get ya i + (get ya (i + 1) - get ya i) * (x - get xa i) / (get xa (i + 1) - get xa i).
Proof.
  intros Hinc Hi Hx. unfold linear_eval.
  destruct (accel_find_bracket xa i x Hinc Hi Hx) as (Hj & Hcase). cbv zeta in Hj, Hcase.
  set (j := fst (gsl_interp_accel_find fresh_accel xa (length xa) x)) in *.
  assert (get xa j < get xa (j + 1)) as Hdx
    by (apply increasing_lt; [assumption | lia]).
  assert (get xa i < get xa (i + 1)) as Hdi
    by (apply increasing_lt; [assumption | lia]).
  unfold dgtb. cbn [dltb dsub dadd dmul ddiv dlit Double_R].
  rewrite Rltb_true by lra.
  destruct Hcase as [Hji | [Hji Hxi]].
  - rewrite Hji. field. lra.
  - rewrite Hji in *. rewrite Hxi.
    replace (i + 1)%nat with (S i) in * by lia. field. lra.
Qed.

Lemma in_range_of_bracket (times : list R) (i : nat) (t : R) :
  increasing times -> (i + 1 < length times)%nat ->
  get times i <= t <= get times (i + 1) ->
  get times 0 <= t <= get times (length times - 1).
Proof.
  intros Hinc Hi [Hlo Hhi]. split.
  - apply Rle_trans with (get times i); [|exact Hlo].
    apply increasing_le; [assumption | lia].
  - apply Rle_trans with (get times (i + 1)); [exact Hhi|].
    apply increasing_le; [assumption | lia].
Qed.

Lemma interpolate_linear_bracket (points times : list R) (i : nat) (t : R) :
  length points = length times ->
  increasing times -> (i + 1 < length times)%nat ->
  get times i <= t <= get times (i + 1) ->
  result (interpolate points times t linear 0) =
    Ret (get points i +
         (get points (i + 1) - get points i) * (t - get times i)
         / (get times (i + 1) - get times i)).
Proof.
  intros Hlen Hinc Hi Ht. unfold result.
  destruct (interpolate_returns points times t linear 0 [] Hlen ltac:(lia)
              ltac:(simpl; lia) Hinc (in_range_of_bracket times i t Hinc Hi Ht)
              ltac:(lia)) as (c & _ & Hrun).
  rewrite Hrun. cbn [fst Z.to_nat interp_value]. f_equal.
  rewrite Hlen. apply linear_eval_bracket; assumption.
Qed.

(** X3: with the linear method and derivative order 0, on any number of
    samples with strictly increasing timestamps, a query time between two
    consecutive timestamps gets the value of the straight line through the
    two samples at those timestamps. *)
Theorem linear_interpolation_between_samples :
  forall (points times : list R) (i : nat) (t : R),
    length points = length times ->
    increasing times -> (i + 1 < length times)%nat ->
    get times i <= t <= get times (i + 1) ->
    result (interpolate points times t linear 0) =
      Ret (get points i +
           (get points (i + 1) - get points i) * (t - get times i)
           / (get times (i + 1) - get times i)).
Proof.
  intros points times i t Hlen Hinc Hi Ht.
  apply interpolate_linear_bracket; assumption.
Qed.

Lemma linear_interpolation_between_samples_witness :
  result (interpolate [5; 7; 4] [0; 1; 3] 2 linear 0) =
    Ret (get [5; 7; 4] 1 +
         (get [5; 7; 4] (1 + 1) - get [5; 7; 4] 1) * (2 - get [0; 1; 3] 1)
         / (get [0; 1; 3] (1 + 1) - get [0; 1; 3] 1)).
Proof.
  apply (linear_interpolation_between_samples [5; 7; 4] [0; 1; 3] 1 2).
  - reflexivity.
  - apply increasing_three; lra.
  - simpl; lia.
  - unfold get; simpl; lra.
Defined.

(** X4: with the linear method the value returned never leaves the range of
    the two samples that bracket the query time, and at the timestamp of a
    sample it is the value of that sample. *)
Theorem linear_interpolation_no_overshoot :
  forall (points times : list R) (i : nat) (t : R),
    length points = length times ->
    increasing times -> (i + 1 < length times)%nat ->
    get times i <= t <= get times (i + 1) ->
    (exists v, result (interpolate points times t linear 0) = Ret v /\
               Rmin (get points i) (get points (i + 1)) <= v <=
               Rmax (get points i) (get points (i + 1))) /\
    result (interpolate points times (get times i) linear 0) = Ret (get points i) /\
    result (interpolate points times (get times (i + 1)) linear 0) =
      Ret (get points (i + 1)).
Proof.
  intros points times i t Hlen Hinc Hi Ht.
  assert (get times i < get times (i + 1)) as Hdt
    by (apply increasing_lt; [assumption | lia]).
  split; [|split].
  - eexists. split; [apply interpolate_linear_bracket; eassumption|].
    set (y0 := get points i). set (y1 := get points (i + 1)).
    set (lam := (t - get times i) / (get times (i + 1) - get times i)).
    assert (0 <= lam <= 1) as Hlam.
    { unfold lam. split.
      - apply Rmult_le_pos; [lra|]. left. apply Rinv_0_lt_compat. lra.
      - apply Rmult_le_reg_r with (get times (i + 1) - get times i); [lra|].
        unfold Rdiv. rewrite Rmult_assoc, Rinv_l by lra. lra. }
    replace (y0 + (y1 - y0) * (t - get times i) / (get times (i + 1) - get times i))
      with (y0 + lam * (y1 - y0)) by (unfold lam; field; lra).
    unfold Rmin, Rmax. destruct (Rle_dec y0 y1); nra.
  - rewrite (interpolate_linear_bracket points times i (get times i)) by (try assumption; lra).
    f_equal. field. lra.
  - rewrite (interpolate_linear_bracket points times i (get times (i + 1)))
      by (try assumption; lra).
    f_equal. field. lra.
Qed.

Lemma linear_interpolation_no_overshoot_witness :
  exists v, result (interpolate [5; 7; 4] [0; 1; 3] 2 linear 0) = Ret v /\
            Rmin (get [5; 7; 4] 1) (get [5; 7; 4] (1 + 1)) <= v <=
            Rmax (get [5; 7; 4] 1) (get [5; 7; 4] (1 + 1)).
Proof.
  apply (linear_interpolation_no_overshoot [5; 7; 4] [0; 1; 3] 1 2).
  - reflexivity.
  - apply increasing_three; lra.
  - simpl; lia.
  - unfold get; simpl; lra.
Defined.

(** ** Derivatives with respect to the query time *)

Lemma derivable_pt_lim_local (f g : R -> R) (a b t l : R) :
  a < t < b -> (forall u, a < u < b -> f u = g u) ->
  derivable_pt_lim g t l -> derivable_pt_lim f t l.
Proof.
  intros [Ha Hb] Hfg Hg eps Heps. destruct (Hg eps Heps) as [delta Hd].
  assert (0 < Rmin delta (Rmin (t - a) (b - t))) as Hpos.
  { apply Rmin_glb_lt; [apply cond_pos | apply Rmin_glb_lt; lra]. }
  exists (mkposreal _ Hpos). intros h Hh Hlt. cbn [pos] in Hlt.
  assert (Rabs h < delta) as H1 by (eapply Rlt_le_trans; [exact Hlt | apply Rmin_l]).
  assert (Rabs h < Rmin (t - a) (b - t)) as H2
    by (eapply Rlt_le_trans; [exact Hlt | apply Rmin_r]).
  assert (Rabs h < t - a) as H3 by (eapply Rlt_le_trans; [exact H2 | apply Rmin_l]).
  assert (Rabs h < b - t) as H4 by (eapply Rlt_le_trans; [exact H2 | apply Rmin_r]).
  apply Rabs_def2 in H3, H4.
  rewrite (Hfg (t + h)) by lra. rewrite (Hfg t) by lra.
  apply Hd; assumption.
Qed.

Lemma derivable_pt_lim_shift (cs : list R) (a t : R) :
  derivable_pt_lim (fun u => polynomial cs (u - a)) t (polynomial (pderiv cs) (t - a)).
Proof.
  apply derivable_pt_lim_ext with (f := comp (polynomial cs) (id - fct_cte a)%F).
  - intros u. reflexivity.
  - replace (polynomial (pderiv cs) (t - a))
      with (polynomial (pderiv cs) (t - a) * (1 - 0)) by ring.
    apply derivable_pt_lim_comp.
    + apply derivable_pt_lim_minus; [apply derivable_pt_lim_id | apply derivable_pt_lim_const].
    + apply polynomial_deriv.
Qed.

Lemma interp_value_piece (ty : interpolation) (d : nat) (c xa ya : list R) (i : nat)
    (u : R) :
  increasing xa -> (i + 1 < length xa)%nat -> (d <= 2)%nat ->
  get xa i < u < get xa (i + 1) ->
  interp_value ty d c xa ya (length xa) u =
    polynomial (Nat.iter d pderiv (piece ty c xa ya i)) (u - get xa i).
Proof.
  intros Hinc Hi Hd Hu.
  assert (get xa i < get xa (i + 1)) as Hdx by lra.
  destruct ty; destruct d as [|[|[|d]]]; try lia;
    cbn [interp_value];
    unfold linear_eval, linear_eval_deriv, linear_eval_deriv2,
           cspline_eval, cspline_eval_deriv, cspline_eval_deriv2;
    rewrite ?(accel_find_interior xa i u Hinc Hi Hu);
    unfold dgtb, coeff_calc, piece; cbn [dltb dsub dadd dmul ddiv dlit Double_R];
    rewrite ?Rltb_true by lra;
    unfold coeff_calc; cbn [dltb dsub dadd dmul ddiv dlit Double_R];
    cbv [Nat.iter nat_rect pderiv tl pderiv_from polynomial poly_sum];
    cbn [INR pow]; try (field; lra).
Qed.

(** Inside an interval between two timestamps the interpolant of order
    [d + 1] is the derivative of the interpolant of order [d]. *)
Lemma interp_value_deriv (ty : interpolation) (d : nat) (c xa ya : list R) (i : nat)
    (t : R) :
  increasing xa -> (i + 1 < length xa)%nat -> (d <= 1)%nat ->
  get xa i < t < get xa (i + 1) ->
  derivable_pt_lim (fun u => interp_value ty d c xa ya (length xa) u) t
                   (interp_value ty (S d) c xa ya (length xa) t).
Proof.
  intros Hinc Hi Hd Ht.
  apply derivable_pt_lim_local with
    (g := fun u => polynomial (Nat.iter d pderiv (piece ty c xa ya i)) (u - get xa i))
    (a := get xa i) (b := get xa (i + 1)); [exact Ht | |].
  - intros u Hu. apply interp_value_piece; try assumption. lia.
  - rewrite (interp_value_piece ty (S d) c xa ya i t Hinc Hi ltac:(lia) Ht).
    change (Nat.iter (S d) pderiv (piece ty c xa ya i))
      with (pderiv (Nat.iter d pderiv (piece ty c xa ya i))).
    apply derivable_pt_lim_shift.
Qed.

Lemma interpolate_curve (points times : list R) (interp : interpolation) :
  length points = length times ->
  (2 <= length points)%nat -> (min_size interp <= length points)%nat ->
  increasing times ->
  exists c,
    forall (u : R) (d : Z) (tr : log),
      get times 0 <= u <= get times (length times - 1) ->
      (d = 0 \/ d = 1 \/ d = 2)%Z ->
      interpolate points times u interp d tr =
        (Ret (interp_value interp (Z.to_nat d) c times points (length times) u),
         tr ++ interpolate_calls interp (length times) (Z.to_nat d)).
Proof.
  intros Hlen Hn Hmin Hinc.
  destruct (type_init_ok interp times points Hinc ltac:(lia)) as [c Hc].
  rewrite <- Hlen in Hc. exists c. intros u d tr Hu Hd.
  rewrite (interpolate_run points times u interp d c tr Hlen Hn Hmin Hinc Hu Hc).
  rewrite Hlen. destruct Hd as [-> | [-> | ->]]; reflexivity.
Qed.

(** X5: strictly between two consecutive timestamps, what [interpolate]
    returns for derivative order 1 is the derivative with respect to the query
    time of what it returns for order 0, and what it returns for order 2 is
    the derivative of what it returns for order 1, for both methods. *)
Theorem interpolate_orders_are_derivatives :
  forall (points times : list R) (interp : interpolation) (i : nat) (t : R),
    length points = length times ->
    (min_size interp <= length times)%nat ->
    increasing times -> (i + 1 < length times)%nat ->
    get times i < t < get times (i + 1) ->
    exists p v a : R -> R,
      (forall u, get times i < u < get times (i + 1) ->
         result (interpolate points times u interp 0) = Ret (p u) /\
         result (interpolate points times u interp 1) = Ret (v u) /\
         result (interpolate points times u interp 2) = Ret (a u)) /\
      derivable_pt_lim p t (v t) /\
      derivable_pt_lim v t (a t).
Proof.
  intros points times interp i t Hlen Hmin Hinc Hi Ht.
  destruct (interpolate_curve points times interp Hlen ltac:(lia) ltac:(lia) Hinc)
    as [c Hc].
  exists (fun u => interp_value interp 0 c times points (length times) u),
         (fun u => interp_value interp 1 c times points (length times) u),
         (fun u => interp_value interp 2 c times points (length times) u).
  split; [|split].
  - intros u Hu.
    assert (get times 0 <= u <= get times (length times - 1)) as Hr
      by (apply (in_range_of_bracket times i u Hinc Hi); lra).
    unfold result.
    rewrite (Hc u 0%Z [] Hr ltac:(lia)), (Hc u 1%Z [] Hr ltac:(lia)),
            (Hc u 2%Z [] Hr ltac:(lia)).
    repeat split.
  - apply (interp_value_deriv interp 0 c times points i t Hinc Hi ltac:(lia) Ht).
  - apply (interp_value_deriv interp 1 c times points i t Hinc Hi ltac:(lia) Ht).
Qed.

Lemma interpolate_orders_are_derivatives_witness :
  exists p v a : R -> R,
    (forall u, get [0; 1; 3] 1 < u < get [0; 1; 3] (1 + 1) ->
       result (interpolate [5; 7; 4] [0; 1; 3] u cubic_spline 0) = Ret (p u) /\
       result (interpolate [5; 7; 4] [0; 1; 3] u cubic_spline 1) = Ret (v u) /\
       result (interpolate [5; 7; 4] [0; 1; 3] u cubic_spline 2) = Ret (a u)) /\
    derivable_pt_lim p 2 (v 2) /\
    derivable_pt_lim v 2 (a 2).
Proof.
  apply (interpolate_orders_are_derivatives [5; 7; 4] [0; 1; 3] cubic_spline 1 2).
  - reflexivity.
  - simpl; lia.
  - apply increasing_three; lra.
  - simpl; lia.
  - unfold get; simpl; lra.
Defined.

(** X6: strictly between two consecutive timestamps, each component of the
    tabulated [getVelocity] is the derivative with respect to the query time
    of the same component of the tabulated [getPosition], for both
    methods. *)
Theorem tabulated_velocity_is_derivative_of_position :
  forall (c0 c1 c2 times : list R) (interp : interpolation) (i : nat) (t : R),
    length c0 = length times -> length c1 = length times -> length c2 = length times ->
    (min_size interp <= length times)%nat ->
    increasing times -> (i + 1 < length times)%nat ->
    get times i < t < get times (i + 1) ->
    exists px py pz vx vy vz : R -> R,
      (forall u, get times i < u < get times (i + 1) ->
         result (getPosition [c0; c1; c2] times u interp) = Ret [px u; py u; pz u] /\
         result (getVelocity [c0; c1; c2] times u interp) = Ret [vx u; vy u; vz u]) /\
      derivable_pt_lim px t (vx t) /\
      derivable_pt_lim py t (vy t) /\
      derivable_pt_lim pz t (vz t).
Proof.
  intros c0 c1 c2 times interp i t L0 L1 L2 Hmin Hinc Hi Ht.
  destruct (interpolate_curve c0 times interp L0 ltac:(lia) ltac:(lia) Hinc) as [s0 H0].
  destruct (interpolate_curve c1 times interp L1 ltac:(lia) ltac:(lia) Hinc) as [s1 H1].
  destruct (interpolate_curve c2 times interp L2 ltac:(lia) ltac:(lia) Hinc) as [s2 H2].
  exists (fun u => interp_value interp 0 s0 times c0 (length times) u),
         (fun u => interp_value interp 0 s1 times c1 (length times) u),
         (fun u => interp_value interp 0 s2 times c2 (length times) u),
         (fun u => interp_value interp 1 s0 times c0 (length times) u),
         (fun u => interp_value interp 1 s1 times c1 (length times) u),
         (fun u => interp_value interp 1 s2 times c2 (length times) u).
  split; [|split; [|split]].
  - intros u Hu.
    assert (get times 0 <= u <= get times (length times - 1)) as Hr
      by (apply (in_range_of_bracket times i u Hinc Hi); lra).
    unfold result. rewrite getPosition_three, getVelocity_three. split.
    + rewrite (bind_eq _ (H0 u 0%Z _ Hr ltac:(lia))).
      rewrite (bind_eq _ (H1 u 0%Z _ Hr ltac:(lia))).
      rewrite (bind_eq _ (H2 u 0%Z _ Hr ltac:(lia))). reflexivity.
    + rewrite (bind_eq _ (H0 u 1%Z _ Hr ltac:(lia))).
      rewrite (bind_eq _ (H1 u 1%Z _ Hr ltac:(lia))).
      rewrite (bind_eq _ (H2 u 1%Z _ Hr ltac:(lia))). reflexivity.
  - apply (interp_value_deriv interp 0 s0 times c0 i t Hinc Hi ltac:(lia) Ht).
  - apply (interp_value_deriv interp 0 s1 times c1 i t Hinc Hi ltac:(lia) Ht).
  - apply (interp_value_deriv interp 0 s2 times c2 i t Hinc Hi ltac:(lia) Ht).
Qed.

Lemma tabulated_velocity_is_derivative_witness :
  exists px py pz vx vy vz : R -> R,
    (forall u, get [0; 1; 3] 0 < u < get [0; 1; 3] (0 + 1) ->
       result (getPosition [[5; 7; 4]; [0; 0; 1]; [2; 1; 0]] [0; 1; 3] u cubic_spline) =
         Ret [px u; py u; pz u] /\
       result (getVelocity [[5; 7; 4]; [0; 0; 1]; [2; 1; 0]] [0; 1; 3] u cubic_spline) =
         Ret [vx u; vy u; vz u]) /\
    derivable_pt_lim px (1 / 2) (vx (1 / 2)) /\
    derivable_pt_lim py (1 / 2) (vy (1 / 2)) /\
    derivable_pt_lim pz (1 / 2) (vz (1 / 2)).
Proof.
  apply (tabulated_velocity_is_derivative_of_position
           [5; 7; 4] [0; 0; 1] [2; 1; 0] [0; 1; 3] cubic_spline 0 (1 / 2));
    try reflexivity; try (simpl; lia).
  - apply increasing_three; lra.
  - unfold get; simpl; lra.
Defined.

(** ** The cubic spline through samples on a straight line *)

Lemma get_upd_zero (l : list R) (i : nat) (v : R) :
  (forall j, get l j = 0) -> v = 0 -> forall j, get (upd l i v) j = 0.
Proof.
  intros Hl -> j. unfold get.
  destruct (Nat.eq_dec i j) as [<-|Hne].
  - destruct (Nat.lt_ge_cases i (length l)) as [Hi|Hi].
    + apply nth_upd_same; exact Hi.
    + apply nth_overflow. rewrite length_upd. exact Hi.
  - rewrite nth_upd_other by exact Hne. apply Hl.
Qed.

Lemma get_repeat_zero (n j : nat) : get (repeat (dlit 0) n) j = 0.
Proof. unfold get. apply nth_repeat. Qed.

Lemma zero_Forall (l : list R) : (forall j, get l j = 0) -> Forall (fun v => v = 0) l.
Proof.
  intros Hl. apply Forall_nth. intros i d Hi.
  rewrite (nth_indep l d (dlit 0) Hi). apply Hl.
Qed.

Lemma Forall_zero (l : list R) : Forall (fun v => v = 0) l -> forall j, get l j = 0.
Proof.
  intros Hl j. unfold get. destruct (Nat.lt_ge_cases j (length l)) as [Hj|Hj].
  - apply (proj1 (Forall_nth _ l) Hl); exact Hj.
  - apply nth_overflow; exact Hj.
Qed.

Lemma Forall_firstn_skipn {A} (P : A -> Prop) (k : nat) (l : list A) :
  Forall P l -> Forall P (firstn k l) /\ Forall P (skipn k l).
Proof.
  intros Hl. rewrite <- (firstn_skipn k l) in Hl. apply Forall_app in Hl. exact Hl.
Qed.

(** With a right-hand side of zeros the solver returns zeros. *)
Lemma solve_tridiag_zero (diag offdiag b x0 sol : list R) (N : nat) (tr tr' : log) :
  (forall i, get b i = 0) -> (forall i, get x0 i = 0) ->
  solve_tridiag diag offdiag b x0 N tr = (Ret sol, tr') ->
  forall i, get sol i = 0.
Proof.
  intros Hb Hx. unfold solve_tridiag.
  destruct (for_range 1 (N - 2) _ _) as [[alpha gamma] status].
  set (alpha' := if (1 <? N)%nat then _ else alpha).
  set (z := for_range 1 (N - 1) _ _).
  set (c := for_range 0 N _ _).
  assert (forall i, get z i = 0) as Hz.
  { unfold z. apply (for_range_inv (fun _ z => forall i, get z i = 0)).
    - apply get_upd_zero; [apply get_repeat_zero | apply Hb].
    - intros i z' _ Hz'. apply get_upd_zero; [exact Hz'|].
      cbn [dsub dmul Double_R]. rewrite Hb, Hz'. ring. }
  assert (forall i, get c i = 0) as Hc.
  { unfold c. apply (for_range_inv (fun _ c => forall i, get c i = 0)).
    - apply get_repeat_zero.
    - intros i c' _ Hc'. apply get_upd_zero; [exact Hc'|].
      cbn [ddiv Double_R]. rewrite Hz. unfold Rdiv. ring. }
  assert (forall i, get (upd x0 (N - 1) (get c (N - 1))) i = 0) as Hx1
    by (apply get_upd_zero; [exact Hx | apply Hc]).
  destruct status; [discriminate|].
  destruct (2 <=? N)%nat; unfold ret; intros E; injection E as <- _; [|exact Hx1].
  apply (for_range_inv (fun _ x => forall i, get x i = 0)).
  - exact Hx1.
  - intros j x' _ Hx'. apply get_upd_zero; [exact Hx'|].
    cbn [dsub dmul Double_R]. rewrite Hc, Hx'. ring.
Qed.

(** For samples on a straight line the right-hand side of the spline's system
    is zero, and so is every entry of the array [c] that [cspline_init]
    leaves. *)
Lemma cspline_init_straight (xa ya c : list R) (a m : R) (tr tr' : log) :
  increasing xa -> (3 <= length xa)%nat ->
  (forall i, (i < length xa)%nat -> get ya i = a + m * get xa i) ->
  cspline_init xa ya (length xa) tr = (Ret c, tr') ->
  forall j, get c j = 0.
Proof.
  intros Hinc Hn Hya. unfold cspline_init.
  set (c0 := upd (upd (repeat (dlit 0) (length xa)) 0 (dlit 0)) (length xa - 1) (dlit 0)).
  assert (forall j, get c0 j = 0) as Hc0.
  { unfold c0. apply get_upd_zero; [|reflexivity].
    apply get_upd_zero; [|reflexivity]. apply get_repeat_zero. }
  match goal with
  | |- context [for_range 0 ?k ?body ?init] =>
      assert (forall j, get (snd (for_range 0 k body init)) j = 0) as Hg
  end.
  { apply (for_range_inv (fun _ s => forall j, get (snd s) j = 0)).
    - cbn [snd]. apply get_repeat_zero.
    - intros i [[o d] g] Hi Hg. cbn [snd] in *. apply get_upd_zero; [exact Hg|].
      pose proof (increasing_lt xa Hinc i (i + 1) ltac:(lia)).
      pose proof (increasing_lt xa Hinc (i + 1) (i + 2) ltac:(lia)).
      unfold dneb. cbn [deqb dsub dmul ddiv dlit Double_R].
      rewrite !Reqb_false by lra. cbn [negb].
      rewrite (Hya i), (Hya (i + 1)%nat), (Hya (i + 2)%nat) by lia.
      field. lra. }
  destruct (for_range 0 (length xa - 1 - 1) _ _) as [[offdiag diag] g].
  cbn [snd] in Hg.
  destruct (length xa - 1 - 1 =? 1)%nat.
  - unfold ret. intros E. injection E as <- _.
    apply get_upd_zero; [exact Hc0|].
    cbn [ddiv Double_R]. rewrite Hg. unfold Rdiv. ring.
  - unfold bind.
    destruct (solve_tridiag diag offdiag g _ _ tr) as [[sol| | |] tr1] eqn:E;
      try discriminate.
    unfold ret. intros E'. injection E' as <- _.
    pose proof (zero_Forall c0 Hc0) as Hall.
    apply Forall_zero. constructor; [|apply Forall_app; split].
    + destruct c0 as [|v r]; [reflexivity|]. exact (Hc0 0%nat).
    + apply zero_Forall. refine (solve_tridiag_zero _ _ _ _ _ _ _ _ Hg _ E).
      apply Forall_zero. apply Forall_firstn_skipn.
      destruct c0 as [|v r]; [constructor|]. inversion Hall; assumption.
    + exact (proj2 (Forall_firstn_skipn _ (S (length xa - 1 - 1)) c0 Hall)).
Qed.

Lemma interp_value_straight (ty : interpolation) (d : nat) (c xa ya : list R) (a m t : R) :
  increasing xa -> (2 <= length xa)%nat -> get xa 0 <= t ->
  (forall i, (i < length xa)%nat -> get ya i = a + m * get xa i) ->
  (forall j, get c j = 0) ->
  interp_value ty d c xa ya (length xa) t =
    match d with 0%nat => a + m * t | 1%nat => m | _ => 0 end.
Proof.
  intros Hinc Hn Hlo Hya Hc.
  destruct (accel_find_spec xa (length xa) t Hn Hlo) as (Hj & _ & _).
  cbv zeta in Hj.
  assert (get xa (fst (gsl_interp_accel_find fresh_accel xa (length xa) t)) <
          get xa (fst (gsl_interp_accel_find fresh_accel xa (length xa) t) + 1)) as Hdx
    by (apply increasing_lt; [assumption | lia]).
  destruct ty; destruct d as [|[|d]]; cbn [interp_value];
    unfold linear_eval, linear_eval_deriv, linear_eval_deriv2,
           cspline_eval, cspline_eval_deriv, cspline_eval_deriv2, coeff_calc;
    set (j := fst (gsl_interp_accel_find fresh_accel xa (length xa) t)) in *;
    unfold dgtb; cbn [dltb dsub dadd dmul ddiv dlit Double_R];
    try rewrite Rltb_true by lra;
    try rewrite (Hya j), (Hya (j + 1)%nat) by lia;
    rewrite ?Hc; try reflexivity; field; lra.
Qed.

Lemma interpolate_straight (points times : list R) (interp : interpolation) (a m t : R)
    (d : Z) (tr : log) :
  length points = length times ->
  (min_size interp <= length times)%nat ->
  increasing times ->
  (forall i, (i < length times)%nat -> get points i = a + m * get times i) ->
  get times 0 <= t <= get times (length times - 1) ->
  (d = 0 \/ d = 1 \/ d = 2)%Z ->
  interpolate points times t interp d tr =
    (Ret (match d with 0%Z => a + m * t | 1%Z => m | _ => 0 end),
     tr ++ interpolate_calls interp (length times) (Z.to_nat d)).
Proof.
  intros Hlen Hmin Hinc Hline Ht Hd.
  assert (2 <= length times)%nat as Hn by (destruct interp; cbn [min_size] in Hmin; lia).
  destruct (type_init_ok interp times points Hinc Hmin) as [c Hc].
  assert (forall j, get c j = 0) as Hzero.
  { destruct interp; cbn [type_init] in Hc.
    - specialize (Hc []). unfold ret in Hc. injection Hc as <-. apply get_repeat_zero.
    - apply (cspline_init_straight times points c a m [] [] Hinc Hmin Hline (Hc [])). }
  rewrite <- Hlen in Hc.
  rewrite (interpolate_run points times t interp d c tr Hlen ltac:(lia) ltac:(lia)
             Hinc Ht Hc).
  rewrite Hlen.
  destruct Hd as [-> | [-> | ->]]; cbv zeta;
    rewrite (interp_value_straight interp _ c times points a m t Hinc Hn (proj1 Ht)
               Hline Hzero); reflexivity.
Qed.

(** X7: on samples that lie on one straight line [a + m * t], on any number
    of strictly increasing timestamps the method accepts, both methods return
    [a + m * t] for derivative order 0, the slope [m] for order 1 and 0 for
    order 2, at every query time between the first and the last timestamp:
    the natural cubic spline adds no curvature to linear data. *)
Theorem interpolation_reproduces_straight_line :
  forall (points times : list R) (interp : interpolation) (a m t : R),
    length points = length times ->
    (min_size interp <= length times)%nat ->
    increasing times ->
    (forall i, (i < length times)%nat -> get points i = a + m * get times i) ->
    get times 0 <= t <= get times (length times - 1) ->
    result (interpolate points times t interp 0) = Ret (a + m * t) /\
    result (interpolate points times t interp 1) = Ret m /\
    result (interpolate points times t interp 2) = Ret 0.
Proof.
  intros points times interp a m t Hlen Hmin Hinc Hline Ht. unfold result.
  rewrite (interpolate_straight points times interp a m t 0 [] Hlen Hmin Hinc Hline Ht
             ltac:(lia)).
  rewrite (interpolate_straight points times interp a m t 1 [] Hlen Hmin Hinc Hline Ht
             ltac:(lia)).
  rewrite (interpolate_straight points times interp a m t 2 [] Hlen Hmin Hinc Hline Ht
             ltac:(lia)).
  repeat split.
Qed.

Lemma interpolation_reproduces_straight_line_witness :
  result (interpolate [1; 3; 7; 8] [0; 1; 3; 7 / 2] 2 cubic_spline 0) = Ret (1 + 2 * 2) /\
  result (interpolate [1; 3; 7; 8] [0; 1; 3; 7 / 2] 2 cubic_spline 1) = Ret 2 /\
  result (interpolate [1; 3; 7; 8] [0; 1; 3; 7 / 2] 2 cubic_spline 2) = Ret 0.
Proof.
  apply (interpolation_reproduces_straight_line [1; 3; 7; 8] [0; 1; 3; 7 / 2]
           cubic_spline 1 2 2).
  - reflexivity.
  - simpl; lia.
  - intros [|[|[|[|i]]]] Hi; unfold get; simpl in *; try lra; lia.
  - intros [|[|[|[|i]]]] Hi; unfold get; simpl in *; try lra; lia.
  - unfold get; simpl; lra.
Defined.

(** ** A rotation that does not change *)

Lemma normalized_positive (a b c d : R) :
  0 < euclidean_norm [a; b; c; d] ->
  normalized [a; b; c; d] =
    [a / euclidean_norm [a; b; c; d]; b / euclidean_norm [a; b; c; d];
     c / euclidean_norm [a; b; c; d]; d / euclidean_norm [a; b; c; d]].
Proof.
  intros Hpos. unfold normalized. rewrite squaredNorm_four.
  unfold euclidean_norm in *. cbn [fold_right] in *.
  replace (0 + a * a + b * b + c * c + d * d)
    with (a * a + (b * b + (c * c + (d * d + 0)))) by ring.
  set (q := a * a + (b * b + (c * c + (d * d + 0)))) in *.
  assert (0 < q) as Hq.
  { destruct (Rlt_le_dec 0 q) as [|Hle]; [assumption|].
    rewrite (sqrt_neg_0 q Hle) in Hpos. lra. }
  unfold dgtb. cbn [dltb dlit ddiv dsqrt Double_R map].
  rewrite Rltb_true by exact Hq. reflexivity.
Qed.

Lemma constant_rotation (w x y z : R) (times : list R) (t : R) (interp : interpolation) :
  (min_size interp <= length times)%nat ->
  increasing times ->
  get times 0 <= t <= get times (length times - 1) ->
  let n := length times in
  let q := normalized (Quaterniond w x y z) in
  result (getRotation [repeat w n; repeat x n; repeat y n; repeat z n] times t interp) =
    Ret (normalized [quat_w q; quat_x q; quat_y q; quat_z q]) /\
  result (getAngularVelocity [repeat w n; repeat x n; repeat y n; repeat z n] times t
                             interp) = Ret [0; 0; 0; 0].
Proof.
  intros Hmin Hinc Ht n q.
  assert (forall (f : list R -> R) (d : Z) (tr : log),
             (d = 0 \/ d = 1 \/ d = 2)%Z ->
             interpolate (map f (map normalized_sample
                                     (zip4 (repeat w n) (repeat x n) (repeat y n)
                                           (repeat z n)))) times t interp d tr =
               (Ret (match d with 0%Z => f q + 0 * t | 1%Z => 0 | _ => 0 end),
                tr ++ interpolate_calls interp (length times) (Z.to_nat d))) as Hrun.
  { intros f d tr Hd. apply interpolate_straight; try assumption.
    - rewrite !length_map, zip4_length; rewrite ?repeat_length; reflexivity.
    - intros i Hi. unfold get at 1.
      rewrite nth_normalized_samples by (rewrite ?repeat_length; auto).
      unfold get. rewrite !(nth_repeat_lt _ _ Hi). fold q. ring. }
  split; unfold result.
  - rewrite getRotation_pipeline by (rewrite !repeat_length; reflexivity). cbv zeta.
    rewrite (bind_eq _ (Hrun quat_w 0%Z _ ltac:(lia))).
    rewrite (bind_eq _ (Hrun quat_x 0%Z _ ltac:(lia))).
    rewrite (bind_eq _ (Hrun quat_y 0%Z _ ltac:(lia))).
    rewrite (bind_eq _ (Hrun quat_z 0%Z _ ltac:(lia))).
    rewrite normalize_ok. cbn [fst].
    replace (quat_w q + 0 * t) with (quat_w q) by ring.
    replace (quat_x q + 0 * t) with (quat_x q) by ring.
    replace (quat_y q + 0 * t) with (quat_y q) by ring.
    replace (quat_z q + 0 * t) with (quat_z q) by ring.
    reflexivity.
  - rewrite getAngularVelocity_pipeline by (rewrite !repeat_length; reflexivity). cbv zeta.
    rewrite (bind_eq _ (Hrun quat_w 1%Z _ ltac:(lia))).
    rewrite (bind_eq _ (Hrun quat_x 1%Z _ ltac:(lia))).
    rewrite (bind_eq _ (Hrun quat_y 1%Z _ ltac:(lia))).
    rewrite (bind_eq _ (Hrun quat_z 1%Z _ ltac:(lia))).
    rewrite normalize_ok. cbn [fst]. f_equal. apply normalized_zero.
Qed.

Lemma normalized_quaternion (w x y z : R) :
  0 < euclidean_norm [w; x; y; z] ->
  let s := euclidean_norm [w; x; y; z] in
  let q := normalized (Quaterniond w x y z) in
  normalized [quat_w q; quat_x q; quat_y q; quat_z q] = [w / s; x / s; y / s; z / s].
Proof.
  intros Hpos s q.
  assert (euclidean_norm [x; y; z; w] = s) as Hperm.
  { unfold s, euclidean_norm. cbn [fold_right]. f_equal. ring. }
  assert (q = [x / s; y / s; z / s; w / s]) as Hq.
  { unfold q, Quaterniond. rewrite normalized_positive by (rewrite Hperm; exact Hpos).
    rewrite Hperm. reflexivity. }
  rewrite Hq. unfold quat_w, quat_x, quat_y, quat_z, get. cbn [nth].
  apply normalized_unit.
  assert (s * s = w * w + (x * x + (y * y + (z * z + 0)))) as Hs.
  { unfold s, euclidean_norm. cbn [fold_right]. apply sqrt_sqrt. nra. }
  fold s in Hpos.
  replace (w / s * (w / s) + x / s * (x / s) + y / s * (y / s) + z / s * (z / s))
    with ((w * w + (x * x + (y * y + (z * z + 0)))) / (s * s)) by (field; lra).
  rewrite <- Hs. field. nra.
Qed.

(** X8: when every sample is one and the same quaternion (w, x, y, z) of
    positive norm, on any number of strictly increasing timestamps the method
    accepts, [getRotation] returns that quaternion divided by its norm and
    [getAngularVelocity] returns the zero 4-tuple, with the linear method and
    with the cubic spline, at every query time between the first and the last
    timestamp. *)
Theorem constant_rotation_is_returned :
  forall (w x y z : R) (times : list R) (t : R) (interp : interpolation),
    (min_size interp <= length times)%nat ->
    increasing times ->
    get times 0 <= t <= get times (length times - 1) ->
    0 < euclidean_norm [w; x; y; z] ->
    let n := length times in
    let s := euclidean_norm [w; x; y; z] in
    result (getRotation [repeat w n; repeat x n; repeat y n; repeat z n] times t interp) =
      Ret [w / s; x / s; y / s; z / s] /\
    result (getAngularVelocity [repeat w n; repeat x n; repeat y n; repeat z n] times t
                               interp) = Ret [0; 0; 0; 0].
Proof.
  intros w x y z times t interp Hmin Hinc Ht Hpos n s.
  destruct (constant_rotation w x y z times t interp Hmin Hinc Ht) as [Hrot Hvel].
  split; [|exact Hvel].
  fold n in Hrot. rewrite Hrot. f_equal. apply normalized_quaternion. exact Hpos.
Qed.

Lemma constant_rotation_is_returned_witness :
  let n := length [0; 1; 3] in
  let s := euclidean_norm [3; 0; 4; 0] in
  result (getRotation [repeat 3 n; repeat 0 n; repeat 4 n; repeat 0 n] [0; 1; 3] 2
                      cubic_spline) = Ret [3 / s; 0 / s; 4 / s; 0 / s] /\
  result (getAngularVelocity [repeat 3 n; repeat 0 n; repeat 4 n; repeat 0 n] [0; 1; 3] 2
                             cubic_spline) = Ret [0; 0; 0; 0].
Proof.
  apply (constant_rotation_is_returned 3 0 4 0 [0; 1; 3] 2 cubic_spline).
  - simpl; lia.
  - apply increasing_three; lra.
  - unfold get; simpl; lra.
  - unfold euclidean_norm. cbn [fold_right]. apply sqrt_lt_R0. lra.
Defined.

(** ** Samples that are not unit quaternions *)

Lemma normalized_scale (k a b c d : R) :
  0 < k -> normalized [k * a; k * b; k * c; k * d] = normalized [a; b; c; d].
Proof.
  intros Hk. unfold normalized. rewrite !squaredNorm_four.
  set (q := 0 + a * a + b * b + c * c + d * d).
  replace (0 + k * a * (k * a) + k * b * (k * b) + k * c * (k * c) + k * d * (k * d))
    with (k * k * q) by (unfold q; ring).
  assert (0 <= q) as Hq by (unfold q; nra).
  unfold dgtb. cbn [dltb dlit ddiv dsqrt Double_R map].
  destruct (Rltb_spec 0 q) as [Hpos|Hzero].
  - assert (0 < k * k) as Hkk by nra.
    rewrite (Rltb_true 0 (k * k * q)) by (apply Rmult_lt_0_compat; assumption).
    rewrite sqrt_mult by lra. rewrite sqrt_square by lra.
    pose proof (sqrt_lt_R0 q Hpos). set (s := R_sqrt.sqrt q) in *.
    replace (k * a / (k * s)) with (a / s) by (field; lra).
    replace (k * b / (k * s)) with (b / s) by (field; lra).
    replace (k * c / (k * s)) with (c / s) by (field; lra).
    replace (k * d / (k * s)) with (d / s) by (field; lra).
    reflexivity.
  - assert (q = 0) as Hq0 by lra.
    rewrite Rltb_false by (rewrite Hq0; lra).
    assert (a = 0) by (unfold q in Hq0; nra).
    assert (b = 0) by (unfold q in Hq0; nra).
    assert (c = 0) by (unfold q in Hq0; nra).
    assert (d = 0) by (unfold q in Hq0; nra).
    subst a b c d. rewrite !Rmult_0_r. reflexivity.
Qed.







(** ** The ends of the natural spline *)

Lemma solve_tridiag_length (diag offdiag b x0 sol : list R) (N : nat) (tr tr' : log) :
  solve_tridiag diag offdiag b x0 N tr = (Ret sol, tr') -> length sol = length x0.
Proof.
  unfold solve_tridiag.
  destruct (for_range 1 (N - 2) _ _) as [[alpha gamma] status].
  destruct status; [discriminate|].
  destruct (2 <=? N)%nat; unfold ret; intros E; injection E as <- _.
  - apply (for_range_inv (fun _ x => length x = length x0)).
    + apply length_upd.
    + intros j x' _ Hx'. rewrite length_upd. exact Hx'.
  - apply length_upd.
Qed.

(** The array [c] that [cspline_init] leaves is zero at both ends: the
    spline is the natural one. *)
Lemma cspline_init_ends (xa ya c : list R) (tr tr' : log) :
  (3 <= length xa)%nat ->
  cspline_init xa ya (length xa) tr = (Ret c, tr') ->
  get c 0 = 0 /\ get c (length xa - 1) = 0.
Proof.
  intros Hn. unfold cspline_init.
  set (c0 := upd (upd (repeat (dlit 0) (length xa)) 0 (dlit 0)) (length xa - 1) (dlit 0)).
  assert (forall j, get c0 j = 0) as Hc0.
  { unfold c0. apply get_upd_zero; [|reflexivity].
    apply get_upd_zero; [|reflexivity]. apply get_repeat_zero. }
  assert (length c0 = length xa) as Lc0
    by (unfold c0; rewrite !length_upd, repeat_length; reflexivity).
  destruct (for_range 0 (length xa - 1 - 1) _ _) as [[offdiag diag] g].
  destruct (Nat.eqb_spec (length xa - 1 - 1) 1) as [H3|_].
  - unfold ret. intros E. injection E as <- _. unfold get.
    rewrite !nth_upd_other by lia. split; apply Hc0.
  - unfold bind.
    destruct (solve_tridiag diag offdiag g _ _ tr) as [[sol| | |] tr1] eqn:E;
      try discriminate.
    pose proof (Forall_zero _ (proj2 (Forall_firstn_skipn _ (S (length xa - 1 - 1)) c0
                                       (zero_Forall c0 Hc0)))) as Hrest.
    set (rest := skipn (S (length xa - 1 - 1)) c0) in *.
    unfold ret. intros E'. injection E' as <- _.
    apply solve_tridiag_length in E.
    rewrite length_firstn in E.
    assert (length (tl c0) = (length xa - 1)%nat) as Ltl
      by (destruct c0; cbn [tl length] in *; lia).
    split.
    + destruct c0 as [|v r]; [reflexivity|]. exact (Hc0 0%nat).
    + unfold get. replace (length xa - 1)%nat with (S (length xa - 2)) by lia.
      cbn [nth]. rewrite app_nth2 by lia. apply Hrest.
Qed.

Lemma cspline_eval_deriv2_ends (c xa ya : list R) :
  increasing xa -> (2 <= length xa)%nat ->
  get c 0 = 0 -> get c (length xa - 1) = 0 ->
  cspline_eval_deriv2 c xa ya (length xa) (get xa 0) fresh_accel = 0 /\
  cspline_eval_deriv2 c xa ya (length xa) (get xa (length xa - 1)) fresh_accel = 0.
Proof.
  intros Hinc Hn Hfirst Hlast. split; unfold cspline_eval_deriv2.
  - destruct (accel_find_at_sample xa 0 Hinc Hn ltac:(lia)) as (Hj & Hcase).
    cbv zeta in Hj, Hcase.
    set (j := fst (gsl_interp_accel_find fresh_accel xa (length xa) (get xa 0))) in *.
    assert (j = 0%nat) as Hj0 by (destruct Hcase as [|[? _]]; lia).
    assert (get xa j < get xa (j + 1)) as Hdx
      by (apply increasing_lt; [assumption | lia]).
    unfold dgtb, coeff_calc. cbn [dltb dsub dadd dmul ddiv dlit Double_R].
    rewrite Rltb_true by lra. rewrite Hj0 in *. rewrite Hfirst. field. lra.
  - destruct (accel_find_at_sample xa (length xa - 1) Hinc Hn ltac:(lia)) as (Hj & Hcase).
    cbv zeta in Hj, Hcase.
    set (j := fst (gsl_interp_accel_find fresh_accel xa (length xa)
                     (get xa (length xa - 1)))) in *.
    assert (length xa - 1 = j + 1)%nat as Hj1 by (destruct Hcase as [|[? _]]; lia).
    assert (get xa j < get xa (j + 1)) as Hdx
      by (apply increasing_lt; [assumption | lia]).
    unfold dgtb, coeff_calc. cbn [dltb dsub dadd dmul ddiv dlit Double_R].
    rewrite Rltb_true by lra. rewrite Hj1 in *. rewrite Hlast. field. lra.
Qed.

(** X10: the cubic spline built by [interpolate] is the natural one: on at
    least three samples with strictly increasing timestamps, whatever the
    sample values, the second derivative returned at the first and at the
    last timestamp is 0. *)
Theorem spline_second_derivative_zero_at_ends :
  forall (points times : list R),
    length points = length times ->
    (3 <= length times)%nat ->
    increasing times ->
    result (interpolate points times (get times 0) cubic_spline 2) = Ret 0 /\
    result (interpolate points times (get times (length times - 1)) cubic_spline 2) = Ret 0.
Proof.
  intros points times Hlen Hn Hinc.
  destruct (type_init_ok cubic_spline times points Hinc Hn) as [c Hc].
  destruct (cspline_init_ends times points c [] [] Hn (Hc [])) as [Hfirst Hlast].
  destruct (cspline_eval_deriv2_ends c times points Hinc ltac:(lia) Hfirst Hlast)
    as [E0 E1].
  rewrite <- Hlen in Hc.
  assert (get times 0 <= get times (length times - 1)) as Hle
    by (apply increasing_le; [assumption | lia]).
  unfold result. split.
  - rewrite (interpolate_run points times (get times 0) cubic_spline 2 c []
               Hlen ltac:(lia) ltac:(cbn [min_size]; lia) Hinc ltac:(lra) Hc).
    cbv zeta. cbn [fst interp_value]. rewrite Hlen, E0. reflexivity.
  - rewrite (interpolate_run points times (get times (length times - 1)) cubic_spline 2 c []
               Hlen ltac:(lia) ltac:(cbn [min_size]; lia) Hinc ltac:(lra) Hc).
    cbv zeta. cbn [fst interp_value]. rewrite Hlen, E1. reflexivity.
Qed.

Lemma spline_second_derivative_zero_at_ends_witness :
  result (interpolate [5; 7; 4; 6] [0; 1; 3; 4] (get [0; 1; 3; 4] 0) cubic_spline 2) =
    Ret 0 /\
  result (interpolate [5; 7; 4; 6] [0; 1; 3; 4]
                      (get [0; 1; 3; 4] (length [0; 1; 3; 4] - 1)) cubic_spline 2) = Ret 0.
Proof.
  apply (spline_second_derivative_zero_at_ends [5; 7; 4; 6] [0; 1; 3; 4]).
  - reflexivity.
  - simpl; lia.
  - intros [|[|[|i]]] Hi; unfold get; simpl in *; try lra; lia.
Defined.

(** ** The derivative of the linear interpolant *)

Lemma linear_eval_deriv_right (xa ya : list R) (i : nat) (x : R) :
  increasing xa -> (i + 1 < length xa)%nat ->
  get xa i <= x < get xa (i + 1) \/ (x = get xa (i + 1) /\ (i + 2)%nat = length xa) ->
  linear_eval_deriv xa ya (length xa) x fresh_accel =
    (get ya (i + 1) - get ya i) / (get xa (i + 1) - get xa i).
Proof.
  intros Hinc Hi Hx. unfold linear_eval_deriv.
  assert (get xa i < get xa (i + 1)) as Hdx
    by (apply increasing_lt; [assumption | lia]).
  destruct (accel_find_bracket xa i x Hinc Hi ltac:(lra)) as (Hj & Hcase).
  cbv zeta in Hj, Hcase.
  set (j := fst (gsl_interp_accel_find fresh_accel xa (length xa) x)) in *.
  assert (j = i) as ->.
  { destruct Hcase as [|[Hji Hxe]]; [assumption|].
    replace (S i) with (i + 1)%nat in Hxe by lia.
    destruct Hx as [Hx|[_ Hlast]]; [lra | lia]. }
  unfold dgtb. cbn [dltb dsub ddiv dlit Double_R].
  rewrite Rltb_true by lra. reflexivity.
Qed.

Lemma interpolate_linear_deriv (points times : list R) (i : nat) (t : R) (tr : log) :
  length points = length times ->
  increasing times -> (i + 1 < length times)%nat ->
  get times i <= t < get times (i + 1) \/
    (t = get times (i + 1) /\ (i + 2)%nat = length times) ->
  interpolate points times t linear 1 tr =
    (Ret ((get points (i + 1) - get points i) / (get times (i + 1) - get times i)),
     tr ++ interpolate_calls linear (length times) 1) /\
  interpolate points times t linear 2 tr =
    (Ret 0, tr ++ interpolate_calls linear (length times) 2).
Proof.
  intros Hlen Hinc Hi Hx.
  assert (get times i < get times (i + 1)) as Hdx
    by (apply increasing_lt; [assumption | lia]).
  assert (get times 0 <= t <= get times (length times - 1)) as Hr
    by (apply (in_range_of_bracket times i t Hinc Hi); lra).
  assert (forall tr', type_init linear times points (length points) tr' =
                        (Ret (repeat (dlit 0) (length points)), tr')) as Hc
    by (intros tr'; reflexivity).
  split.
  - rewrite (interpolate_run points times t linear 1 _ tr Hlen ltac:(lia)
               ltac:(cbn [min_size]; lia) Hinc Hr Hc).
    cbv zeta. cbn [interp_value]. rewrite Hlen.
    rewrite (linear_eval_deriv_right times points i t Hinc Hi Hx). reflexivity.
  - rewrite (interpolate_run points times t linear 2 _ tr Hlen ltac:(lia)
               ltac:(cbn [min_size]; lia) Hinc Hr Hc).
    cbv zeta. cbn [interp_value]. rewrite Hlen. reflexivity.
Qed.

(** X11: with the linear method the first derivative is the slope of the
    interval that holds the query time, where a query time equal to a
    timestamp belongs to the interval that starts there (at the last
    timestamp, to the last interval), and the second derivative is 0. *)
Theorem linear_derivative_is_slope_of_interval :
  forall (points times : list R) (i : nat) (t : R),
    length points = length times ->
    increasing times -> (i + 1 < length times)%nat ->
    get times i <= t < get times (i + 1) \/
      (t = get times (i + 1) /\ (i + 2)%nat = length times) ->
    result (interpolate points times t linear 1) =
      Ret ((get points (i + 1) - get points i) / (get times (i + 1) - get times i)) /\
    result (interpolate points times t linear 2) = Ret 0.
Proof.
  intros points times i t Hlen Hinc Hi Hx. unfold result.
  destruct (interpolate_linear_deriv points times i t [] Hlen Hinc Hi Hx) as [-> ->].
  split; reflexivity.
Qed.

Lemma linear_derivative_is_slope_of_interval_witness :
  result (interpolate [5; 7; 4] [0; 1; 3] 1 linear 1) =
    Ret ((get [5; 7; 4] (1 + 1) - get [5; 7; 4] 1) /
         (get [0; 1; 3] (1 + 1) - get [0; 1; 3] 1)) /\
  result (interpolate [5; 7; 4] [0; 1; 3] 1 linear 2) = Ret 0.
Proof.
  apply (linear_derivative_is_slope_of_interval [5; 7; 4] [0; 1; 3] 1 1).
  - reflexivity.
  - apply increasing_three; lra.
  - simpl; lia.
  - left. unfold get; simpl; lra.
Defined.

(** ** Data that GSL refuses *)

Lemma bind_gsl_error {A B} (m : M A) (k : A -> M B) (tr tr' : log) (reason : string) :
  m tr = (GslError reason, tr') -> bind m k tr = (GslError reason, tr').
Proof. unfold bind. intros ->. reflexivity. Qed.

Lemma spline_two_samples (points times : list R) (t : R) (d : Z) (tr : log) :
  length times = 2%nat -> length points = 2%nat ->
  get times 0 <= t <= get times 1 ->
  interpolate points times t cubic_spline d tr =
    (GslError "insufficient number of points for interpolation type", tr).
Proof.
  intros Lt Lp Ht. apply interpolate_alloc_fails.
  - lia.
  - lia.
  - rewrite Lt. exact Ht.
  - rewrite Lp. cbn [min_size]. lia.
Qed.

(** X12: nothing can be interpolated with the cubic spline on two timestamps:
    for every derivative order [interpolate] ends in GSL's error handler
    before anything is allocated, and so do the four tabulated operations,
    although the check of lines 209-211 lets two samples through. *)
Theorem cubic_spline_on_two_samples_is_refused :
  forall (c0 c1 c2 c3 times : list R) (t : R),
    length times = 2%nat ->
    length c0 = 2%nat -> length c1 = 2%nat -> length c2 = 2%nat -> length c3 = 2%nat ->
    get times 0 <= t <= get times 1 ->
    (forall d,
        result (interpolate c0 times t cubic_spline d) =
          GslError "insufficient number of points for interpolation type" /\
        calls (interpolate c0 times t cubic_spline d) = []) /\
    result (getPosition [c0; c1; c2] times t cubic_spline) =
      GslError "insufficient number of points for interpolation type" /\
    result (getVelocity [c0; c1; c2] times t cubic_spline) =
      GslError "insufficient number of points for interpolation type" /\
    result (getRotation [c0; c1; c2; c3] times t cubic_spline) =
      GslError "insufficient number of points for interpolation type" /\
    result (getAngularVelocity [c0; c1; c2; c3] times t cubic_spline) =
      GslError "insufficient number of points for interpolation type".
Proof.
  intros c0 c1 c2 c3 times t Lt L0 L1 L2 L3 Ht.
  assert (forall f : list R -> R,
             length (map f (map normalized_sample (zip4 c0 c1 c2 c3))) = 2%nat) as Lq
    by (intros f; rewrite !length_map, zip4_length; lia).
  unfold result, calls. split; [|split; [|split; [|split]]].
  - intros d. rewrite (spline_two_samples c0 times t d [] Lt L0 Ht). split; reflexivity.
  - rewrite getPosition_three.
    rewrite (bind_gsl_error _ _ _ _ _ (spline_two_samples c0 times t 0 [] Lt L0 Ht)).
    reflexivity.
  - rewrite getVelocity_three.
    rewrite (bind_gsl_error _ _ _ _ _ (spline_two_samples c0 times t 1 [] Lt L0 Ht)).
    reflexivity.
  - rewrite getRotation_pipeline by lia. cbv zeta.
    rewrite (bind_gsl_error _ _ _ _ _
               (spline_two_samples _ times t 0 _ Lt (Lq quat_w) Ht)).
    reflexivity.
  - rewrite getAngularVelocity_pipeline by lia. cbv zeta.
    rewrite (bind_gsl_error _ _ _ _ _
               (spline_two_samples _ times t 1 _ Lt (Lq quat_w) Ht)).
    reflexivity.
Qed.

Lemma cubic_spline_on_two_samples_is_refused_witness :
  (forall d,
      result (interpolate [5; 7] [0; 1] (1 / 2) cubic_spline d) =
        GslError "insufficient number of points for interpolation type" /\
      calls (interpolate [5; 7] [0; 1] (1 / 2) cubic_spline d) = []) /\
  result (getPosition [[5; 7]; [0; 1]; [2; 2]] [0; 1] (1 / 2) cubic_spline) =
      GslError "insufficient number of points for interpolation type" /\
  result (getVelocity [[5; 7]; [0; 1]; [2; 2]] [0; 1] (1 / 2) cubic_spline) =
      GslError "insufficient number of points for interpolation type" /\
  result (getRotation [[5; 7]; [0; 1]; [2; 2]; [1; 0]] [0; 1] (1 / 2) cubic_spline) =
      GslError "insufficient number of points for interpolation type" /\
  result (getAngularVelocity [[5; 7]; [0; 1]; [2; 2]; [1; 0]] [0; 1] (1 / 2)
                             cubic_spline) =
      GslError "insufficient number of points for interpolation type".
Proof.
  apply (cubic_spline_on_two_samples_is_refused [5; 7] [0; 1] [2; 2] [1; 0] [0; 1] (1 / 2));
    try reflexivity.
  unfold get; simpl; lra.
Defined.

(** X13: [interpolate] does not check the order of the timestamps: when two
    neighbouring timestamps are equal or decreasing and the other checks
    pass, the call ends in GSL's error handler for every derivative order,
    valid or not, with the interpolator allocated and not freed. *)
Theorem unsorted_timestamps_reach_gsl :
  forall (points times : list R) (t : R) (interp : interpolation) (d : Z) (i : nat),
    length points = length times ->
    (min_size interp <= length times)%nat ->
    get times 0 <= t <= get times (length times - 1) ->
    (1 <= i < length times)%nat -> get times i <= get times (i - 1) ->
    result (interpolate points times t interp d) =
      GslError "x values must be strictly increasing" /\
    live (calls (interpolate points times t interp d)) = 1%Z.
Proof.
  intros points times t interp d i Hlen Hmin Ht Hi Hbad.
  assert (2 <= length times)%nat as Hn by (destruct interp; cbn [min_size] in Hmin; lia).
  unfold result, calls.
  rewrite (interpolate_init_fails points times t interp d [] ltac:(lia) Hlen Ht
             ltac:(lia)).
  - split; reflexivity.
  - exists i. split; [exact Hi | lra].
Qed.

Lemma unsorted_timestamps_reach_gsl_witness :
  result (interpolate [5; 7; 4] [0; 2; 1] 1 linear 7) =
    GslError "x values must be strictly increasing" /\
  live (calls (interpolate [5; 7; 4] [0; 2; 1] 1 linear 7)) = 1%Z.
Proof.
  apply (unsorted_timestamps_reach_gsl [5; 7; 4] [0; 2; 1] 1 linear 7 2).
  - reflexivity.
  - simpl; lia.
  - unfold get; simpl; lra.
  - simpl; lia.
  - unfold get; simpl; lra.
Defined.

(** ** Accesses to the vectors *)

Lemma in_bounds_ret {A} (a : A) : in_bounds (ret a).
Proof. intros tr. discriminate. Qed.

Lemma in_bounds_throw {A} (what : string) : in_bounds (@throw A what).
Proof. intros tr. discriminate. Qed.

Lemma in_bounds_gsl_error {A} (reason : string) : in_bounds (@gsl_error A reason).
Proof. intros tr. discriminate. Qed.

Lemma in_bounds_call (e : event) : in_bounds (call e).
Proof. intros tr. discriminate. Qed.

Lemma in_bounds_bind {A B} (m : M A) (f : A -> M B) :
  in_bounds m -> (forall a, in_bounds (f a)) -> in_bounds (bind m f).
Proof.
  intros Hm Hf tr. specialize (Hm tr). unfold bind.
  destruct (m tr) as [[a| | |] tr']; cbn [fst] in *; try discriminate.
  - apply Hf.
  - congruence.
Qed.

Lemma in_bounds_at {A} (v : list A) (i : nat) :
  (i < length v)%nat -> in_bounds (at_ v i).
Proof.
  intros Hi tr. unfold at_.
  destruct (nth_error v i) as [x|] eqn:E; [discriminate|].
  apply nth_error_None in E. lia.
Qed.

Lemma in_bounds_for_rangeM {St : Type} (body : nat -> St -> M St) :
  (forall i s, in_bounds (body i s)) ->
  forall count lo s, in_bounds (for_rangeM lo count body s).
Proof.
  intros Hbody. induction count as [|c IH]; intros lo s; cbn [for_rangeM].
  - apply in_bounds_ret.
  - apply in_bounds_bind; [apply Hbody | intros s'; apply IH].
Qed.

Section InBounds.
Context {T : Type} `{Double T}.

Lemma length_gsl_poly_eval_derivs (c : list T) (lenc : nat) (x : T) (res : list T)
    (lenres : nat) :
  length (gsl_poly_eval_derivs c lenc x res lenres) = length res.
Proof.
  unfold gsl_poly_eval_derivs.
  match goal with
  | |- context [for_range 0 lenres ?body ?init] =>
      assert (length (snd (for_range 0 lenres body init)) = length res) as H1
  end.
  { apply (for_range_inv (fun _ s => length (snd s) = length res)); [reflexivity|].
    intros i [[n nmax] r] _ Hr. cbn [snd] in *.
    destruct (n <? lenc)%nat; cbn [snd]; rewrite length_upd; exact Hr. }
  destruct (for_range 0 lenres _ _) as [[n nmax] res1]. cbn [snd] in H1.
  match goal with
  | |- context [for_range 0 (lenc - 1) ?body res1] =>
      assert (length (for_range 0 (lenc - 1) body res1) = length res) as H2
  end.
  { apply (for_range_inv (fun _ r => length r = length res)); [exact H1|].
    intros i r _ Hr.
    apply (for_range_inv (fun _ r => length r = length res)).
    - rewrite length_upd. exact Hr.
    - intros l r' _ Hr'. rewrite length_upd. exact Hr'. }
  set (res2 := for_range 0 (lenc - 1) _ res1) in *.
  match goal with
  | |- context [for_range 2 (nmax - 1) ?body ?init] =>
      assert (length (snd (for_range 2 (nmax - 1) body init)) = length res) as H3
  end.
  { apply (for_range_inv (fun _ s => length (snd s) = length res)); [exact H2|].
    intros i [f r] _ Hr. cbn [snd] in *. rewrite length_upd. exact Hr. }
  destruct (for_range 2 (nmax - 1) _ _) as [f res3]. exact H3.
Qed.

Lemma in_bounds_solve_tridiag (diag offdiag b x : list T) (N : nat) :
  in_bounds (solve_tridiag diag offdiag b x N).
Proof.
  unfold solve_tridiag.
  destruct (for_range 1 (N - 2) _ _) as [[alpha gamma] status].
  destruct status; [apply in_bounds_gsl_error | apply in_bounds_ret].
Qed.

Lemma in_bounds_cspline_init (xa ya : list T) (size : nat) :
  in_bounds (cspline_init xa ya size).
Proof.
  unfold cspline_init.
  destruct (for_range 0 (size - 1 - 1) _ _) as [[offdiag diag] g].
  destruct (size - 1 - 1 =? 1)%nat; [apply in_bounds_ret|].
  apply in_bounds_bind; [apply in_bounds_solve_tridiag | intros sol; apply in_bounds_ret].
Qed.

Lemma in_bounds_alloc (ty : interpolation) (size : nat) :
  in_bounds (gsl_interp_alloc (T := T) ty size).
Proof.
  unfold gsl_interp_alloc. destruct (size <? min_size ty)%nat;
    [apply in_bounds_gsl_error|].
  apply in_bounds_bind; [apply in_bounds_call | intros _; apply in_bounds_ret].
Qed.

Lemma in_bounds_init (interp : gsl_interp T) (x_array y_array : list T) (size : nat) :
  in_bounds (gsl_interp_init interp x_array y_array size).
Proof.
  unfold gsl_interp_init.
  destruct (negb (size =? interp_size interp)%nat); [apply in_bounds_gsl_error|].
  apply in_bounds_bind.
  - apply in_bounds_for_rangeM. intros i s.
    destruct (negb (get x_array (i - 1) <? get x_array i)%D);
      [apply in_bounds_gsl_error | apply in_bounds_ret].
  - intros _. apply in_bounds_bind.
    + destruct (interp_type interp); [apply in_bounds_ret | apply in_bounds_cspline_init].
    + intros c. apply in_bounds_bind;
        [apply in_bounds_call | intros _; apply in_bounds_ret].
Qed.

Lemma in_bounds_eval (d : Z) (interp : gsl_interp T) (xa ya : list T) (x : T)
    (a : gsl_interp_accel) :
  in_bounds
    match d with
    | 0%Z => gsl_interp_eval interp xa ya x a
    | 1%Z => gsl_interp_eval_deriv interp xa ya x a
    | 2%Z => gsl_interp_eval_deriv2 interp xa ya x a
    | _ => throw "Invalid derivitive option, must be 0, 1 or 2."
    end.
Proof.
  destruct d as [|[p|[p|p|]|]|p]; try apply in_bounds_throw;
    unfold gsl_interp_eval, gsl_interp_eval_deriv, gsl_interp_eval_deriv2;
    (destruct ((x <? xmin interp)%D || (x >? xmax interp)%D);
     [apply in_bounds_gsl_error|]);
    (apply in_bounds_bind; [apply in_bounds_call | intros _; apply in_bounds_ret]).
Qed.

Lemma in_bounds_interpolate (points times : list T) (time : T) (interp : interpolation)
    (d : Z) :
  in_bounds (interpolate points times time interp d).
Proof.
  unfold interpolate.
  destruct (Nat.ltb_spec (length points) 2) as [|Hn]; [apply in_bounds_throw|].
  destruct (Nat.eqb_spec (length points) (length times)) as [Hlen|];
    cbn [negb]; [|apply in_bounds_throw].
  apply in_bounds_bind; [apply in_bounds_at; lia|]. intros t_front.
  apply in_bounds_bind; [apply in_bounds_at; lia|]. intros t_back.
  destruct ((time <? t_front)%D || (time >? t_back)%D); [apply in_bounds_throw|].
  apply in_bounds_bind; [apply in_bounds_alloc|]. intros it.
  apply in_bounds_bind; [apply in_bounds_init|]. intros it'.
  apply in_bounds_bind;
    [apply in_bounds_bind; [apply in_bounds_call | intros _; apply in_bounds_ret]|].
  intros acc.
  apply in_bounds_bind; [apply in_bounds_eval|]. intros v.
  apply in_bounds_bind; [apply in_bounds_call|]. intros _.
  apply in_bounds_bind; [apply in_bounds_call|]. intros _.
  apply in_bounds_ret.
Qed.

Lemma in_bounds_evaluatePolynomial (coeffs : list T) (time : T) (d : Z) :
  in_bounds (evaluatePolynomial coeffs time d).
Proof.
  unfold evaluatePolynomial. cbv zeta.
  pose proof (to_int_range d) as Hr. set (d' := to_int d) in *.
  destruct (length coeffs =? 0)%nat; [apply in_bounds_throw|].
  destruct (Z.ltb_spec d' 0) as [|Hd]; [apply in_bounds_throw|].
  destruct (Z.eq_dec d' int_max) as [->|Hne].
  - rewrite to_int_succ_int_max.
    change (vector_max_size <? to_size_t int_min)%Z with true. apply in_bounds_throw.
  - destruct (derivatives_size d' ltac:(lia)) as (_ & -> & ->).
    apply in_bounds_bind; [apply in_bounds_call|]. intros _.
    apply in_bounds_at. rewrite length_gsl_poly_eval_derivs, repeat_length. lia.
Qed.

Lemma in_bounds_three (coords : list (list T)) (f : list T -> M T) :
  length coords = 3%nat -> (forall ch, in_bounds (f ch)) ->
  in_bounds (c0 <- at_ coords 0 ;; x <- f c0 ;;
             c1 <- at_ coords 1 ;; y <- f c1 ;;
             c2 <- at_ coords 2 ;; z <- f c2 ;; ret [x; y; z]).
Proof.
  intros Hlen Hf.
  apply in_bounds_bind; [apply in_bounds_at; lia|]. intros c0.
  apply in_bounds_bind; [apply Hf|]. intros x.
  apply in_bounds_bind; [apply in_bounds_at; lia|]. intros c1.
  apply in_bounds_bind; [apply Hf|]. intros y.
  apply in_bounds_bind; [apply in_bounds_at; lia|]. intros c2.
  apply in_bounds_bind; [apply Hf|]. intros z.
  apply in_bounds_ret.
Qed.

End InBounds.

(** X14: for every scalar type and every input, [interpolate],
    [evaluatePolynomial] and the four position and velocity operations never
    access an element outside one of their vectors: [times.front()],
    [times.back()], [coords[0..2]], [coeffs[0..2]] and [derivatives.back()]
    are all reached only after the size checks that make them valid. *)
Theorem position_operations_stay_in_bounds :
  forall (T : Type) (D : Double T) (chans : list (list T)) (points times : list T)
         (time : T) (interp : interpolation) (d : Z),
    in_bounds (interpolate points times time interp d) /\
    in_bounds (evaluatePolynomial points time d) /\
    in_bounds (getPosition chans times time interp) /\
    in_bounds (getVelocity chans times time interp) /\
    in_bounds (getPosition_coeffs chans time) /\
    in_bounds (getVelocity_coeffs chans time).
Proof.
  intros T D chans points times time interp d.
  split; [apply in_bounds_interpolate|].
  split; [apply in_bounds_evaluatePolynomial|].
  unfold getPosition, getVelocity, getPosition_coeffs, getVelocity_coeffs.
  destruct (Nat.eqb_spec (length chans) 3) as [Hlen|_]; cbn [negb].
  - split; [|split; [|split]]; apply in_bounds_three; try exact Hlen; intros ch;
      first [apply in_bounds_interpolate | apply in_bounds_evaluatePolynomial].
  - split; [|split; [|split]]; apply in_bounds_throw.
Qed.

(** ** The rate of a rotation *)

Lemma get_map_scale (k : R) (l : list R) (i : nat) :
  get (map (Rmult k) l) i = k * get l i.
Proof.
  unfold get. destruct (Nat.lt_ge_cases i (length l)) as [Hi|Hi].
  - rewrite (nth_indep _ (dlit 0) (k * 0)) by (rewrite length_map; exact Hi).
    apply (map_nth (Rmult k)).
  - rewrite !nth_overflow by (rewrite ?length_map; exact Hi).
    cbn [dlit Double_R]. ring.
Qed.

Lemma increasing_scale (k : R) (times : list R) :
  0 < k -> increasing times -> increasing (map (Rmult k) times).
Proof.
  intros Hk Hinc i Hi. rewrite length_map in Hi. rewrite !get_map_scale.
  apply Rmult_lt_compat_l; [exact Hk | apply Hinc; exact Hi].
Qed.

(** The interval of the query time. *)
Lemma interval_of_time (times : list R) (t : R) :
  increasing times -> (2 <= length times)%nat ->
  get times 0 <= t <= get times (length times - 1) ->
  exists i, (i + 1 < length times)%nat /\
    (get times i <= t < get times (i + 1) \/
     (t = get times (i + 1) /\ (i + 2)%nat = length times)).
Proof.
  intros Hinc Hn [Hlo Hhi].
  destruct (accel_find_spec times (length times) t Hn Hlo) as (Hj & Hle & Hcase).
  cbv zeta in Hj, Hle, Hcase.
  set (j := fst (gsl_interp_accel_find fresh_accel times (length times) t)) in *.
  exists j. split; [exact Hj|].
  destruct (Rlt_le_dec t (get times (j + 1))) as [Hlt|Hge]; [left; lra|].
  right. destruct Hcase as [Hlt|Hlast]; [lra|].
  split; [|exact Hlast].
  replace (length times - 1)%nat with (j + 1)%nat in Hhi by lia. lra.
Qed.

Lemma angular_velocity_time_scale (r0 r1 r2 r3 times : list R) (t k : R) :
  length r0 = length times -> length r1 = length times ->
  length r2 = length times -> length r3 = length times ->
  (2 <= length times)%nat -> increasing times ->
  get times 0 <= t <= get times (length times - 1) ->
  0 < k ->
  exists q,
    result (getAngularVelocity [r0; r1; r2; r3] (map (Rmult k) times) (k * t) linear) =
      Ret q /\
    result (getAngularVelocity [r0; r1; r2; r3] times t linear) = Ret q.
Proof.
  intros L0 L1 L2 L3 Hn Hinc Ht Hk.
  destruct (interval_of_time times t Hinc Hn Ht) as (i & Hi & Hcase).
  assert (get times i < get times (i + 1)) as Hdt
    by (apply increasing_lt; [assumption | lia]).
  set (qs := map normalized_sample (zip4 r0 r1 r2 r3)).
  assert (forall f : list R -> R, length (map f qs) = length times) as Lq
    by (intros f; unfold qs; rewrite !length_map, zip4_length; lia).
  assert (forall (f : list R -> R) (tr : log),
             interpolate (map f qs) times t linear 1 tr =
               (Ret ((get (map f qs) (i + 1) - get (map f qs) i) /
                     (get times (i + 1) - get times i)),
                tr ++ interpolate_calls linear (length times) 1)) as Hrun.
  { intros f tr.
    apply (interpolate_linear_deriv (map f qs) times i t tr (Lq f) Hinc Hi Hcase). }
  assert (forall (f : list R -> R) (tr : log),
             interpolate (map f qs) (map (Rmult k) times) (k * t) linear 1 tr =
               (Ret (/ k * ((get (map f qs) (i + 1) - get (map f qs) i) /
                            (get times (i + 1) - get times i))),
                tr ++ interpolate_calls linear (length (map (Rmult k) times)) 1)) as Hrun'.
  { intros f tr.
    destruct (interpolate_linear_deriv (map f qs) (map (Rmult k) times) i (k * t) tr)
      as [E _].
    - rewrite (Lq f), length_map. reflexivity.
    - apply increasing_scale; assumption.
    - rewrite length_map. exact Hi.
    - rewrite !get_map_scale, length_map.
      destruct Hcase as [[Ha Hb]|[-> Hlast]]; [left | right; split; [reflexivity|exact Hlast]].
      split; [apply Rmult_le_compat_l; lra | apply Rmult_lt_compat_l; lra].
    - rewrite E. rewrite !get_map_scale. f_equal. f_equal.
      replace (k * get times (i + 1) - k * get times i)
        with (k * (get times (i + 1) - get times i)) by ring.
      field. split; lra. }
  eexists. unfold result. rewrite !getAngularVelocity_pipeline by lia. cbv zeta. fold qs.
  rewrite (bind_eq _ (Hrun' quat_w _)), (bind_eq _ (Hrun' quat_x _)),
          (bind_eq _ (Hrun' quat_y _)), (bind_eq _ (Hrun' quat_z _)).
  rewrite (bind_eq _ (Hrun quat_w _)), (bind_eq _ (Hrun quat_x _)),
          (bind_eq _ (Hrun quat_y _)), (bind_eq _ (Hrun quat_z _)).
  rewrite !normalize_ok. cbn [fst]. split; [|reflexivity]. f_equal.
  apply normalized_scale. apply Rinv_0_lt_compat. exact Hk.
Qed.

(** X16: what [getAngularVelocity] returns carries no rate: with the linear
    method, when the same samples are played [k] times slower (every
    timestamp and the query time multiplied by a positive [k]), the result is
    the same 4-tuple, because the four interpolated derivatives are
    normalised before they are returned. *)
Theorem angular_velocity_ignores_rate :
  forall (r0 r1 r2 r3 times : list R) (t k : R),
    length r0 = length times -> length r1 = length times ->
    length r2 = length times -> length r3 = length times ->
    (2 <= length times)%nat -> increasing times ->
    get times 0 <= t <= get times (length times - 1) ->
    0 < k ->
    exists q,
      result (getAngularVelocity [r0; r1; r2; r3] (map (Rmult k) times) (k * t) linear) =
        Ret q /\
      result (getAngularVelocity [r0; r1; r2; r3] times t linear) = Ret q.
Proof.
  intros r0 r1 r2 r3 times t k L0 L1 L2 L3 Hn Hinc Ht Hk.
  apply angular_velocity_time_scale; assumption.
Qed.

Lemma angular_velocity_ignores_rate_witness :
  exists q,
    result (getAngularVelocity [[1; 0; 1]; [0; 1; 1]; [0; 0; 1]; [0; 1; 1]]
                               (map (Rmult 10) [0; 1; 3]) (10 * 2) linear) = Ret q /\
    result (getAngularVelocity [[1; 0; 1]; [0; 1; 1]; [0; 0; 1]; [0; 1; 1]] [0; 1; 3] 2
                               linear) = Ret q.
Proof.
  apply (angular_velocity_ignores_rate [1; 0; 1] [0; 1; 1] [0; 0; 1] [0; 1; 1]
           [0; 1; 3] 2 10); try reflexivity.
  - simpl; lia.
  - apply increasing_three; lra.
  - unfold get; simpl; lra.
  - lra.
Defined.

(** ** Continuity across the samples *)

Lemma piece_continuous (cs : list R) (a x : R) :
  continuity_pt (fun u => polynomial cs (u - a)) x.
Proof.
  apply derivable_continuous_pt.
  exists (polynomial (pderiv cs) (x - a)). apply derivable_pt_lim_shift.
Qed.

Lemma piece_at_ends (ty : interpolation) (c xa ya : list R) (i : nat) :
  get xa i < get xa (i + 1) ->
  polynomial (piece ty c xa ya i) (get xa i - get xa i) = get ya i /\
  polynomial (piece ty c xa ya i) (get xa (i + 1) - get xa i) = get ya (i + 1).
Proof.
  intros Hdx. destruct ty; unfold piece, coeff_calc;
    cbn [dsub dadd dmul ddiv dlit Double_R];
    cbv [polynomial poly_sum]; cbn [pow]; split; field; lra.
Qed.

Lemma interp_value_at_sample (ty : interpolation) (c xa ya : list R) (i : nat) :
  increasing xa -> (2 <= length xa)%nat -> (i < length xa)%nat ->
  interp_value ty 0 c xa ya (length xa) (get xa i) = get ya i.
Proof.
  intros Hinc Hn Hi. destruct ty; cbn [interp_value].
  - apply linear_eval_at_sample; assumption.
  - apply cspline_eval_at_sample; assumption.
Qed.

Lemma interp_value_continuous (ty : interpolation) (c xa ya : list R) (t : R) :
  increasing xa -> (2 <= length xa)%nat ->
  get xa 0 < t < get xa (length xa - 1) ->
  continuity_pt (fun u => interp_value ty 0 c xa ya (length xa) u) t.
Proof.
  intros Hinc Hn [Hlo Hhi].
  destruct (interval_of_time xa t Hinc Hn ltac:(lra)) as (i & Hi & Hcase).
  destruct Hcase as [[Hle Hlt]|[Heq Hlast]];
    [|replace (length xa - 1)%nat with (i + 1)%nat in Hhi by lia; lra].
  destruct (Rle_lt_or_eq_dec _ _ Hle) as [Hin|Hknot].
  - apply derivable_continuous_pt.
    exists (interp_value ty 1 c xa ya (length xa) t).
    apply (interp_value_deriv ty 0 c xa ya i t Hinc Hi ltac:(lia)). lra.
  - assert (1 <= i)%nat as Hi1.
    { destruct i as [|i]; [|lia]. rewrite <- Hknot in Hlo. lra. }
    assert (get xa (i - 1) < get xa i) as HdL
      by (apply increasing_lt; [assumption | lia]).
    assert (get xa i < get xa (i + 1)) as HdR
      by (apply increasing_lt; [assumption | lia]).
    assert (i - 1 + 1 = i)%nat as Hii by lia.
    destruct (piece_at_ends ty c xa ya (i - 1)) as [_ HL]; [rewrite Hii; exact HdL|].
    destruct (piece_at_ends ty c xa ya i HdR) as [HR _].
    rewrite Hii in HL.
    pose proof (interp_value_at_sample ty c xa ya i Hinc Hn ltac:(lia)) as Hp.
    subst t. intros eps Heps.
    destruct (piece_continuous (piece ty c xa ya (i - 1)) (get xa (i - 1)) (get xa i)
                eps Heps) as (dL & HdLpos & HcL).
    destruct (piece_continuous (piece ty c xa ya i) (get xa i) (get xa i)
                eps Heps) as (dR & HdRpos & HcR).
    exists (Rmin (Rmin dL dR)
                 (Rmin (get xa i - get xa (i - 1)) (get xa (i + 1) - get xa i))).
    split; [repeat apply Rmin_glb_lt; lra|].
    intros u [[_ Hne] Hdist]. cbn [dist R_met] in *.
    assert (R_dist u (get xa i) < dL) as H1
      by (eapply Rlt_le_trans; [exact Hdist|];
          eapply Rle_trans; [apply Rmin_l | apply Rmin_l]).
    assert (R_dist u (get xa i) < dR) as H2
      by (eapply Rlt_le_trans; [exact Hdist|];
          eapply Rle_trans; [apply Rmin_l | apply Rmin_r]).
    assert (R_dist u (get xa i) < get xa i - get xa (i - 1)) as H3
      by (eapply Rlt_le_trans; [exact Hdist|];
          eapply Rle_trans; [apply Rmin_r | apply Rmin_l]).
    assert (R_dist u (get xa i) < get xa (i + 1) - get xa i) as H4
      by (eapply Rlt_le_trans; [exact Hdist|];
          eapply Rle_trans; [apply Rmin_r | apply Rmin_r]).
    unfold R_dist in H3, H4. apply Rabs_def2 in H3. apply Rabs_def2 in H4.
    rewrite Hp.
    destruct (Rlt_le_dec u (get xa i)) as [Hleft|Hright].
    + rewrite (interp_value_piece ty 0 c xa ya (i - 1) u Hinc ltac:(lia) ltac:(lia))
        by (rewrite Hii; lra).
      cbn [Nat.iter nat_rect]. rewrite <- HL.
      apply (HcL u). split; [split; [exact I | exact Hne] | exact H1].
    + rewrite (interp_value_piece ty 0 c xa ya i u Hinc Hi ltac:(lia)) by lra.
      cbn [Nat.iter nat_rect]. rewrite <- HR.
      apply (HcR u). split; [split; [exact I | exact Hne] | exact H2].
Qed.

(** X17: for data GSL accepts and both methods, the value [interpolate]
    returns for derivative order 0 is a continuous function of the query
    time between the first and the last timestamp: it does not jump at the
    timestamps of the samples, where one piece of the interpolant ends and
    the next begins. *)
Theorem interpolated_value_is_continuous :
  forall (points times : list R) (interp : interpolation),
    length points = length times ->
    (min_size interp <= length times)%nat ->
    increasing times ->
    exists p : R -> R,
      (forall u, get times 0 <= u <= get times (length times - 1) ->
         result (interpolate points times u interp 0) = Ret (p u)) /\
      (forall t, get times 0 < t < get times (length times - 1) -> continuity_pt p t).
Proof.
  intros points times interp Hlen Hmin Hinc.
  assert (2 <= length times)%nat as Hn by (destruct interp; cbn [min_size] in Hmin; lia).
  destruct (interpolate_curve points times interp Hlen ltac:(lia) ltac:(lia) Hinc)
    as [c Hc].
  exists (fun u => interp_value interp 0 c times points (length times) u).
  split.
  - intros u Hu. unfold result. rewrite (Hc u 0%Z [] Hu ltac:(lia)). reflexivity.
  - intros t Ht. apply interp_value_continuous; assumption.
Qed.

Lemma interpolated_value_is_continuous_witness :
  exists p : R -> R,
    (forall u, get [0; 1; 3] 0 <= u <= get [0; 1; 3] (length [0; 1; 3] - 1) ->
       result (interpolate [5; 7; 4] [0; 1; 3] u cubic_spline 0) = Ret (p u)) /\
    (forall t, get [0; 1; 3] 0 < t < get [0; 1; 3] (length [0; 1; 3] - 1) ->
       continuity_pt p t).
Proof.
  apply (interpolated_value_is_continuous [5; 7; 4] [0; 1; 3] cubic_spline).
  - reflexivity.
  - simpl; lia.
  - apply increasing_three; lra.
Defined.

(** ** What the tridiagonal solver returns *)

Lemma get_upd_same (l : list R) (i : nat) (v : R) :
  (i < length l)%nat -> get (upd l i v) i = v.
Proof. intros Hi. unfold get. apply nth_upd_same. exact Hi. Qed.

Lemma get_upd_other (l : list R) (i j : nat) (v : R) :
  i <> j -> get (upd l i v) j = get l j.
Proof. intros Hij. unfold get. apply nth_upd_other. exact Hij. Qed.

(** On a diagonally dominant system with positive off-diagonal entries the
    vector returned by [solve_tridiag] satisfies every row of the system. *)
Lemma solve_tridiag_rows (diag offdiag b x0 sol : list R) (N : nat) (tr tr' : log) :
  (2 <= N)%nat -> length x0 = N ->
  (forall i, (i < N)%nat -> 0 < get offdiag i) ->
  get offdiag 0 < get diag 0 ->
  (forall i, (1 <= i < N)%nat -> get offdiag (i - 1) + get offdiag i <= get diag i) ->
  solve_tridiag diag offdiag b x0 N tr = (Ret sol, tr') ->
  get diag 0 * get sol 0 + get offdiag 0 * get sol 1 = get b 0 /\
  (forall i, (1 <= i)%nat -> (i + 1 < N)%nat ->
     get offdiag (i - 1) * get sol (i - 1) + get diag i * get sol i +
     get offdiag i * get sol (i + 1) = get b i) /\
  get offdiag (N - 2) * get sol (N - 2) + get diag (N - 1) * get sol (N - 1) =
    get b (N - 1).
Proof.
  intros HN Hx0 Hoff Hd0 Hdom. unfold solve_tridiag.
  set (alpha0 := upd (repeat (dlit 0) N) 0 (get diag 0)).
  set (gamma0 := upd (repeat (dlit 0) N) 0 (get offdiag 0 / get alpha0 0)%D).
  assert (get alpha0 0 = get diag 0) as Ha0
    by (unfold alpha0; apply get_upd_same; rewrite repeat_length; lia).
  pose (P1 := fun (k : nat) (s : list R * list R * bool) =>
                length (fst (fst s)) = N /\ length (snd (fst s)) = N /\
                get (fst (fst s)) 0 = get diag 0 /\
                (forall i, (1 <= i < k)%nat ->
                   get (fst (fst s)) i =
                     get diag i - get offdiag (i - 1) * get (snd (fst s)) (i - 1)) /\
                (forall i, (i < k)%nat ->
                   get (snd (fst s)) i = get offdiag i / get (fst (fst s)) i /\
                   get offdiag i < get (fst (fst s)) i)).
  match goal with
  | |- context [for_range 1 (N - 2) ?body ?init] =>
      assert (P1 (1 + (N - 2))%nat (for_range 1 (N - 2) body init)) as HP1
  end.
  { apply for_range_inv.
    - unfold P1. cbn [fst snd]. unfold alpha0 at 1, gamma0 at 1.
      rewrite !length_upd, !repeat_length.
      split; [reflexivity|split; [reflexivity|split; [exact Ha0|split]]].
      + intros i Hi. lia.
      + intros i Hi. assert (i = 0)%nat as -> by lia. split.
        * unfold gamma0. rewrite get_upd_same by (rewrite repeat_length; lia).
          reflexivity.
        * rewrite Ha0. exact Hd0.
    - intros i [[alpha gamma] status] Hi (Hla & Hlg & H0 & Ha & Hg).
      unfold P1 in *. cbn [fst snd] in *. rewrite !length_upd.
      set (a := (get diag i - get offdiag (i - 1) * get gamma (i - 1))%D).
      assert (get (upd alpha i a) i = a) as Hai by (apply get_upd_same; lia).
      assert (get offdiag i < a) as Hbig.
      { unfold a. cbn [dsub dmul Double_R].
        destruct (Hg (i - 1)%nat ltac:(lia)) as [Hgam Hpiv]. rewrite Hgam.
        pose proof (Hoff (i - 1)%nat ltac:(lia)) as Hpos.
        pose proof (pivot_bound _ _ (conj Hpos Hpiv)) as Hb.
        pose proof (Hdom i ltac:(lia)). lra. }
      split; [exact Hla|split; [exact Hlg|split; [|split]]].
      + rewrite get_upd_other by lia. exact H0.
      + intros j Hj. destruct (Nat.eq_dec j i) as [->|Hne].
        * rewrite Hai. rewrite get_upd_other by lia. reflexivity.
        * rewrite !get_upd_other by lia. apply Ha. lia.
      + intros j Hj. destruct (Nat.eq_dec j i) as [->|Hne].
        * rewrite get_upd_same by lia. rewrite Hai. split; [reflexivity | exact Hbig].
        * rewrite !get_upd_other by lia. apply Hg. lia. }
  destruct (for_range 1 (N - 2) _ _) as [[alpha gamma] status].
  unfold P1 in HP1. cbn [fst snd] in HP1. destruct HP1 as (Hla & Hlg & H0 & Ha & Hg).
  replace (1 + (N - 2))%nat with (N - 1)%nat in * by lia.
  destruct (Nat.ltb_spec 1 N) as [_|]; [|lia].
  set (alpha' := upd alpha (N - 1)
                   (get diag (N - 1) - get offdiag (N - 2) * get gamma (N - 2))%D).
  assert (get alpha' 0 = get diag 0) as HA0
    by (unfold alpha'; rewrite get_upd_other by lia; exact H0).
  assert (forall i, (1 <= i < N)%nat ->
            get alpha' i = get diag i - get offdiag (i - 1) * get gamma (i - 1)) as HA.
  { intros i Hi. unfold alpha'. destruct (Nat.eq_dec i (N - 1)) as [->|Hne].
    - rewrite get_upd_same by lia. replace (N - 1 - 1)%nat with (N - 2)%nat by lia.
      reflexivity.
    - rewrite get_upd_other by lia. apply Ha. lia. }
  assert (forall i, (i + 1 < N)%nat ->
            get gamma i = get offdiag i / get alpha' i /\ get offdiag i < get alpha' i)
    as HG.
  { intros i Hi. unfold alpha'. rewrite get_upd_other by lia. apply Hg. lia. }
  assert (forall i, (i < N)%nat -> 0 < get alpha' i) as HApos.
  { intros i Hi. destruct (Nat.eq_dec i (N - 1)) as [->|Hne].
    - rewrite HA by lia.
      destruct (HG (N - 2)%nat ltac:(lia)) as [Hgam Hpiv].
      replace (N - 1 - 1)%nat with (N - 2)%nat by lia. rewrite Hgam.
      pose proof (Hoff (N - 2)%nat ltac:(lia)) as Hpos.
      pose proof (pivot_bound _ _ (conj Hpos Hpiv)) as Hb.
      pose proof (Hdom (N - 1)%nat ltac:(lia)) as Hd.
      replace (N - 1 - 1)%nat with (N - 2)%nat in Hd by lia.
      pose proof (Hoff (N - 1)%nat ltac:(lia)). lra.
    - destruct (HG i ltac:(lia)) as [_ Hpiv]. pose proof (Hoff i Hi). lra. }
  clearbody alpha'. clear Ha Hg H0 Hla.
  set (z0 := upd (repeat (dlit 0) N) 0 (get b 0)).
  match goal with
  | |- context [for_range 1 (N - 1) ?body z0] =>
      assert (length (for_range 1 (N - 1) body z0) = N /\
              get (for_range 1 (N - 1) body z0) 0 = get b 0 /\
              forall i, (1 <= i < 1 + (N - 1))%nat ->
                get (for_range 1 (N - 1) body z0) i =
                  get b i - get gamma (i - 1) * get (for_range 1 (N - 1) body z0) (i - 1))
        as HZ
  end.
  { apply (for_range_inv
             (fun k z => length z = N /\ get z 0 = get b 0 /\
                         forall i, (1 <= i < k)%nat ->
                           get z i = get b i - get gamma (i - 1) * get z (i - 1))).
    - unfold z0. rewrite length_upd, repeat_length.
      split; [reflexivity|split].
      + apply get_upd_same. rewrite repeat_length. lia.
      + intros i Hi. lia.
    - intros i z Hi (Hlz & Hz0 & Hz). rewrite length_upd.
      split; [exact Hlz|split].
      + rewrite get_upd_other by lia. exact Hz0.
      + intros j Hj. destruct (Nat.eq_dec j i) as [->|Hne].
        * rewrite get_upd_same by lia. rewrite get_upd_other by lia. reflexivity.
        * rewrite !get_upd_other by lia. apply Hz. lia. }
  set (z := for_range 1 (N - 1) _ z0) in *.
  destruct HZ as (Hlz & Hz0 & Hz). clearbody z.
  match goal with
  | |- context [for_range 0 N ?body ?init] =>
      assert (length (for_range 0 N body init) = N /\
              forall i, (i < 0 + N)%nat ->
                get (for_range 0 N body init) i = get z i / get alpha' i) as HC
  end.
  { apply (for_range_inv
             (fun k c => length c = N /\
                         forall i, (i < k)%nat -> get c i = get z i / get alpha' i)).
    - rewrite repeat_length. split; [reflexivity|]. intros i Hi. lia.
    - intros i c Hi (Hlc & Hc). rewrite length_upd. split; [exact Hlc|].
      intros j Hj. destruct (Nat.eq_dec j i) as [->|Hne].
      + rewrite get_upd_same by lia. reflexivity.
      + rewrite get_upd_other by lia. apply Hc. lia. }
  set (c := for_range 0 N _ _) in *.
  destruct HC as (Hlc & Hc). clearbody c.
  destruct (Nat.leb_spec 2 N) as [_|]; [|lia].
  set (x1 := upd x0 (N - 1) (get c (N - 1))).
  match goal with
  | |- context [for_range 0 (N - 1) ?body x1] =>
      assert (length (for_range 0 (N - 1) body x1) = N /\
              get (for_range 0 (N - 1) body x1) (N - 1) = get c (N - 1) /\
              forall i, (N - 1 - (0 + (N - 1)) <= i)%nat -> (i + 1 < N)%nat ->
                get (for_range 0 (N - 1) body x1) i =
                  get c i - get gamma i * get (for_range 0 (N - 1) body x1) (i + 1))
        as HX
  end.
  { apply (for_range_inv
             (fun j x => length x = N /\ get x (N - 1) = get c (N - 1) /\
                         forall i, (N - 1 - j <= i)%nat -> (i + 1 < N)%nat ->
                           get x i = get c i - get gamma i * get x (i + 1))).
    - unfold x1. rewrite length_upd.
      split; [exact Hx0|split].
      + apply get_upd_same. lia.
      + intros i Hi1 Hi2. lia.
    - intros j x Hj (Hlx & Hxl & Hx). cbv zeta. rewrite length_upd.
      split; [exact Hlx|split].
      + rewrite get_upd_other by lia. exact Hxl.
      + intros i Hi1 Hi2. destruct (Nat.eq_dec i (N - 2 - j)) as [->|Hne].
        * rewrite get_upd_same by lia. rewrite get_upd_other by lia. reflexivity.
        * rewrite !get_upd_other by lia. apply Hx; lia. }
  set (x := for_range 0 (N - 1) _ x1) in *.
  destruct HX as (Hlx & Hxl & Hx). clearbody x.
  destruct status; [discriminate|].
  unfold ret. intros E. injection E as <- _.
  assert (forall i, (i + 1 < N)%nat ->
            get alpha' i * get x i + get offdiag i * get x (i + 1) = get z i) as HE.
  { intros i Hi. rewrite (Hx i) by lia. rewrite (Hc i) by lia.
    destruct (HG i Hi) as [-> _]. pose proof (HApos i ltac:(lia)). field. lra. }
  assert (get alpha' (N - 1) * get x (N - 1) = get z (N - 1)) as HEl.
  { rewrite Hxl. rewrite (Hc (N - 1)%nat) by lia.
    pose proof (HApos (N - 1)%nat ltac:(lia)). field. lra. }
  assert (forall i, (1 <= i < N)%nat ->
            get offdiag (i - 1) * get x (i - 1) +
            (get alpha' i + get offdiag (i - 1) * get gamma (i - 1)) * get x i +
            (get z i - get alpha' i * get x i) = get b i) as Hrow.
  { intros i Hi.
    pose proof (Hz i ltac:(lia)) as Hzi.
    pose proof (HE (i - 1)%nat ltac:(lia)) as Hp.
    replace (i - 1 + 1)%nat with i in Hp by lia.
    destruct (HG (i - 1)%nat ltac:(lia)) as [Hgam _].
    pose proof (HApos (i - 1)%nat ltac:(lia)) as Hpos.
    assert (get gamma (i - 1) * get alpha' (i - 1) = get offdiag (i - 1)) as Hga
      by (rewrite Hgam; field; lra).
    assert (get b i = get z i + get gamma (i - 1) * get z (i - 1)) as -> by lra.
    rewrite <- Hp.
    replace (get gamma (i - 1) *
             (get alpha' (i - 1) * get x (i - 1) + get offdiag (i - 1) * get x i))
      with (get gamma (i - 1) * get alpha' (i - 1) * get x (i - 1) +
            get offdiag (i - 1) * get gamma (i - 1) * get x i) by ring.
    rewrite Hga. ring. }
  split; [|split].
  - rewrite <- HA0, <- Hz0. apply (HE 0%nat). lia.
  - intros i Hi1 Hi2. rewrite <- (Hrow i ltac:(lia)).
    rewrite <- (HE i Hi2). rewrite (HA i ltac:(lia)). ring.
  - rewrite <- (Hrow (N - 1)%nat ltac:(lia)).
    replace (N - 1 - 1)%nat with (N - 2)%nat by lia.
    rewrite <- HEl. rewrite (HA (N - 1)%nat ltac:(lia)).
    replace (N - 1 - 1)%nat with (N - 2)%nat by lia. ring.
Qed.

(** The array [c] left by [cspline_init] solves the equations of the natural
    cubic spline: one for each sample that is neither the first nor the
    last. *)
Lemma cspline_init_rows (xa ya c : list R) (tr tr' : log) :
  increasing xa -> (3 <= length xa)%nat ->
  cspline_init xa ya (length xa) tr = (Ret c, tr') ->
  forall j, (j + 2 < length xa)%nat ->
    (get xa (j + 1) - get xa j) * get c j +
    2 * ((get xa (j + 2) - get xa (j + 1)) + (get xa (j + 1) - get xa j)) * get c (j + 1) +
    (get xa (j + 2) - get xa (j + 1)) * get c (j + 2) =
    3 * ((get ya (j + 2) - get ya (j + 1)) / (get xa (j + 2) - get xa (j + 1)) -
         (get ya (j + 1) - get ya j) / (get xa (j + 1) - get xa j)).
Proof.
  intros Hinc Hn.
  assert (forall j, (j + 1 < length xa)%nat -> 0 < get xa (j + 1) - get xa j) as Hh.
  { intros j Hj. pose proof (increasing_lt xa Hinc j (j + 1) ltac:(lia)). lra. }
  unfold cspline_init.
  set (c0 := upd (upd (repeat (dlit 0) (length xa)) 0 (dlit 0)) (length xa - 1) (dlit 0)).
  assert (forall j, get c0 j = 0) as Hc0.
  { unfold c0. apply get_upd_zero; [|reflexivity].
    apply get_upd_zero; [|reflexivity]. apply get_repeat_zero. }
  assert (length c0 = length xa) as Lc0
    by (unfold c0; rewrite !length_upd, repeat_length; reflexivity).
  pose (P := fun (k : nat) (s : list R * list R * list R) =>
               length (fst (fst s)) = length xa /\ length (snd (fst s)) = length xa /\
               length (snd s) = length xa /\
               forall j, (j < k)%nat ->
                 get (fst (fst s)) j = get xa (j + 2) - get xa (j + 1) /\
                 get (snd (fst s)) j =
                   2 * ((get xa (j + 2) - get xa (j + 1)) + (get xa (j + 1) - get xa j)) /\
                 get (snd s) j =
                   3 * ((get ya (j + 2) - get ya (j + 1)) / (get xa (j + 2) - get xa (j + 1)) -
                        (get ya (j + 1) - get ya j) / (get xa (j + 1) - get xa j))).
  match goal with
  | |- context [for_range 0 ?k ?body ?init] =>
      assert (P (0 + k)%nat (for_range 0 k body init)) as HP
  end.
  { apply for_range_inv.
    - unfold P. cbn [fst snd]. rewrite !repeat_length.
      repeat split; try reflexivity; lia.
    - intros i [[o d] g] Hi (Ho & Hd & Hg & Hprev). unfold P in *. cbn [fst snd] in *.
      rewrite !length_upd. split; [exact Ho|]. split; [exact Hd|]. split; [exact Hg|].
      intros j Hj. destruct (Nat.eq_dec j i) as [->|Hne].
      + rewrite !get_upd_same by lia.
        pose proof (Hh i ltac:(lia)) as H1. pose proof (Hh (i + 1)%nat ltac:(lia)) as H2.
        replace (i + 1 + 1)%nat with (i + 2)%nat in H2 by lia.
        unfold dneb. cbn [deqb dsub dadd dmul ddiv dlit Double_R].
        rewrite !Reqb_false by lra. cbn [negb].
        split; [reflexivity|]. split; [reflexivity|]. field. lra.
      + rewrite !get_upd_other by lia. apply Hprev. lia. }
  destruct (for_range 0 (length xa - 1 - 1) _ _) as [[offdiag diag] g].
  unfold P in HP. cbn [fst snd Nat.add] in HP. destruct HP as (Lo & Ld & Lg & Hsys).
  destruct (Nat.eqb_spec (length xa - 1 - 1) 1) as [H3|Hne].
  - unfold ret. intros E. injection E as <- _. intros j Hj.
    assert (j = 0)%nat as -> by lia. cbn [Nat.add].
    rewrite get_upd_other by lia. rewrite get_upd_same by lia.
    rewrite get_upd_other by lia. rewrite !Hc0.
    destruct (Hsys 0%nat ltac:(lia)) as (_ & Hd0 & Hg0). cbn [Nat.add] in Hd0, Hg0.
    rewrite Hg0, Hd0.
    pose proof (Hh 0%nat ltac:(lia)) as H1. pose proof (Hh 1%nat ltac:(lia)) as H2.
    cbn [Nat.add] in H1, H2. field. lra.
  - unfold bind.
    destruct (solve_tridiag diag offdiag g _ _ tr) as [[sol| | |] tr1] eqn:E;
      try discriminate.
    pose proof (Forall_zero _ (proj2 (Forall_firstn_skipn _ (S (length xa - 1 - 1)) c0
                                       (zero_Forall c0 Hc0)))) as Hrest.
    set (rest := skipn (S (length xa - 1 - 1)) c0) in *.
    assert (length (firstn (length xa - 1 - 1) (tl c0)) = (length xa - 1 - 1)%nat) as Lx0.
    { rewrite length_firstn.
      assert (length (tl c0) = (length xa - 1)%nat)
        by (destruct c0; cbn [tl length] in *; lia).
      lia. }
    pose proof (solve_tridiag_length _ _ _ _ _ _ _ _ E) as Lsol. rewrite Lx0 in Lsol.
    destruct (solve_tridiag_rows diag offdiag g _ sol (length xa - 1 - 1) tr tr1
                ltac:(lia) Lx0) as (Hrow0 & Hrows & HrowN); [| | |exact E|].
    { intros i Hi. destruct (Hsys i Hi) as (-> & _).
      replace (i + 2)%nat with (i + 1 + 1)%nat by lia. apply Hh. lia. }
    { destruct (Hsys 0%nat ltac:(lia)) as (-> & -> & _).
      pose proof (Hh 0%nat ltac:(lia)) as H1. pose proof (Hh 1%nat ltac:(lia)) as H2.
      cbn [Nat.add] in *. lra. }
    { intros i Hi. destruct (Hsys i ltac:(lia)) as (-> & -> & _).
      destruct (Hsys (i - 1)%nat ltac:(lia)) as (-> & _).
      replace (i - 1 + 2)%nat with (i + 1)%nat by lia.
      replace (i - 1 + 1)%nat with i by lia.
      pose proof (Hh i ltac:(lia)) as H1. pose proof (Hh (i + 1)%nat ltac:(lia)) as H2.
      replace (i + 1 + 1)%nat with (i + 2)%nat in H2 by lia. lra. }
    unfold ret. intros E'. injection E' as <- _.
    match goal with
    | |- forall j, _ -> _ * get ?l _ + _ + _ = _ => set (cf := l)
    end.
    assert (get cf 0 = 0) as C0
      by (unfold cf; destruct c0 as [|v r]; [reflexivity | exact (Hc0 0%nat)]).
    assert (forall k, (k < length xa - 1 - 1)%nat -> get cf (k + 1) = get sol k) as Cmid.
    { intros k Hk. unfold cf, get. replace (k + 1)%nat with (S k) by lia. cbn [nth].
      apply app_nth1. lia. }
    assert (get cf (length xa - 1) = 0) as Clast.
    { unfold cf, get. replace (length xa - 1)%nat with (S (length xa - 2)) by lia.
      cbn [nth]. rewrite app_nth2 by lia. apply Hrest. }
    clearbody cf.
    intros j Hj.
    destruct (Hsys j ltac:(lia)) as (Ho & Hd & Hg). rewrite <- Hg.
    destruct (Nat.eq_dec j 0) as [->|Hj0].
    + pose proof (Cmid 0%nat ltac:(lia)) as C1. pose proof (Cmid 1%nat ltac:(lia)) as C2.
      cbn [Nat.add] in *. rewrite C0, C1, C2. rewrite <- Hrow0.
      destruct (Hsys 0%nat ltac:(lia)) as (-> & -> & _). cbn [Nat.add]. ring.
    + destruct (Nat.eq_dec (j + 2) (length xa - 1)) as [Hlast|Hmid].
      * replace (get cf (j + 2)) with 0 by (rewrite Hlast; symmetry; exact Clast).
        replace j with ((j - 1) + 1)%nat at 3 by lia. rewrite Cmid by lia.
        rewrite (Cmid j) by lia.
        replace (length xa - 1 - 1 - 1)%nat with j in HrowN by lia.
        replace (length xa - 1 - 1 - 2)%nat with (j - 1)%nat in HrowN by lia.
        rewrite <- HrowN. rewrite Hd.
        destruct (Hsys (j - 1)%nat ltac:(lia)) as (-> & _).
        replace (j - 1 + 2)%nat with (j + 1)%nat by lia.
        replace (j - 1 + 1)%nat with j by lia. ring.
      * replace j with ((j - 1) + 1)%nat at 3 by lia. rewrite Cmid by lia.
        rewrite (Cmid j) by lia.
        replace (j + 2)%nat with ((j + 1) + 1)%nat at 3 by lia.
        rewrite (Cmid (j + 1)%nat) by lia.
        rewrite <- (Hrows j ltac:(lia) ltac:(lia)). rewrite Hd, Ho.
        destruct (Hsys (j - 1)%nat ltac:(lia)) as (-> & _).
        replace (j - 1 + 2)%nat with (j + 1)%nat by lia.
        replace (j - 1 + 1)%nat with j by lia. ring.
Qed.

(** ** The derivatives of the spline across the samples *)

Lemma continuity_glue (f gL gR : R -> R) (a t b : R) :
  a < t < b ->
  (forall u, a < u < t -> f u = gL u) ->
  (forall u, t < u < b -> f u = gR u) ->
  gL t = f t -> gR t = f t ->
  continuity_pt gL t -> continuity_pt gR t -> continuity_pt f t.
Proof.
  intros [Ha Hb] HfL HfR HL HR HcL HcR eps Heps.
  destruct (HcL eps Heps) as (dL & HdL & HlimL).
  destruct (HcR eps Heps) as (dR & HdR & HlimR).
  exists (Rmin (Rmin dL dR) (Rmin (t - a) (b - t))).
  split; [repeat apply Rmin_glb_lt; lra|].
  intros u [[_ Hne] Hdist]. cbn [dist R_met] in *.
  assert (R_dist u t < dL) as H1
    by (eapply Rlt_le_trans; [exact Hdist|];
        eapply Rle_trans; [apply Rmin_l | apply Rmin_l]).
  assert (R_dist u t < dR) as H2
    by (eapply Rlt_le_trans; [exact Hdist|];
        eapply Rle_trans; [apply Rmin_l | apply Rmin_r]).
  assert (R_dist u t < t - a) as H3
    by (eapply Rlt_le_trans; [exact Hdist|];
        eapply Rle_trans; [apply Rmin_r | apply Rmin_l]).
  assert (R_dist u t < b - t) as H4
    by (eapply Rlt_le_trans; [exact Hdist|];
        eapply Rle_trans; [apply Rmin_r | apply Rmin_r]).
  unfold R_dist in H3, H4. apply Rabs_def2 in H3. apply Rabs_def2 in H4.
  destruct (Rlt_le_dec u t) as [Hleft|Hright].
  - rewrite (HfL u) by lra. rewrite <- HL.
    apply (HlimL u). split; [split; [exact I | exact Hne] | exact H1].
  - rewrite (HfR u) by lra. rewrite <- HR.
    apply (HlimR u). split; [split; [exact I | exact Hne] | exact H2].
Qed.

Lemma accel_find_left (xa : list R) (i : nat) (x : R) :
  increasing xa -> (i + 1 < length xa)%nat ->
  get xa i <= x < get xa (i + 1) ->
  fst (gsl_interp_accel_find fresh_accel xa (length xa) x) = i.
Proof.
  intros Hinc Hi [Hlo Hhi].
  destruct (accel_find_bracket xa i x Hinc Hi ltac:(lra)) as (_ & [Hj | [_ Hx]]).
  - exact Hj.
  - replace (i + 1)%nat with (S i) in Hhi by lia. lra.
Qed.

Lemma interp_value_piece_left (ty : interpolation) (d : nat) (c xa ya : list R) (i : nat)
    (u : R) :
  increasing xa -> (i + 1 < length xa)%nat -> (d <= 2)%nat ->
  get xa i <= u < get xa (i + 1) ->
  interp_value ty d c xa ya (length xa) u =
    polynomial (Nat.iter d pderiv (piece ty c xa ya i)) (u - get xa i).
Proof.
  intros Hinc Hi Hd Hu.
  assert (get xa i < get xa (i + 1)) as Hdx by lra.
  destruct ty; destruct d as [|[|[|d]]]; try lia;
    cbn [interp_value];
    unfold linear_eval, linear_eval_deriv, linear_eval_deriv2,
           cspline_eval, cspline_eval_deriv, cspline_eval_deriv2;
    rewrite ?(accel_find_left xa i u Hinc Hi Hu);
    unfold dgtb, coeff_calc, piece; cbn [dltb dsub dadd dmul ddiv dlit Double_R];
    rewrite ?Rltb_true by lra;
    unfold coeff_calc; cbn [dltb dsub dadd dmul ddiv dlit Double_R];
    cbv [Nat.iter nat_rect pderiv tl pderiv_from polynomial poly_sum];
    cbn [INR pow]; try (field; lra).
Qed.

(** Where two pieces of the spline meet, their first and second derivatives
    agree: the first by the equation of the sample, the second by the choice
    of the cubic coefficient. *)
Lemma spline_pieces_meet (c xa ya : list R) (k : nat) (d : nat) :
  get xa k < get xa (k + 1) -> get xa (k + 1) < get xa (k + 2) ->
  (get xa (k + 1) - get xa k) * get c k +
  2 * ((get xa (k + 2) - get xa (k + 1)) + (get xa (k + 1) - get xa k)) * get c (k + 1) +
  (get xa (k + 2) - get xa (k + 1)) * get c (k + 2) =
  3 * ((get ya (k + 2) - get ya (k + 1)) / (get xa (k + 2) - get xa (k + 1)) -
       (get ya (k + 1) - get ya k) / (get xa (k + 1) - get xa k)) ->
  (d = 1 \/ d = 2)%nat ->
  polynomial (Nat.iter d pderiv (piece cubic_spline c xa ya k)) (get xa (k + 1) - get xa k) =
    polynomial (Nat.iter d pderiv (piece cubic_spline c xa ya (k + 1)))
               (get xa (k + 1) - get xa (k + 1)).
Proof.
  intros HdL HdR Hrow Hd.
  unfold piece, coeff_calc. cbn [dsub dadd dmul ddiv dlit Double_R].
  replace (k + 1 + 1)%nat with (k + 2)%nat by lia.
  set (hL := get xa (k + 1) - get xa k) in *.
  set (hR := get xa (k + 2) - get xa (k + 1)) in *.
  assert (0 < hL) as HhL by (unfold hL; lra).
  assert (0 < hR) as HhR by (unfold hR; lra).
  set (qL := (get ya (k + 1) - get ya k) / hL) in *.
  set (qR := (get ya (k + 2) - get ya (k + 1)) / hR) in *.
  replace (get xa (k + 1) - get xa (k + 1)) with 0 by ring.
  destruct Hd as [-> | ->];
    cbv [Nat.iter nat_rect pderiv tl pderiv_from polynomial poly_sum]; cbn [INR pow].
  - assert (hL * (1 + 1 + 1) * ((get c (k + 1) - get c k) / (3 * hL)) =
            get c (k + 1) - get c k) as E by (field; lra).
    transitivity (qL + hL * (2 * get c (k + 1) + get c k) / 3); [|lra].
    replace ((1 + 1 + 1) * ((get c (k + 1) - get c k) / (3 * hL)) * (hL * (hL * 1)))
      with (hL * (hL * (1 + 1 + 1) * ((get c (k + 1) - get c k) / (3 * hL)))) by ring.
    rewrite E. lra.
  - field. lra.
Qed.

Lemma spline_derivative_continuous (c xa ya : list R) (tr tr' : log) (d : nat) (t : R) :
  increasing xa -> (3 <= length xa)%nat ->
  cspline_init xa ya (length xa) tr = (Ret c, tr') ->
  (d = 1 \/ d = 2)%nat ->
  get xa 0 < t < get xa (length xa - 1) ->
  continuity_pt (fun u => interp_value cubic_spline d c xa ya (length xa) u) t.
Proof.
  intros Hinc Hn Hinit Hd [Hlo Hhi].
  assert (d <= 2)%nat as Hd2 by lia.
  destruct (interval_of_time xa t Hinc ltac:(lia) ltac:(lra)) as (i & Hi & Hcase).
  destruct Hcase as [[Hle Hlt]|[Heq Hlast]];
    [|replace (length xa - 1)%nat with (i + 1)%nat in Hhi by lia; lra].
  destruct (Rle_lt_or_eq_dec _ _ Hle) as [Hin|Hknot].
  - apply continuity_glue with
      (gL := fun u => polynomial (Nat.iter d pderiv (piece cubic_spline c xa ya i))
                                 (u - get xa i))
      (gR := fun u => polynomial (Nat.iter d pderiv (piece cubic_spline c xa ya i))
                                 (u - get xa i))
      (a := get xa i) (b := get xa (i + 1)).
    + lra.
    + intros u Hu. apply interp_value_piece; try assumption. lra.
    + intros u Hu. apply interp_value_piece; try assumption. lra.
    + symmetry. apply interp_value_piece; try assumption. lra.
    + symmetry. apply interp_value_piece; try assumption. lra.
    + apply piece_continuous.
    + apply piece_continuous.
  - destruct i as [|k]; [rewrite <- Hknot in Hlo; lra|].
    replace (S k) with (k + 1)%nat in * by lia.
    replace (k + 1 + 1)%nat with (k + 2)%nat in * by lia.
    assert (get xa k < get xa (k + 1)) as HdL
      by (apply increasing_lt; [assumption | lia]).
    assert (get xa (k + 1) < get xa (k + 2)) as HdR
      by (apply increasing_lt; [assumption | lia]).
    pose proof (cspline_init_rows xa ya c tr tr' Hinc Hn Hinit k ltac:(lia)) as Hrow.
    pose proof (spline_pieces_meet c xa ya k d HdL HdR Hrow Hd) as Hmeet.
    assert (interp_value cubic_spline d c xa ya (length xa) (get xa (k + 1)) =
            polynomial (Nat.iter d pderiv (piece cubic_spline c xa ya (k + 1)))
                       (get xa (k + 1) - get xa (k + 1))) as Hright.
    { apply interp_value_piece_left; try assumption.
      - lia.
      - replace (k + 1 + 1)%nat with (k + 2)%nat by lia. lra. }
    subst t.
    apply continuity_glue with
      (gL := fun u => polynomial (Nat.iter d pderiv (piece cubic_spline c xa ya k))
                                 (u - get xa k))
      (gR := fun u => polynomial (Nat.iter d pderiv (piece cubic_spline c xa ya (k + 1)))
                                 (u - get xa (k + 1)))
      (a := get xa k) (b := get xa (k + 2)).
    + lra.
    + intros u Hu. apply interp_value_piece; try assumption; lia.
    + intros u Hu. apply interp_value_piece; try assumption; try lia.
      replace (k + 1 + 1)%nat with (k + 2)%nat by lia. exact Hu.
    + rewrite Hmeet. symmetry. exact Hright.
    + symmetry. exact Hright.
    + apply piece_continuous.
    + apply piece_continuous.
Qed.

(** X18: with the cubic spline on at least three samples with strictly
    increasing timestamps, the first and the second derivative that
    [interpolate] returns are continuous functions of the query time between
    the first and the last timestamp: velocity and acceleration do not jump
    at the timestamps of the samples, unlike the slope of the linear
    method. *)
Theorem cubic_spline_derivatives_are_continuous :
  forall (points times : list R),
    length points = length times ->
    (3 <= length times)%nat ->
    increasing times ->
    exists v a : R -> R,
      (forall u, get times 0 <= u <= get times (length times - 1) ->
         result (interpolate points times u cubic_spline 1) = Ret (v u) /\
         result (interpolate points times u cubic_spline 2) = Ret (a u)) /\
      (forall t, get times 0 < t < get times (length times - 1) ->
         continuity_pt v t /\ continuity_pt a t).
Proof.
  intros points times Hlen Hn Hinc.
  destruct (type_init_ok cubic_spline times points Hinc Hn) as [c Hc].
  pose proof (Hc []) as Hinit. cbn [type_init] in Hinit.
  rewrite <- Hlen in Hc.
  exists (fun u => interp_value cubic_spline 1 c times points (length times) u),
         (fun u => interp_value cubic_spline 2 c times points (length times) u).
  split.
  - intros u Hu. unfold result.
    rewrite (interpolate_run points times u cubic_spline 1 c [] Hlen ltac:(lia)
               ltac:(cbn [min_size]; lia) Hinc Hu Hc).
    rewrite (interpolate_run points times u cubic_spline 2 c [] Hlen ltac:(lia)
               ltac:(cbn [min_size]; lia) Hinc Hu Hc).
    cbv zeta. rewrite Hlen. split; reflexivity.
  - intros t Ht. split.
    + apply (spline_derivative_continuous c times points [] [] 1 t Hinc Hn Hinit
               ltac:(lia) Ht).
    + apply (spline_derivative_continuous c times points [] [] 2 t Hinc Hn Hinit
               ltac:(lia) Ht).
Qed.

Lemma cubic_spline_derivatives_are_continuous_witness :
  exists v a : R -> R,
    (forall u, get [0; 1; 3; 4] 0 <= u <= get [0; 1; 3; 4] (length [0; 1; 3; 4] - 1) ->
       result (interpolate [5; 7; 4; 6] [0; 1; 3; 4] u cubic_spline 1) = Ret (v u) /\
       result (interpolate [5; 7; 4; 6] [0; 1; 3; 4] u cubic_spline 2) = Ret (a u)) /\
    (forall t, get [0; 1; 3; 4] 0 < t < get [0; 1; 3; 4] (length [0; 1; 3; 4] - 1) ->
       continuity_pt v t /\ continuity_pt a t).
Proof.
  apply (cubic_spline_derivatives_are_continuous [5; 7; 4; 6] [0; 1; 3; 4]).
  - reflexivity.
  - simpl; lia.
  - intros [|[|[|i]]] Hi; unfold get; simpl in *; try lra; lia.
Defined.

(** ** The derivatives of a polynomial and its values elsewhere *)

Lemma taylor_sum_cons (c : R) (q : list R) (x h : R) (N : nat) :
  sum_f_R0 (fun l => taylor (c :: q) x l * h ^ l) N =
    c + x * sum_f_R0 (fun l => taylor q x l * h ^ l) N +
    h * match N with
        | O => 0
        | S m => sum_f_R0 (fun l => taylor q x l * h ^ l) m
        end.
Proof.
  induction N as [|N IH].
  - cbn [sum_f_R0 taylor pow]. ring.
  - rewrite tech5, IH. destruct N as [|m].
    + cbn [sum_f_R0 taylor pow]. ring.
    + rewrite (tech5 (fun l => taylor q x l * h ^ l) (S m)).
      rewrite (tech5 (fun l => taylor q x l * h ^ l) m).
      cbn [taylor]. rewrite <- !tech_pow_Rmult. ring.
Qed.

Lemma taylor_expansion (cs : list R) (x h : R) :
  forall N, (length cs <= S N)%nat ->
    polynomial cs (x + h) = sum_f_R0 (fun l => taylor cs x l * h ^ l) N.
Proof.
  induction cs as [|c q IH]; intros N HN.
  - unfold polynomial. cbn [poly_sum taylor]. symmetry. apply sum_eq_R0.
    intros n _. ring.
  - cbn [length] in HN.
    assert (polynomial (c :: q) (x + h) = c + (x + h) * polynomial q (x + h)) as ->.
    { unfold polynomial. cbn [poly_sum]. rewrite poly_sum_shift. simpl. ring. }
    rewrite taylor_sum_cons. destruct N as [|m].
    + assert (q = []) as -> by (destruct q; [reflexivity | cbn [length] in HN; lia]).
      unfold polynomial. cbn [poly_sum sum_f_R0 taylor]. ring.
    + rewrite (IH (S m)) by lia.
      rewrite (tech5 (fun l => taylor q x l * h ^ l) m).
      rewrite (taylor_high x q (S m)) by lia. ring.
Qed.

Lemma polynomial_taylor_sum (cs : list R) (t h : R) :
  cs <> [] ->
  polynomial cs (t + h) =
    sum_f_R0 (fun d => polynomial (Nat.iter d pderiv cs) t * h ^ d / INR (fact d))
             (length cs - 1).
Proof.
  intros Hcs.
  assert (1 <= length cs)%nat as Hlen by (destruct cs; [congruence | simpl; lia]).
  rewrite (taylor_expansion cs t h (length cs - 1)) by lia.
  apply sum_eq. intros d _. rewrite iter_pderiv_taylor.
  field. apply INR_fact_neq_0.
Qed.

(** X19: the derivatives that [evaluatePolynomial] returns at a time [t]
    give the value of the polynomial at every other time: for at most
    [INT_MAX] coefficients, the sum over the orders [d] from 0 to the degree
    of the order-[d] result at [t] times [h^d / d!] is the order-0 result at
    [t + h]. *)
Theorem polynomial_derivatives_give_values_elsewhere :
  forall (cs : list R) (t h : R),
    cs <> [] -> (Z.of_nat (length cs) <= int_max)%Z ->
    exists v : nat -> R,
      (forall d, (d <= length cs - 1)%nat ->
         result (evaluatePolynomial cs t (Z.of_nat d)) = Ret (v d)) /\
      result (evaluatePolynomial cs (t + h) 0) =
        Ret (sum_f_R0 (fun d => v d * h ^ d / INR (fact d)) (length cs - 1)).
Proof.
  intros cs t h Hcs Hsize.
  assert (1 <= length cs)%nat as Hlen by (destruct cs; [congruence | simpl; lia]).
  exists (fun d => polynomial (Nat.iter d pderiv cs) t). split.
  - intros d Hd. unfold result.
    rewrite (evaluatePolynomial_run cs t (Z.of_nat d) [] Hcs ltac:(lia)).
    cbn [fst]. rewrite Nat2Z.id. reflexivity.
  - unfold result.
    rewrite (evaluatePolynomial_run cs (t + h) 0 [] Hcs ltac:(lia)).
    cbn [fst]. f_equal. change (Nat.iter (Z.to_nat 0) pderiv cs) with cs.
    apply polynomial_taylor_sum. exact Hcs.
Qed.

Lemma polynomial_derivatives_give_values_elsewhere_witness :
  exists v : nat -> R,
    (forall d, (d <= length [1; 2; 3] - 1)%nat ->
       result (evaluatePolynomial [1; 2; 3] 2 (Z.of_nat d)) = Ret (v d)) /\
    result (evaluatePolynomial [1; 2; 3] (2 + 5) 0) =
      Ret (sum_f_R0 (fun d => v d * 5 ^ d / INR (fact d)) (length [1; 2; 3] - 1)).
Proof.
  apply (polynomial_derivatives_give_values_elsewhere [1; 2; 3] 2 5).
  - discriminate.
  - unfold int_max. simpl. lia.
Defined.
